(** * Crossword generation as a constraint-satisfaction problem

    A shallow embedding of [crossword.py] (classes [Variable], [Crossword])
    and of [generate.py] (class [CrosswordCreator] and [main], without the
    image file of [save]), with the properties of the constraint model, of
    the arc-consistency engine, of the backtracking search and of the
    printed grid proved about it.

    Conventions of the embedding.
    - Python [int] row and column numbers are [Z]; lengths and positions in
      a word or in a cell sequence are [nat].
    - A Python [set] is a [gset], a [dict] a [gmap].  Python iterates a set
      in an unspecified order; the embedding iterates [elements] (and
      [map_to_list] for a dict).  The properties below are about membership
      and lookups; where one speaks of an order, it is relative to
      [elements].
    - What [print] writes to the terminal is the value the embedding of
      [print] returns: the lines, each as the list of its pieces.
    - Python exceptions are the constructors of [exn]; a computation that
      can raise returns a [result].
    - Methods of [CrosswordCreator] run in the state-and-exception monad
      [M] over [state], which holds the creator's fields and the store of
      the assignment dictionaries, so that mutation of a dictionary shared
      between caller and callee is visible.
    - The [while] loop of [ac3] and the recursion of [backtrack] take a
      fuel argument; running out of it is the outcome [OutOfFuel]. *)

From stdpp Require Import gmap strings list fin_maps sets.
From Stdlib Require Import ZArith Lia Ascii String Sorting.Sorted.

Open Scope Z_scope.
Open Scope nat_scope.

(** ** Exceptions and results *)

Inductive exn : Type :=
  | KeyError
  | IndexError
  | TypeError
  | ValueError.

Inductive result (A : Type) : Type :=
  | Ok (a : A)
  | Raise (e : exn)
  | OutOfFuel.

Arguments Ok {A} a.
Arguments Raise {A} e.
Arguments OutOfFuel {A}.

#[global] Instance exn_eq_dec : EqDecision exn.
Proof. solve_decision. Defined.

#[global] Instance result_ret : MRet result := fun A a => Ok a.

#[global] Instance result_bind : MBind result := fun A B f r =>
  match r with
  | Ok a => f a
  | Raise e => Raise e
  | OutOfFuel => OutOfFuel
  end.

(** A [for] loop that threads an accumulator, in any monad. *)
Fixpoint foldM `{MBind F, MRet F} {A B : Type}
    (body : B → A → F B) (acc : B) (l : list A) : F B :=
  match l with
  | [] => mret acc
  | x :: l' => acc' ← body acc x; foldM body acc' l'
  end.

(** [l.index(x)]: position of the first occurrence, [ValueError] when
    there is none. *)
Fixpoint index_from {A : Type} `{EqDecision A}
    (l : list A) (x : A) (k : nat) : result nat :=
  match l with
  | [] => Raise ValueError
  | y :: l' => if decide (y = x) then Ok k else index_from l' x (S k)
  end.

Definition py_index {A : Type} `{EqDecision A} (l : list A) (x : A)
  : result nat :=
  index_from l x 0.

(** [s.pop()]: some element of the set, [KeyError] when it is empty. *)
Definition set_pop {A : Type} `{Countable A} (s : gset A) : result A :=
  match elements s with
  | [] => Raise KeyError
  | x :: _ => Ok x
  end.

(** [max(iterable)] on integers: [ValueError] on an empty sequence. *)
Definition py_max (l : list nat) : result nat :=
  match l with
  | [] => Raise ValueError
  | x :: l' => Ok (foldl Nat.max x l')
  end.

(** ** crossword.py: class Variable *)

Module Var.

Definition ACROSS : string := "across".
Definition DOWN : string := "down".

(** The four attributes set by [__init__]; equality and hash of the class
    are those of this tuple. *)
Record t : Type := init
  { i : Z;
    j : Z;
    direction : string;
    length : nat }.

(** [k if self.direction == which else 0] *)
Definition offset (d which : string) (k : nat) : Z :=
  if String.eqb d which then Z.of_nat k else 0%Z.

(** The loop of [__init__]: [self.cells] starts empty and one cell is
    appended for each [k] in [range(self.length)]. *)
Definition cells (v : t) : list (Z * Z) :=
  foldl
    (fun cells k =>
       cells ++ [((i v + offset (direction v) DOWN k)%Z,
                  (j v + offset (direction v) ACROSS k)%Z)])
    [] (seq 0 (length v)).

End Var.

#[global] Instance variable_eq_dec : EqDecision Var.t.
Proof. solve_decision. Defined.

#[global] Instance variable_countable : Countable Var.t.
Proof.
  refine (inj_countable'
            (fun v => (Var.i v, Var.j v, Var.direction v, Var.length v))
            (fun q => match q with
                      | (a, b, d, n) => Var.init a b d n
                      end) _).
  by intros [].
Defined.

(** ** crossword.py: class Crossword *)

Record Crossword : Type :=
  { height : nat;
    width : nat;
    structure : list (list bool);
    words : gset string;
    variables : gset Var.t;
    overlaps : gmap (Var.t * Var.t) (option (nat * nat)) }.

(** One row of [self.structure]: the inner loop over [range(self.width)]. *)
Definition structure_row (line : string) (width : nat) : list bool :=
  foldl
    (fun row j =>
       if String.length line <=? j then row ++ [false]
       else if decide (String.get j line = Some "_"%char) then row ++ [true]
       else row ++ [false])
    [] (seq 0 width).

(** [self.structure]: the outer loop over [range(self.height)];
    [contents[i]] is in range there. *)
Definition build_structure (contents : list string) (height width : nat)
  : list (list bool) :=
  foldl
    (fun structure i =>
       structure ++ [structure_row (default EmptyString (contents !! i)) width])
    [] (seq 0 height).

(** [self.structure[i][j]].  Every read of the scan below is at a row in
    [range(self.height)] and a column in [range(self.width)], which is
    the shape of [self.structure] (lemma [structure_shape]); outside of
    it the embedding reads [false]. *)
Definition cell (structure : list (list bool)) (i j : nat) : bool :=
  default false (row ← structure !! i; row !! j).

(** [length = 1; for k in ks: if filled(k): length += 1 else: break] *)
Fixpoint run_length (filled : nat → bool) (ks : list nat) (length : nat)
  : nat :=
  match ks with
  | [] => length
  | k :: ks' =>
      if filled k then run_length filled ks' (length + 1) else length
  end.

(** [range(a, b)] *)
Definition range (a b : nat) : list nat := seq a (b - a).

(** The body of the double loop that determines the variable set, at
    cell [(i, j)]: first the vertical word, then the horizontal one. *)
Definition scan_cell (structure : list (list bool)) (height width : nat)
    (i j : nat) (variables : gset Var.t) : gset Var.t :=
  let variables :=
    if cell structure i j
       && (bool_decide (i = 0) || negb (cell structure (i - 1) j))
    then
      let length :=
        run_length (fun k => cell structure k j) (range (i + 1) height) 1 in
      if bool_decide (1 < length)
      then variables ∪ {[ Var.init (Z.of_nat i) (Z.of_nat j) Var.DOWN length ]}
      else variables
    else variables in
  if cell structure i j
     && (bool_decide (j = 0) || negb (cell structure i (j - 1)))
  then
    let length :=
      run_length (fun k => cell structure i k) (range (j + 1) width) 1 in
    if bool_decide (1 < length)
    then variables ∪ {[ Var.init (Z.of_nat i) (Z.of_nat j) Var.ACROSS length ]}
    else variables
  else variables.

Definition scan (structure : list (list bool)) (height width : nat)
  : gset Var.t :=
  foldl
    (fun variables i =>
       foldl (fun variables j => scan_cell structure height width i j variables)
             variables (range 0 width))
    ∅ (range 0 height).

(** The entry [self.overlaps[v1, v2]] computed for [v1 != v2]. *)
Definition overlap_entry (v1 v2 : Var.t) : result (option (nat * nat)) :=
  let cells1 := Var.cells v1 in
  let cells2 := Var.cells v2 in
  let intersection : gset (Z * Z) :=
    list_to_set cells1 ∩ list_to_set cells2 in
  if decide (intersection = ∅) then Ok None
  else
    intersection ← set_pop intersection;
    a ← py_index cells1 intersection;
    b ← py_index cells2 intersection;
    Ok (Some (a, b)).

(** The double loop that fills [self.overlaps]; [overlaps_row] is the
    inner loop over [v2] for one [v1]. *)
Definition overlaps_row (v1 : Var.t) (variables : list Var.t)
    (overlaps : gmap (Var.t * Var.t) (option (nat * nat)))
  : result (gmap (Var.t * Var.t) (option (nat * nat))) :=
  foldM
    (fun overlaps v2 =>
       if decide (v1 = v2) then Ok overlaps
       else
         entry ← overlap_entry v1 v2;
         Ok (<[(v1, v2) := entry]> overlaps))
    overlaps variables.

Definition compute_overlaps (variables : gset Var.t)
  : result (gmap (Var.t * Var.t) (option (nat * nat))) :=
  foldM
    (fun overlaps v1 => overlaps_row v1 (elements variables) overlaps)
    ∅ (elements variables).

(** [Crossword.__init__], from the lines of the structure file and the
    vocabulary read from the words file. *)
Definition Crossword_init (contents : list string) (vocabulary : gset string)
  : result Crossword :=
  let height := List.length contents in
  width ← py_max (String.length <$> contents);
  let structure := build_structure contents height width in
  let variables := scan structure height width in
  overlaps ← compute_overlaps variables;
  Ok {| height := height;
        width := width;
        structure := structure;
        words := vocabulary;
        variables := variables;
        overlaps := overlaps |}.

(** [Crossword.neighbors]: [self.overlaps[v, var]] is a [KeyError] when
    the pair is no key; [None] is falsy and a pair of indices truthy.
    [neighbors_step] is the generator's filter on one variable [v]. *)
Definition neighbors_step (cw : Crossword) (var : Var.t)
    (acc : gset Var.t) (v : Var.t) : result (gset Var.t) :=
  if decide (v ≠ var) then
    match overlaps cw !! (v, var) with
    | None => Raise KeyError
    | Some None => Ok acc
    | Some (Some _) => Ok (acc ∪ {[ v ]})
    end
  else Ok acc.

Definition neighbors (cw : Crossword) (var : Var.t)
  : result (gset Var.t) :=
  foldM (neighbors_step cw var) ∅ (elements (variables cw)).

(** ** generate.py: class CrosswordCreator *)

(** References to dictionary objects. *)
Abbreviation loc := positive.

Record state : Type :=
  { crossword : Crossword;
    domains : gmap Var.t (gset string);
    (** the assignment dictionaries alive in the store *)
    dicts : gmap loc (gmap Var.t string);
    (** ghost: how many times [backtrack] has been entered *)
    backtrack_calls : nat }.

Definition M (A : Type) : Type := state → result (A * state).

#[global] Instance M_ret : MRet M := fun A a s => Ok (a, s).

#[global] Instance M_bind : MBind M := fun A B f m s =>
  match m s with
  | Ok (a, s') => f a s'
  | Raise e => Raise e
  | OutOfFuel => OutOfFuel
  end.

Definition raise {A : Type} (e : exn) : M A := fun _ => Raise e.

Definition out_of_fuel {A : Type} : M A := fun _ => OutOfFuel.

Definition gets {A : Type} (f : state → A) : M A := fun s => Ok (f s, s).

Definition lift {A : Type} (r : result A) : M A := fun s =>
  match r with
  | Ok a => Ok (a, s)
  | Raise e => Raise e
  | OutOfFuel => OutOfFuel
  end.

Definition with_domains (s : state) (ds : gmap Var.t (gset string)) : state :=
  {| crossword := crossword s;
     domains := ds;
     dicts := dicts s;
     backtrack_calls := backtrack_calls s |}.

Definition with_dicts (s : state) (h : gmap loc (gmap Var.t string)) : state :=
  {| crossword := crossword s;
     domains := domains s;
     dicts := h;
     backtrack_calls := backtrack_calls s |}.

Definition set_domains (ds : gmap Var.t (gset string)) : M unit :=
  fun s => Ok (tt, with_domains s ds).

Definition set_dicts (h : gmap loc (gmap Var.t string)) : M unit :=
  fun s => Ok (tt, with_dicts s h).

Definition enter_backtrack : M unit :=
  fun s =>
    Ok (tt, {| crossword := crossword s;
               domains := domains s;
               dicts := dicts s;
               backtrack_calls := S (backtrack_calls s) |}).

(** [CrosswordCreator.__init__]: every variable gets its own copy of the
    vocabulary. *)
Definition CrosswordCreator_init (cw : Crossword) : state :=
  {| crossword := cw;
     domains := gset_to_gmap (words cw) (variables cw);
     dicts := ∅;
     backtrack_calls := 0 |}.

(** [self.domains[v]] *)
Definition domain_of (v : Var.t) : M (gset string) :=
  ds ← gets domains;
  match ds !! v with
  | Some d => mret d
  | None => raise KeyError
  end.

(** [self.domains[v].remove(word)] *)
Definition domain_remove (v : Var.t) (word : string) : M unit :=
  d ← domain_of v;
  if decide (word ∈ d) then
    ds ← gets domains;
    set_domains (<[v := d ∖ {[ word ]}]> ds)
  else raise KeyError.

(** [self.crossword.overlaps[x, y]] *)
Definition overlap_of (x y : Var.t) : M (option (nat * nat)) :=
  cw ← gets crossword;
  match overlaps cw !! (x, y) with
  | Some o => mret o
  | None => raise KeyError
  end.

(** [self.crossword.neighbors(var)] *)
Definition neighbors_of (var : Var.t) : M (gset Var.t) :=
  cw ← gets crossword;
  lift (neighbors cw var).

(** [word[k]] *)
Definition str_index (word : string) (k : nat) : M ascii :=
  match String.get k word with
  | Some c => mret c
  | None => raise IndexError
  end.

(** [overlap[0]] and [overlap[1]]; [None] is not subscriptable. *)
Definition subscript0 (overlap : option (nat * nat)) : M nat :=
  match overlap with
  | Some (a, _) => mret a
  | None => raise TypeError
  end.

Definition subscript1 (overlap : option (nat * nat)) : M nat :=
  match overlap with
  | Some (_, b) => mret b
  | None => raise TypeError
  end.

(** The assignment dictionary behind a reference. *)
Definition dict_of (a : loc) : M (gmap Var.t string) :=
  h ← gets dicts;
  match h !! a with
  | Some d => mret d
  | None => raise TypeError
  end.

(** [dict()] *)
Definition dict_new : M loc :=
  h ← gets dicts;
  let l := fresh (dom h) in
  set_dicts (<[l := ∅]> h);;
  mret l.

(** [assignment.copy()] *)
Definition dict_copy (a : loc) : M loc :=
  d ← dict_of a;
  h ← gets dicts;
  let l := fresh (dom h) in
  set_dicts (<[l := d]> h);;
  mret l.

(** [assignment[var] = value] *)
Definition dict_set (a : loc) (var : Var.t) (value : string) : M unit :=
  d ← dict_of a;
  h ← gets dicts;
  set_dicts (<[a := <[var := value]> d]> h).

(** *** enforce_node_consistency *)

Definition enforce_node_consistency : M unit :=
  ds ← gets domains;
  foldM
    (fun _ variable =>
       d ← domain_of variable;
       foldM
         (fun _ word =>
            if decide (String.length word ≠ Var.length variable)
            then domain_remove variable word
            else mret tt)
         tt (elements d))
    tt ((map_to_list ds).*1).

(** *** revise *)

(** [any(x_word[x_index] == y_word[y_index] for y_word in ys)] *)
Fixpoint any_match (x_word : string) (x_index y_index : nat)
    (ys : list string) : M bool :=
  match ys with
  | [] => mret false
  | y_word :: ys' =>
      a ← str_index x_word x_index;
      b ← str_index y_word y_index;
      if decide (a = b) then mret true
      else any_match x_word x_index y_index ys'
  end.

Definition revise (x y : Var.t) : M bool :=
  let revised := false in
  overlap ← overlap_of x y;
  match overlap with
  | None => mret revised
  | Some (x_index, y_index) =>
      dx ← domain_of x;
      foldM
        (fun revised x_word =>
           dy ← domain_of y;
           found ← any_match x_word x_index y_index (elements dy);
           if negb found then
             domain_remove x x_word;;
             mret true
           else mret revised)
        revised (elements dx)
  end.

(** *** ac3 *)

(** [[(x, y) for x in self.domains for y in self.crossword.neighbors(x)]] *)
Definition all_arcs : M (list (Var.t * Var.t)) :=
  ds ← gets domains;
  foldM
    (fun arcs x =>
       ns ← neighbors_of x;
       mret (arcs ++ ((fun y => (x, y)) <$> elements ns)))
    [] ((map_to_list ds).*1).

(** The [while arcs:] loop. *)
Fixpoint ac3_loop (fuel : nat) (arcs : list (Var.t * Var.t))
  : M bool :=
  match fuel with
  | 0 => out_of_fuel
  | S fuel' =>
      match arcs with
      | [] => mret true
      | (x, y) :: arcs =>
          revised ← revise x y;
          if (revised : bool) then
            dx ← domain_of x;
            if decide (dx = (∅ : gset string)) then mret false
            else
              ns ← neighbors_of x;
              ac3_loop fuel'
                (arcs ++ ((fun neighbor => (neighbor, x))
                            <$> elements (ns ∖ {[ y ]})))
          else ac3_loop fuel' arcs
      end
  end.

Definition ac3 (fuel : nat) (arcs : option (list (Var.t * Var.t)))
  : M bool :=
  arcs ← match arcs with
         | None => all_arcs
         | Some arcs => mret arcs
         end;
  ac3_loop fuel arcs.

(** *** assignment_complete *)

Definition assignment_complete (a : loc) : M bool :=
  assignment ← dict_of a;
  cw ← gets crossword;
  mret (forallb (fun variable => bool_decide (is_Some (assignment !! variable)))
          (elements (variables cw))).

(** *** consistent *)

(** The inner loop over the neighbors of [variable]: [false] when it
    executes [return False], [true] when it runs to its end. *)
Fixpoint check_neighbors (assignment : gmap Var.t string)
    (variable : Var.t) (value : string) (ns : list Var.t) : M bool :=
  match ns with
  | [] => mret true
  | neighbor :: ns' =>
      match assignment !! neighbor with
      | Some neighbor_value =>
          overlap ← overlap_of variable neighbor;
          o0 ← subscript0 overlap;
          a ← str_index value o0;
          o1 ← subscript1 overlap;
          b ← str_index neighbor_value o1;
          if decide (a ≠ b) then mret false
          else check_neighbors assignment variable value ns'
      | None => check_neighbors assignment variable value ns'
      end
  end.

(** The loop over [assignment.items()]. *)
Fixpoint check_items (assignment : gmap Var.t string)
    (items : list (Var.t * string)) : M bool :=
  match items with
  | [] => mret true
  | (variable, value) :: items' =>
      if decide (Var.length variable ≠ String.length value) then mret false
      else
        ns ← neighbors_of variable;
        ok ← check_neighbors assignment variable value (elements ns);
        if (ok : bool) then check_items assignment items' else mret false
  end.

Definition consistent (a : loc) : M bool :=
  assignment ← dict_of a;
  let values : gset string := list_to_set ((map_to_list assignment).*2) in
  if decide (size values < size assignment) then mret false
  else check_items assignment (map_to_list assignment).

(** *** order_domain_values *)

Definition count_conflicts (var : Var.t)
    (assignment : gmap Var.t string) (value : string) : M nat :=
  let count := 0 in
  ns ← neighbors_of var;
  foldM
    (fun count neighbor =>
       if decide (assignment !! neighbor = None) then
         overlap ← overlap_of var neighbor;
         dn ← domain_of neighbor;
         n ← foldM
               (fun n word =>
                  o1 ← subscript1 overlap;
                  a ← str_index word o1;
                  o0 ← subscript0 overlap;
                  b ← str_index value o0;
                  mret (if decide (a ≠ b) then n + 1 else n))
               0 (elements dn);
         mret (count + n)
       else mret count)
    count (elements ns).

(** Stable insertion sort on the keys: the order of [sorted(..., key=...)]. *)
Fixpoint insert_by_key (kv : nat * string) (l : list (nat * string))
  : list (nat * string) :=
  match l with
  | [] => [kv]
  | kv' :: l' =>
      if kv.1 <=? kv'.1 then kv :: l else kv' :: insert_by_key kv l'
  end.

Definition sorted_by_key (l : list (nat * string)) : list string :=
  (foldr insert_by_key [] l).*2.

Definition order_domain_values (var : Var.t) (a : loc)
  : M (list string) :=
  assignment ← dict_of a;
  d ← domain_of var;
  keyed ← foldM
            (fun keyed value =>
               key ← count_conflicts var assignment value;
               mret (keyed ++ [(key, value)]))
            [] (elements d);
  mret (sorted_by_key keyed).

(** *** select_unassigned_variable *)

Definition mrv (variable : Var.t) : M (nat * Z) :=
  d ← domain_of variable;
  ns ← neighbors_of variable;
  mret (size (d : gset string), (- Z.of_nat (size (ns : gset Var.t)))%Z).

(** Tuple comparison [k1 < k2]. *)
Definition key_lt (k1 k2 : nat * Z) : bool :=
  bool_decide (k1.1 < k2.1)
  || (bool_decide (k1.1 = k2.1) && bool_decide (k1.2 < k2.2)%Z).

(** [min(l, key=mrv)]: the first item of least key, [ValueError] on an
    empty list. *)
Fixpoint min_from (best : Var.t) (best_key : nat * Z)
    (l : list Var.t) : M Var.t :=
  match l with
  | [] => mret best
  | v :: l' =>
      k ← mrv v;
      if key_lt k best_key then min_from v k l' else min_from best best_key l'
  end.

Definition select_unassigned_variable (a : loc) : M Var.t :=
  assignment ← dict_of a;
  cw ← gets crossword;
  let unassigned :=
    List.filter (fun v => bool_decide (assignment !! v = None))
      (elements (variables cw)) in
  match unassigned with
  | [] => raise ValueError
  | v :: l' => k ← mrv v; min_from v k l'
  end.

(** *** backtrack *)

(** The loop over the ordered values; [rec] is the recursive call. *)
Fixpoint try_values (rec : loc → M (option loc)) (assignment : loc)
    (var : Var.t) (values : list string) : M (option loc) :=
  match values with
  | [] => mret None
  | value :: values' =>
      new_assignment ← dict_copy assignment;
      dict_set new_assignment var value;;
      ok ← consistent new_assignment;
      if (ok : bool) then
        result ← rec new_assignment;
        match result with
        | Some r => mret (Some r)
        | None => try_values rec assignment var values'
        end
      else try_values rec assignment var values'
  end.

Fixpoint backtrack (fuel : nat) (assignment : loc) : M (option loc) :=
  match fuel with
  | 0 => out_of_fuel
  | S fuel' =>
      enter_backtrack;;
      complete ← assignment_complete assignment;
      if (complete : bool) then mret (Some assignment)
      else
        var ← select_unassigned_variable assignment;
        values ← order_domain_values var assignment;
        try_values (backtrack fuel') assignment var values
  end.

(** *** solve *)

Definition solve (fuel : nat) : M (option loc) :=
  enforce_node_consistency;;
  ac3 fuel None;;
  a ← dict_new;
  backtrack fuel a.

(** The run of [main]: build the crossword and the creator, solve, and
    read the returned dictionary. *)
Definition generate (fuel : nat) (contents : list string)
    (vocabulary : gset string) : result (option (gmap Var.t string)) :=
  cw ← Crossword_init contents vocabulary;
  '(r, s) ← solve fuel (CrosswordCreator_init cw);
  match r with
  | None => Ok None
  | Some l =>
      match dicts s !! l with
      | Some d => Ok (Some d)
      | None => Raise TypeError
      end
  end.

(** *** letter_grid *)

(** Position [i] in a Python list of length [n]: an [int] from [-n] to
    [n - 1], the negative ones counting from the end; any other is an
    [IndexError]. *)
Definition py_pos (n : nat) (i : Z) : result nat :=
  if decide (0 ≤ i < Z.of_nat n)%Z then Ok (Z.to_nat i)
  else if decide (- Z.of_nat n ≤ i < 0)%Z
       then Ok (Z.to_nat (Z.of_nat n + i))
       else Raise IndexError.

(** [l[k]] for [k] from a [range]. *)
Definition nth_item {A : Type} (l : list A) (k : nat) : result A :=
  match l !! k with
  | Some x => Ok x
  | None => Raise IndexError
  end.

(** [letters[i][j] = c].  The rows are distinct list objects, so only row
    [i] changes. *)
Definition grid_set (letters : list (list (option ascii))) (i j : Z)
    (c : ascii) : result (list (list (option ascii))) :=
  r ← py_pos (List.length letters) i;
  row ← nth_item letters r;
  q ← py_pos (List.length row) j;
  Ok (<[r := <[q := Some c]> row]> letters).

(** The loop over [range(len(word))] for one item of the assignment. *)
Definition write_word (variable : Var.t) (word : string)
    (letters : list (list (option ascii)))
  : result (list (list (option ascii))) :=
  let direction := Var.direction variable in
  foldM
    (fun letters k =>
       let i := (Var.i variable + Var.offset direction Var.DOWN k)%Z in
       let j := (Var.j variable + Var.offset direction Var.ACROSS k)%Z in
       match String.get k word with
       | Some c => grid_set letters i j c
       | None => Raise IndexError
       end)
    letters (range 0 (String.length word)).

Definition letter_grid (a : loc) : M (list (list (option ascii))) :=
  cw ← gets crossword;
  let letters := replicate (height cw) (replicate (width cw) None) in
  assignment ← dict_of a;
  lift (foldM (fun letters item => write_word item.1 item.2 letters)
          letters (map_to_list assignment)).

(** *** print *)

(** The piece written for cell [(i, j)]: [letters[i][j] or " "] on a
    fillable cell, a full block on the others. *)
Definition print_cell (cw : Crossword)
    (letters : list (list (option ascii))) (i j : nat) : result string :=
  row ← nth_item (structure cw) i;
  fillable ← nth_item row j;
  if (fillable : bool) then
    letters_row ← nth_item letters i;
    letter ← nth_item letters_row j;
    Ok (match letter with
        | Some c => String c EmptyString
        | None => " "
        end)
  else Ok "█".

(** What [print] writes to the terminal: the lines from top to bottom,
    each as the list of the pieces written one after the other. *)
Definition print (a : loc) : M (list (list string)) :=
  letters ← letter_grid a;
  cw ← gets crossword;
  lift (foldM
          (fun out i =>
             line ← foldM
                      (fun line j =>
                         piece ← print_cell cw letters i j;
                         Ok (line ++ [piece]))
                      [] (range 0 (width cw));
             Ok (out ++ [line]))
          [] (range 0 (height cw))).

(** *** main *)

(** The run of [main] without an output file: what it writes to the
    terminal. *)
Definition main (fuel : nat) (contents : list string)
    (vocabulary : gset string) : result (list (list string)) :=
  cw ← Crossword_init contents vocabulary;
  '(assignment, s) ← solve fuel (CrosswordCreator_init cw);
  match assignment with
  | None => Ok [["No solution."]]
  | Some a => '(out, _) ← print a s; Ok out
  end.

(** * Specifications *)

(** The outcome of running [m] from [s]: [Q] holds of a normal return,
    [E] of the exception raised ([None] stands for running out of
    fuel). *)
Definition wp {A : Type} (m : M A) (Q : A → state → Prop)
    (E : option exn → Prop) (s : state) : Prop :=
  match m s with
  | Ok (a, s') => Q a s'
  | Raise e => E (Some e)
  | OutOfFuel => E None
  end.

(** No abnormal outcome is accepted. *)
Definition no_exn : option exn → Prop := fun _ => False.

(** Cell [k] of a variable, in closed form. *)
Definition cell_at (v : Var.t) (k : nat) : Z * Z :=
  ((Var.i v + Var.offset (Var.direction v) Var.DOWN k)%Z,
   (Var.j v + Var.offset (Var.direction v) Var.ACROSS k)%Z).

(** [w] at position [ix] and [w'] at position [iy] hold the same
    character. *)
Definition agree (ix iy : nat) (w w' : string) : Prop :=
  ∃ c, String.get ix w = Some c ∧ String.get iy w' = Some c.

(** Some word of [dy] agrees with [w]. *)
Definition supported (ix iy : nat) (dy : gset string) (w : string) : Prop :=
  ∃ w', w' ∈ dy ∧ agree ix iy w w'.

(** [m] reads the state and never writes it. *)
Definition read_only {A : Type} (m : M A) : Prop :=
  ∀ s a s', m s = Ok (a, s') → s' = s.

(** What a caller of the search sees preserved: the crossword, every
    domain, and every dictionary that was alive. *)
Definition frame (s s' : state) : Prop :=
  crossword s' = crossword s
  ∧ domains s' = domains s
  ∧ ∀ l d, dicts s !! l = Some d → dicts s' !! l = Some d.

(** The constraints on an assignment [d] of the crossword [cw]. *)
Definition complete (cw : Crossword) (d : gmap Var.t string) : Prop :=
  ∀ v, v ∈ variables cw → is_Some (d !! v).

Definition distinct_words (d : gmap Var.t string) : Prop :=
  ∀ v1 v2 w, d !! v1 = Some w → d !! v2 = Some w → v1 = v2.

Definition lengths_fit (d : gmap Var.t string) : Prop :=
  ∀ v w, d !! v = Some w → String.length w = Var.length v.

Definition overlaps_agree (cw : Crossword) (d : gmap Var.t string) : Prop :=
  ∀ x y ix iy wx wy,
    x ∈ variables cw → y ∈ variables cw → x ≠ y →
    overlaps cw !! (x, y) = Some (Some (ix, iy)) →
    d !! x = Some wx → d !! y = Some wy →
    agree ix iy wx wy.

Definition consistent_assignment (cw : Crossword) (d : gmap Var.t string)
  : Prop :=
  distinct_words d ∧ lengths_fit d ∧ overlaps_agree cw d.

(** What preprocessing does to the state: domains shrink, nothing else
    changes. *)
Definition prunes (s s' : state) : Prop :=
  crossword s' = crossword s
  ∧ dicts s' = dicts s
  ∧ backtrack_calls s' = backtrack_calls s
  ∧ ∀ v, match domains s !! v with
         | None => domains s' !! v = None
         | Some d => ∃ d' : gset string, domains s' !! v = Some d' ∧ d' ⊆ d
         end.

(** A complete and consistent assignment. *)
Definition solution (cw : Crossword) (d : gmap Var.t string) : Prop :=
  complete cw d ∧ consistent_assignment cw d.

(** Running [m] from [s] does not end in an out-of-range string access. *)
Definition safe {A : Type} (m : M A) (s : state) : Prop :=
  m s ≠ Raise IndexError.

(** Node consistency: every word of every domain has the length of its
    variable. *)
Definition node_consistent (s : state) : Prop :=
  ∀ v (d : gset string) w,
    domains s !! v = Some d → w ∈ d → String.length w = Var.length v.

(** Every recorded overlap lies inside the two variables. *)
Definition overlaps_in_range (cw : Crossword) : Prop :=
  ∀ x y ix iy,
    overlaps cw !! (x, y) = Some (Some (ix, iy)) →
    ix < Var.length x ∧ iy < Var.length y.

(** What a run returned, or [default] when it raised. *)
Definition returned {A : Type} (r : result A) (default : A) : A :=
  match r with
  | Ok a => a
  | _ => default
  end.

(** A vertical word starts at [(i, j)]: the condition and the variable
    the scan adds there. *)
Definition down_at (structure : list (list bool)) (height : nat)
    (i j : nat) (v : Var.t) : Prop :=
  cell structure i j = true
  ∧ (i = 0 ∨ cell structure (i - 1) j = false)
  ∧ 1 < run_length (fun k => cell structure k j) (range (i + 1) height) 1
  ∧ v = Var.init (Z.of_nat i) (Z.of_nat j) Var.DOWN
          (run_length (fun k => cell structure k j) (range (i + 1) height) 1).

(** A horizontal word starts at [(i, j)]. *)
Definition across_at (structure : list (list bool)) (width : nat)
    (i j : nat) (v : Var.t) : Prop :=
  cell structure i j = true
  ∧ (j = 0 ∨ cell structure i (j - 1) = false)
  ∧ 1 < run_length (fun k => cell structure i k) (range (j + 1) width) 1
  ∧ v = Var.init (Z.of_nat i) (Z.of_nat j) Var.ACROSS
          (run_length (fun k => cell structure i k) (range (j + 1) width) 1).

(** The entry the construction computes for a pair ([None] also stands
    for a failed computation; there is none, lemma [overlap_entry_total]). *)
Definition overlap (v1 v2 : Var.t) : option (nat * nat) :=
  returned (overlap_entry v1 v2) None.

(** [k] is the first position of [x] in [l]. *)
Definition first_index {A : Type} (l : list A) (x : A) (k : nat) : Prop :=
  l !! k = Some x ∧ ∀ m, m < k → l !! m ≠ Some x.

(** The worklist algorithm in the words of the specification: a run of
    [ac3] from a worklist and a state, to its verdict and final state.
    The arcs re-enqueued for [x] may come in any order. *)
Inductive ac3_spec : list (Var.t * Var.t) → state → bool → state → Prop :=
  | ac3_spec_empty s :
      ac3_spec [] s true s
  | ac3_spec_unchanged x y arcs s s1 b s' :
      revise x y s = Ok (false, s1) →
      ac3_spec arcs s1 b s' →
      ac3_spec ((x, y) :: arcs) s b s'
  | ac3_spec_failure x y arcs s s1 :
      revise x y s = Ok (true, s1) →
      domains s1 !! x = Some ∅ →
      ac3_spec ((x, y) :: arcs) s false s1
  | ac3_spec_requeue x y arcs s s1 (dx : gset string) ns zs b s' :
      revise x y s = Ok (true, s1) →
      domains s1 !! x = Some dx →
      dx ≠ ∅ →
      neighbors (crossword s1) x = Ok ns →
      zs ≡ₚ elements (ns ∖ {[ y ]}) →
      ac3_spec (arcs ++ ((fun z => (z, x)) <$> zs)) s1 b s' →
      ac3_spec ((x, y) :: arcs) s b s'.

(** The table has an entry for every ordered pair of distinct variables. *)
Definition pairs_total (cw : Crossword) : Prop :=
  ∀ x y, x ∈ variables cw → y ∈ variables cw → x ≠ y →
    is_Some (overlaps cw !! (x, y)).

(** The state of a creator made from a built crossword, once node
    consistency has been enforced. *)
Definition well_formed (s : state) : Prop :=
  pairs_total (crossword s)
  ∧ overlaps_in_range (crossword s)
  ∧ (∀ v, is_Some (domains s !! v) ↔ v ∈ variables (crossword s))
  ∧ node_consistent s.

(** The number of candidate words left, over all domains. *)
Definition total_size (ds : gmap Var.t (gset string)) : nat :=
  map_fold (fun _ d n => size d + n) 0 ds.

(** The arcs of a worklist join distinct variables of the crossword. *)
Definition arcs_valid (cw : Crossword) (arcs : list (Var.t * Var.t)) : Prop :=
  ∀ x y, (x, y) ∈ arcs → x ∈ variables cw ∧ y ∈ variables cw ∧ x ≠ y.

(** The key [mrv] computes for a variable: the size of its domain and the
    negated number of its neighbors. *)
Definition mrv_key (s : state) (v : Var.t) : nat * Z :=
  (size (default (∅ : gset string) (domains s !! v)),
   (- Z.of_nat (size (returned (neighbors (crossword s) v)
                        (∅ : gset Var.t))))%Z).

(** A maximal vertical run of [L] fillable cells from [(i, j)]: the cell
    above and the cell below are blocked or outside the grid. *)
Definition run_down (structure : list (list bool)) (i j L : nat) : Prop :=
  (∀ k, k < L → cell structure (i + k) j = true)
  ∧ (i = 0 ∨ cell structure (i - 1) j = false)
  ∧ cell structure (i + L) j = false.

(** A maximal horizontal run of [L] fillable cells from [(i, j)]. *)
Definition run_across (structure : list (list bool)) (i j L : nat) : Prop :=
  (∀ k, k < L → cell structure i (j + k) = true)
  ∧ (j = 0 ∨ cell structure i (j - 1) = false)
  ∧ cell structure i (j + L) = false.

(** The number [count_conflicts] returns for [value] ([0] if it raises). *)
Definition conflicts (var : Var.t) (d : gmap Var.t string) (s : state)
    (value : string) : nat :=
  (returned (count_conflicts var d value s) (0, s)).1.

(** Every assigned variable is a variable of the crossword and its word
    comes from its domain. *)
Definition from_domains (s : state) (d : gmap Var.t string) : Prop :=
  ∀ v w, d !! v = Some w →
    v ∈ variables (crossword s)
    ∧ ∃ dv : gset string, domains s !! v = Some dv ∧ w ∈ dv.

(** Wherever a variable has a domain, the word [d] gives it is in that
    domain. *)
Definition drawn_from (s : state) (d : gmap Var.t string) : Prop :=
  ∀ v w (dv : gset string),
    d !! v = Some w → domains s !! v = Some dv → w ∈ dv.

(** The table is symmetric: the entry of [(y, x)] is the entry of [(x, y)]
    with its two positions exchanged. *)
Definition mirrored (cw : Crossword) : Prop :=
  ∀ x y p q, x ∈ variables cw → y ∈ variables cw → x ≠ y →
    overlaps cw !! (x, y) = Some (Some (p, q)) →
    overlaps cw !! (y, x) = Some (Some (q, p)).

(** The arc [(x, y)] is consistent: every word left for [x] agrees at the
    overlap with some word left for [y]. *)
Definition arc_ok (s : state) (x y : Var.t) : Prop :=
  ∀ ix iy (dx dy : gset string),
    overlaps (crossword s) !! (x, y) = Some (Some (ix, iy)) →
    domains s !! x = Some dx → domains s !! y = Some dy →
    ∀ w, w ∈ dx → supported ix iy dy w.

Definition arc_consistent (s : state) : Prop :=
  ∀ x y, x ∈ variables (crossword s) → y ∈ variables (crossword s) → x ≠ y →
    arc_ok s x y.

(** The invariant of the worklist: an arc that is not waiting is
    consistent. *)
Definition pending (arcs : list (Var.t * Var.t)) (s : state) : Prop :=
  ∀ x y, x ∈ variables (crossword s) → y ∈ variables (crossword s) → x ≠ y →
    (x, y) ∈ arcs ∨ arc_ok s x y.

(** Entry [(i, j)] of a grid, when it has one. *)
Definition grid_cell {A : Type} (g : list (list A)) (i j : nat) : option A :=
  row ← g !! i; row !! j.

(** A grid of [h] rows of [w] entries. *)
Definition grid_shape {A : Type} (g : list (list A)) (h w : nat) : Prop :=
  List.length g = h ∧ ∀ row, row ∈ g → List.length row = w.

(** The assignment [d] puts the character [c] on the cell [p]: some
    assigned variable has [p] as its cell number [k], and [c] is character
    [k] of its word. *)
Definition letter_at (d : gmap Var.t string) (p : Z * Z) (c : ascii) : Prop :=
  ∃ v w k,
    d !! v = Some w ∧ Var.cells v !! k = Some p ∧ String.get k w = Some c.

(** The letters of a grid are those of [W]. *)
Definition shows (letters : list (list (option ascii)))
    (W : Z * Z → ascii → Prop) : Prop :=
  ∀ i j c,
    grid_cell letters i j = Some (Some c) ↔ W (Z.of_nat i, Z.of_nat j) c.

(** The text printed for the assignment [d] of the crossword [cw]: one
    line for each row and one piece for each column; a full block on a
    blocked cell, the letter [d] puts on a fillable cell, and a space on a
    fillable cell without a letter. *)
Definition printed (cw : Crossword) (d : gmap Var.t string)
    (out : list (list string)) : Prop :=
  grid_shape out (height cw) (width cw)
  ∧ ∀ i j, i < height cw → j < width cw →
      ∃ piece,
        grid_cell out i j = Some piece
        ∧ (cell (structure cw) i j = false → piece = "█")
        ∧ (cell (structure cw) i j = true →
           (∀ c, letter_at d (Z.of_nat i, Z.of_nat j) c →
                 piece = String c EmptyString)
           ∧ ((∀ c, ¬ letter_at d (Z.of_nat i, Z.of_nat j) c) → piece = " ")).

(** The piece [print] writes for cell [(i, j)], given the letters. *)
Definition piece (cw : Crossword) (letters : list (list (option ascii)))
    (i j : nat) : string :=
  if cell (structure cw) i j then
    match grid_cell letters i j with
    | Some (Some c) => String c EmptyString
    | _ => " "
    end
  else "█".

(** The value [value] of [var] rules out the word [w] of the unassigned
    neighbor [n]: [w] is in the domain of [n] and differs from [value] at
    the overlap. *)
Definition ruled_out (s : state) (var : Var.t) (d : gmap Var.t string)
    (value : string) (n : Var.t) (w : string) : Prop :=
  d !! n = None
  ∧ ∃ (dn : gset string) ix iy,
      domains s !! n = Some dn ∧ w ∈ dn
      ∧ overlaps (crossword s) !! (var, n) = Some (Some (ix, iy))
      ∧ ¬ agree ix iy value w.

(** ** A small puzzle used to exercise the statements

    Three cells across the first row, and a two-cell word down from the
    middle one. *)
Module Example.

Definition contents : list string := ["___"; "#_#"].

Definition across : Var.t := Var.init 0 0 Var.ACROSS 3.
Definition down : Var.t := Var.init 0 1 Var.DOWN 2.

Definition vocabulary : gset string := {[ "CAT"; "DOG"; "AB"; "OX"; "EMU" ]}.

Definition puzzle : Crossword :=
  {| height := 2;
     width := 3;
     structure := [[true; true; true]; [false; true; false]];
     words := vocabulary;
     variables := {[ across; down ]};
     overlaps := {[ (across, down) := Some (1, 0);
                    (down, across) := Some (0, 1) ]} |}.

(** The same structure with a vocabulary that has no solution. *)
Definition short_vocabulary : gset string := {[ "CAT"; "OX" ]}.

Definition unsolvable : Crossword :=
  {| height := 2;
     width := 3;
     structure := [[true; true; true]; [false; true; false]];
     words := short_vocabulary;
     variables := {[ across; down ]};
     overlaps := {[ (across, down) := Some (1, 0);
                    (down, across) := Some (0, 1) ]} |}.

(** The creator after node consistency. *)
Definition pruned : state :=
  {| crossword := puzzle;
     domains := {[ across := {[ "CAT"; "DOG"; "EMU" ]};
                   down := {[ "AB"; "OX" ]} ]};
     dicts := ∅;
     backtrack_calls := 0 |}.

(** The same with an empty assignment dictionary at reference [1]. *)
Definition searching : state :=
  {| crossword := puzzle;
     domains := {[ across := {[ "CAT"; "DOG"; "EMU" ]};
                   down := {[ "AB"; "OX" ]} ]};
     dicts := {[ 1%positive := ∅ ]};
     backtrack_calls := 0 |}.

(** An assignment that solves the puzzle, and one whose words clash at
    the crossing. *)
Definition filled : gmap Var.t string :=
  {[ across := "CAT"; down := "AB" ]}.

Definition clash : gmap Var.t string :=
  {[ across := "CAT"; down := "OX" ]}.

(** The creator with the clashing assignment at reference [1]. *)
Definition clashing : state :=
  {| crossword := puzzle;
     domains := {[ across := {[ "CAT"; "DOG"; "EMU" ]};
                   down := {[ "AB"; "OX" ]} ]};
     dicts := {[ 1%positive := clash ]};
     backtrack_calls := 0 |}.

(** The creator with the solving assignment at reference [1]. *)
Definition solved : state :=
  {| crossword := puzzle;
     domains := {[ across := {[ "CAT"; "DOG"; "EMU" ]};
                   down := {[ "AB"; "OX" ]} ]};
     dicts := {[ 1%positive := filled ]};
     backtrack_calls := 0 |}.

(** The same structure with a one-letter word in the vocabulary. *)
Definition mixed_vocabulary : gset string := {[ "CAT"; "AB"; "A" ]}.

Definition mixed : Crossword :=
  {| height := 2;
     width := 3;
     structure := [[true; true; true]; [false; true; false]];
     words := mixed_vocabulary;
     variables := {[ across; down ]};
     overlaps := {[ (across, down) := Some (1, 0);
                    (down, across) := Some (0, 1) ]} |}.

End Example.

(** * Proofs *)

(** ** The monad *)

Lemma wp_ret {A : Type} (a : A) (Q : A → state → Prop) E s :
  Q a s → wp (mret a) Q E s.
Proof. done. Qed.

Lemma wp_bind {A B : Type} (m : M A) (f : A → M B) Q E s :
  wp m (fun a s' => wp (f a) Q E s') E s → wp (m ≫= f) Q E s.
Proof.
  unfold wp, mbind, M_bind. destruct (m s) as [[a s']| |]; done.
Qed.

Lemma wp_mono {A : Type} (m : M A) (Q Q' : A → state → Prop) E s :
  (∀ a s', Q a s' → Q' a s') → wp m Q E s → wp m Q' E s.
Proof.
  unfold wp. intros HQ. destruct (m s) as [[a s']| |]; auto.
Qed.

Lemma wp_total {A : Type} (m : M A) (Q : A → state → Prop) s :
  wp m Q no_exn s ↔ ∃ a s', m s = Ok (a, s') ∧ Q a s'.
Proof.
  unfold wp, no_exn. destruct (m s) as [[a s']| |]; naive_solver.
Qed.

Lemma wp_partial {A : Type} (m : M A) (Q : A → state → Prop) s :
  wp m Q (fun _ => True) s ↔ ∀ a s', m s = Ok (a, s') → Q a s'.
Proof.
  unfold wp. destruct (m s) as [[a s']| |]; naive_solver.
Qed.

Lemma bind_Ok {A B : Type} (m : M A) (f : A → M B) s b s' :
  (m ≫= f) s = Ok (b, s')
  ↔ ∃ a s1, m s = Ok (a, s1) ∧ f a s1 = Ok (b, s').
Proof.
  unfold mbind, M_bind. destruct (m s) as [[a s1]| |]; naive_solver.
Qed.

Lemma bind_run {A B : Type} (m : M A) (f : A → M B) s a s1 :
  m s = Ok (a, s1) → (m ≫= f) s = f a s1.
Proof. unfold mbind, M_bind. by intros ->. Qed.

Lemma bind_assoc {A B C : Type} (m : M A) (f : A → M B) (g : B → M C) s :
  ((m ≫= f) ≫= g) s = (m ≫= fun a => f a ≫= g) s.
Proof.
  unfold mbind, M_bind. destruct (m s) as [[a s1]| |]; done.
Qed.

Lemma ret_bind {A B : Type} (a : A) (f : A → M B) s :
  (mret a ≫= f) s = f a s.
Proof. done. Qed.

(** Run the first action of the goal's computation with the equation [H]. *)
Ltac run H :=
  rewrite ?bind_assoc; erewrite bind_run by (exact H); cbv beta match.

Lemma result_bind_Ok {A B : Type} (r : result A) (f : A → result B) b :
  r ≫= f = Ok b ↔ ∃ a, r = Ok a ∧ f a = Ok b.
Proof. unfold mbind, result_bind. destruct r; naive_solver. Qed.

Lemma domain_of_run (v : Var.t) (d : gset string) s :
  domains s !! v = Some d → domain_of v s = Ok (d, s).
Proof.
  intros H. unfold domain_of, gets, mbind, M_bind. by rewrite H.
Qed.

Lemma domain_remove_run (v : Var.t) (w : string) (d : gset string) s :
  domains s !! v = Some d → w ∈ d →
  domain_remove v w s
  = Ok (tt, with_domains s (<[v := d ∖ {[ w ]}]> (domains s))).
Proof.
  intros Hd Hw. unfold domain_remove.
  rewrite (bind_run _ _ _ _ _ (domain_of_run _ _ _ Hd)).
  by rewrite decide_True.
Qed.

(** ** Variable: the cell sequence *)

Lemma cells_loop (v : Var.t) (acc : list (Z * Z)) (ks : list nat) :
  foldl (fun cells k => cells ++ [cell_at v k]) acc ks
  = acc ++ (cell_at v <$> ks).
Proof.
  revert acc. induction ks as [|k ks IH]; intros acc; simpl.
  - by rewrite app_nil_r.
  - rewrite IH. by rewrite <- app_assoc.
Qed.

Lemma cells_map (v : Var.t) :
  Var.cells v = cell_at v <$> seq 0 (Var.length v).
Proof. unfold Var.cells. apply (cells_loop v []). Qed.

Lemma cells_length (v : Var.t) :
  List.length (Var.cells v) = Var.length v.
Proof. by rewrite cells_map, length_fmap, length_seq. Qed.

Lemma cells_lookup (v : Var.t) (k : nat) :
  k < Var.length v → Var.cells v !! k = Some (cell_at v k).
Proof.
  intros Hk. rewrite cells_map, list_lookup_fmap.
  by rewrite lookup_seq_lt.
Qed.

Lemma cells_lookup_Some (v : Var.t) (k : nat) (c : Z * Z) :
  Var.cells v !! k = Some c ↔ k < Var.length v ∧ c = cell_at v k.
Proof.
  split.
  - intros H. assert (k < Var.length v) as Hk.
    { apply lookup_lt_Some in H. by rewrite cells_length in H. }
    rewrite cells_lookup in H by done. naive_solver.
  - intros [Hk ->]. by apply cells_lookup.
Qed.

Lemma elem_of_cells (v : Var.t) (c : Z * Z) :
  c ∈ Var.cells v ↔ ∃ k, k < Var.length v ∧ c = cell_at v k.
Proof.
  rewrite list_elem_of_lookup. by setoid_rewrite cells_lookup_Some.
Qed.

(** C8.  A variable built from row [i], column [j], a direction and a
    length [L] has a cell sequence of exactly [L] entries; entry [k] is
    [(i + k, j)] for a down variable and [(i, j + k)] for an across
    variable (each offset is [k] when the direction is the named one and
    [0] otherwise), so consecutive cells of a down variable differ by one
    row and those of an across variable by one column. *)
Theorem variable_cells_geometry (i j : Z) (d : string) (L : nat) :
  let v := Var.init i j d L in
  List.length (Var.cells v) = L
  ∧ (∀ k, k < L →
       Var.cells v !! k
       = Some ((i + (if String.eqb d Var.DOWN then Z.of_nat k else 0))%Z,
               (j + (if String.eqb d Var.ACROSS then Z.of_nat k else 0))%Z))
  ∧ (∀ k r c r' c',
       Var.cells v !! k = Some (r, c) →
       Var.cells v !! (S k) = Some (r', c') →
       (d = Var.DOWN → r' = (r + 1)%Z ∧ c' = c)
       ∧ (d = Var.ACROSS → r' = r ∧ c' = (c + 1)%Z)).
Proof.
  intros v. split; [apply cells_length|]. split.
  - intros k Hk. by rewrite cells_lookup.
  - intros k r c r' c' H1 H2.
    apply cells_lookup_Some in H1 as [_ H1].
    apply cells_lookup_Some in H2 as [_ H2].
    unfold cell_at, Var.offset in H1, H2. simpl in H1, H2.
    split; intros ->; simpl in *; simplify_eq; split; lia.
Qed.

(** ** enforce_node_consistency *)

(** The inner loop, on the words [ws] still to visit: the words removed
    from the domain of [v] are those of [ws] of the wrong length. *)
Lemma node_consistency_words (v : Var.t) (ws : list string) :
  ∀ s (d : gset string),
    NoDup ws → domains s !! v = Some d → (∀ w, w ∈ ws → w ∈ d) →
    ∃ d' : gset string,
      foldM (fun _ word =>
               if decide (String.length word ≠ Var.length v)
               then domain_remove v word
               else mret tt) tt ws s
      = Ok (tt, with_domains s (<[v := d']> (domains s)))
      ∧ ∀ w, w ∈ d'
             ↔ w ∈ d ∧ ¬ (w ∈ ws ∧ String.length w ≠ Var.length v).
Proof.
  induction ws as [|x ws IH]; intros s d Hnd Hd Hin; simpl.
  - exists d. split.
    + rewrite insert_id by done. by destruct s.
    + intros w. rewrite elem_of_nil. naive_solver.
  - apply NoDup_cons in Hnd as [Hx Hnd].
    destruct (decide (String.length x ≠ Var.length v)) as [Hne|Heq].
    + assert (x ∈ d) as Hxd by (apply Hin; left).
      rewrite (bind_run _ _ _ _ _ (domain_remove_run v x d s Hd Hxd)).
      destruct (IH (with_domains s (<[v := d ∖ {[ x ]}]> (domains s)))
                  (d ∖ {[ x ]}) Hnd) as (d' & Hrun & Hd').
      { simpl. by rewrite lookup_insert_eq. }
      { intros w Hw. apply elem_of_difference. split.
        - apply Hin. by right.
        - rewrite elem_of_singleton. by intros ->. }
      exists d'. split.
      * rewrite Hrun. simpl. unfold with_domains. simpl.
        by rewrite insert_insert_eq.
      * intros w. rewrite Hd', elem_of_difference, elem_of_singleton,
          elem_of_cons. naive_solver.
    + apply dec_stable in Heq.
      destruct (IH s d Hnd Hd) as (d' & Hrun & Hd').
      { intros w Hw. apply Hin. by right. }
      exists d'. split.
      * unfold mbind at 1, M_bind, mret, M_ret. exact Hrun.
      * intros w. rewrite Hd', elem_of_cons. naive_solver.
Qed.

(** The outer loop, on the variables [vs] still to visit. *)
Lemma node_consistency_variables (vs : list Var.t) :
  ∀ s,
    NoDup vs → (∀ v, v ∈ vs → is_Some (domains s !! v)) →
    ∃ s',
      foldM (fun _ variable =>
               d ← domain_of variable;
               foldM (fun _ word =>
                        if decide (String.length word ≠ Var.length variable)
                        then domain_remove variable word
                        else mret tt) tt (elements d)) tt vs s
      = Ok (tt, s')
      ∧ crossword s' = crossword s
      ∧ dicts s' = dicts s
      ∧ backtrack_calls s' = backtrack_calls s
      ∧ ∀ v, domains s' !! v
             = if decide (v ∈ vs)
               then filter (fun w => String.length w = Var.length v)
                      <$> domains s !! v
               else domains s !! v.
Proof.
  induction vs as [|x vs IH]; intros s Hnd Hdom; simpl.
  - exists s. repeat split; try done.
  - apply NoDup_cons in Hnd as [Hx Hnd].
    destruct (Hdom x) as [d Hd]; [left|].
    destruct (node_consistency_words x (elements d) s d)
      as (d' & Hrun & Hd'); [apply NoDup_elements|done| |].
    { intros w. by rewrite elem_of_elements. }
    set (s1 := with_domains s (<[x := d']> (domains s))) in *.
    destruct (IH s1 Hnd) as (s' & Hrun' & Hcw & Hdicts & Hcalls & Hlook).
    { intros v Hv. simpl. destruct (decide (x = v)) as [->|Hne].
      - rewrite lookup_insert_eq. eauto.
      - rewrite lookup_insert_ne by done. apply Hdom. by right. }
    exists s'. split; [|repeat split; try done].
    + erewrite bind_run; [exact Hrun'|].
      erewrite bind_run; [exact Hrun|]. by apply domain_of_run.
    + intros v. rewrite Hlook. simpl.
      destruct (decide (v = x)) as [->|Hne].
      * rewrite decide_False by done.
        rewrite decide_True by left.
        rewrite lookup_insert_eq, Hd. simpl. f_equal.
        apply set_eq. intros w. rewrite Hd', elem_of_filter.
        rewrite elem_of_elements. split.
        -- intros [Hw Hnot]. split; [|done].
           destruct (decide (String.length w = Var.length x)); [done|].
           naive_solver.
        -- naive_solver.
      * rewrite lookup_insert_ne by done.
        destruct (decide (v ∈ vs)) as [Hv|Hv].
        -- rewrite decide_True by (by right). done.
        -- rewrite decide_False; [done|].
           rewrite elem_of_cons. naive_solver.
Qed.

(** What [enforce_node_consistency] does, for use in later proofs. *)
Lemma node_consistency_run (s : state) :
  ∃ s',
    enforce_node_consistency s = Ok (tt, s')
    ∧ crossword s' = crossword s
    ∧ dicts s' = dicts s
    ∧ backtrack_calls s' = backtrack_calls s
    ∧ dom (domains s') = dom (domains s)
    ∧ ∀ v, match domains s !! v with
           | None => domains s' !! v = None
           | Some d =>
               ∃ d' : gset string,
                 domains s' !! v = Some d'
                 ∧ ∀ w, w ∈ d'
                        ↔ w ∈ d ∧ String.length w = Var.length v
           end.
Proof.
  destruct (node_consistency_variables ((map_to_list (domains s)).*1) s)
    as (s' & Hrun & Hcw & Hdicts & Hcalls & Hlook).
  { apply NoDup_fst_map_to_list. }
  { intros v Hv. apply list_elem_of_fmap in Hv as ([v' d] & -> & Hv).
    apply elem_of_map_to_list in Hv. eauto. }
  assert (∀ v, domains s' !! v
               = filter (fun w => String.length w = Var.length v)
                   <$> domains s !! v) as Hlook'.
  { intros v. rewrite Hlook. destruct (decide _) as [|Hv]; [done|].
    destruct (domains s !! v) as [d|] eqn:Hd; [|done].
    exfalso. apply Hv. apply list_elem_of_fmap. exists (v, d).
    split; [done|]. by apply elem_of_map_to_list. }
  exists s'. split; [|repeat split; try done].
  - unfold enforce_node_consistency.
    rewrite (bind_run _ _ s (domains s) s eq_refl). exact Hrun.
  - apply set_eq. intros v. rewrite !elem_of_dom, Hlook'.
    by rewrite fmap_is_Some.
  - intros v. rewrite Hlook'. destruct (domains s !! v) as [d|]; [|done].
    simpl. eexists. split; [done|]. intros w. rewrite elem_of_filter.
    tauto.
Qed.

(** C7.  [enforce_node_consistency] always returns; afterwards the domain
    of every variable holds exactly the words it held before whose length
    is the variable's length (so every remaining word has that length and
    no word of that length was lost), the set of variables that have a
    domain is unchanged, and the crossword, the assignment dictionaries
    and the call counter are untouched. *)
Theorem enforce_node_consistency_spec (s : state) :
  ∃ s',
    enforce_node_consistency s = Ok (tt, s')
    ∧ crossword s' = crossword s
    ∧ dicts s' = dicts s
    ∧ backtrack_calls s' = backtrack_calls s
    ∧ dom (domains s') = dom (domains s)
    ∧ ∀ v, match domains s !! v with
           | None => domains s' !! v = None
           | Some d =>
               ∃ d' : gset string,
                 domains s' !! v = Some d'
                 ∧ ∀ w, w ∈ d'
                        ↔ w ∈ d ∧ String.length w = Var.length v
           end.
Proof. exact (node_consistency_run s). Qed.

(** ** revise *)

Lemma string_get_lt (w : string) (k : nat) :
  k < String.length w → ∃ c, String.get k w = Some c.
Proof.
  revert k. induction w as [|a w IH]; intros k Hk; simpl in *; [lia|].
  destruct k as [|k]; [eauto|]. apply IH. lia.
Qed.

Lemma string_get_Some (w : string) (k : nat) (c : ascii) :
  String.get k w = Some c → k < String.length w.
Proof.
  revert k. induction w as [|a w IH]; intros k Hk; simpl in *; [done|].
  destruct k as [|k]; [lia|]. apply IH in Hk. lia.
Qed.

Lemma str_index_run (w : string) (k : nat) (c : ascii) s :
  String.get k w = Some c → str_index w k s = Ok (c, s).
Proof. intros H. unfold str_index. by rewrite H. Qed.

Lemma any_match_run (x_word : string) (ix iy : nat) (ys : list string) s :
  ix < String.length x_word →
  (∀ w', w' ∈ ys → iy < String.length w') →
  ∃ b, any_match x_word ix iy ys s = Ok (b, s)
       ∧ (b = true ↔ ∃ w', w' ∈ ys ∧ agree ix iy x_word w').
Proof.
  intros Hx. induction ys as [|w' ys IH]; intros Hys; simpl.
  - exists false. split; [done|]. split; [done|].
    intros (w' & Hw' & _). by apply elem_of_nil in Hw'.
  - destruct (string_get_lt x_word ix Hx) as [a Ha].
    destruct (string_get_lt w' iy) as [b Hb]; [apply Hys; left|].
    rewrite (bind_run _ _ _ _ _ (str_index_run _ _ _ s Ha)).
    rewrite (bind_run _ _ _ _ _ (str_index_run _ _ _ s Hb)).
    destruct (decide (a = b)) as [->|Hne].
    + exists true. split; [done|]. split; [|done]. intros _.
      exists w'. split; [left|]. by exists b.
    + destruct IH as (r & Hrun & Hr).
      { intros w'' Hw''. apply Hys. by right. }
      exists r. split; [done|]. rewrite Hr. split.
      * intros (w'' & Hw'' & Hag). exists w''. split; [by right|done].
      * intros (w'' & Hw'' & Hag).
        apply elem_of_cons in Hw'' as [->|Hw'']; [|by eauto].
        destruct Hag as (c & Hc1 & Hc2). congruence.
Qed.

(** The loop of [revise] on the words [ws] of [x] still to visit. *)
Lemma revise_words (x y : Var.t) (ix iy : nat) (dy : gset string)
    (ws : list string) :
  ∀ s (d : gset string) (revised : bool),
    x ≠ y → NoDup ws →
    domains s !! x = Some d → domains s !! y = Some dy →
    (∀ w, w ∈ ws → w ∈ d ∧ ix < String.length w) →
    (∀ w', w' ∈ dy → iy < String.length w') →
    ∃ (d' : gset string) (b : bool),
      foldM (fun revised x_word =>
               dy ← domain_of y;
               found ← any_match x_word ix iy (elements dy);
               if negb found then domain_remove x x_word;; mret true
               else mret revised) revised ws s
      = Ok (b, with_domains s (<[x := d']> (domains s)))
      ∧ (∀ w, w ∈ d' ↔ w ∈ d ∧ (w ∈ ws → supported ix iy dy w))
      ∧ (b = true
         ↔ revised = true ∨ ∃ w, w ∈ ws ∧ ¬ supported ix iy dy w).
Proof.
  induction ws as [|w0 ws IH]; intros s d revised Hxy Hnd Hx Hy Hws Hdy;
    simpl.
  - exists d, revised. split; [|split].
    + rewrite insert_id by done. by destruct s.
    + intros w. rewrite elem_of_nil. naive_solver.
    + split; [by left|]. intros [?|(w & Hw & _)]; [done|].
      by apply elem_of_nil in Hw.
  - apply NoDup_cons in Hnd as [Hw0 Hnd].
    destruct (Hws w0) as [Hw0d Hw0len]; [left|].
    run (domain_of_run y dy s Hy).
    destruct (any_match_run w0 ix iy (elements dy) s Hw0len)
      as (found & Hrun & Hfound).
    { intros w'. rewrite elem_of_elements. apply Hdy. }
    run Hrun.
    assert (found = true ↔ supported ix iy dy w0) as Hsup.
    { rewrite Hfound. unfold supported.
      by setoid_rewrite elem_of_elements. }
    destruct found; simpl.
    + destruct (IH s d revised Hxy Hnd Hx Hy) as (d' & b & Hrun' & Hd' & Hb);
        [|done|].
      { intros w Hw. apply Hws. by right. }
      exists d', b. split; [done|]. split.
      * intros w. rewrite Hd', elem_of_cons. split; [|naive_solver].
        intros [Hwd Himp]. split; [done|]. intros [->|Hw]; [|auto].
        by apply Hsup.
      * rewrite Hb. split; [naive_solver by (right)|].
        intros [?|(w & Hw & Hns)]; [by left|].
        apply elem_of_cons in Hw as [->|Hw]; [|by eauto].
        exfalso. apply Hns. by apply Hsup.
    + assert (¬ supported ix iy dy w0) as Hns.
      { intros Hs. by apply Hsup in Hs. }
      run (domain_remove_run x w0 d s Hx Hw0d). rewrite ret_bind.
      destruct (IH (with_domains s (<[x := d ∖ {[ w0 ]}]> (domains s)))
                  (d ∖ {[ w0 ]}) true Hxy Hnd)
        as (d' & b & Hrun' & Hd' & Hb); [| | |done|].
      { simpl. by rewrite lookup_insert_eq. }
      { simpl. by rewrite lookup_insert_ne. }
      { intros w Hw. destruct (Hws w) as [Hwd Hwl]; [by right|].
        split; [|done]. apply elem_of_difference. split; [done|].
        rewrite elem_of_singleton. by intros ->. }
      exists d', b. split; [|split].
      * rewrite Hrun'. unfold with_domains. simpl.
        by rewrite insert_insert_eq.
      * intros w. rewrite Hd', elem_of_difference, elem_of_singleton,
          elem_of_cons. split.
        -- intros [[Hwd Hne] Himp]. split; [done|].
           intros [->|Hw]; [done|auto].
        -- intros [Hwd Himp]. split; [split; [done|]|].
           ++ intros ->. apply Hns, Himp. by left.
           ++ intros Hw. apply Himp. by right.
      * rewrite Hb. split; [|intros _; by left]. intros _. right.
        exists w0. split; [left|done].
Qed.

(** What [revise] does, for use in later proofs. *)
Lemma revise_run (s : state) (x y : Var.t) (o : option (nat * nat)) :
  overlaps (crossword s) !! (x, y) = Some o →
  match o with
  | None => revise x y s = Ok (false, s)
  | Some (ix, iy) =>
      ∀ dx dy : gset string,
        x ≠ y →
        domains s !! x = Some dx →
        domains s !! y = Some dy →
        (∀ w, w ∈ dx → ix < String.length w) →
        (∀ w, w ∈ dy → iy < String.length w) →
        ∃ (dx' : gset string) (b : bool),
          revise x y s = Ok (b, with_domains s (<[x := dx']> (domains s)))
          ∧ (∀ w, w ∈ dx' ↔ w ∈ dx ∧ supported ix iy dy w)
          ∧ (b = true ↔ ∃ w, w ∈ dx ∧ w ∉ dx')
  end.
Proof.
  intros Ho.
  assert (overlap_of x y s = Ok (o, s)) as Hov.
  { unfold overlap_of. rewrite (bind_run _ _ s (crossword s) s eq_refl).
    by rewrite Ho. }
  destruct o as [[ix iy]|].
  - intros dx dy Hxy Hx Hy Hdx Hdy.
    destruct (revise_words x y ix iy dy (elements dx) s dx false Hxy)
      as (dx' & b & Hrun & Hdx' & Hb); [apply NoDup_elements|done|done| |done|].
    { intros w Hw. apply elem_of_elements in Hw. auto. }
    exists dx', b. split; [|split].
    + unfold revise. run Hov. by run (domain_of_run x dx s Hx).
    + intros w. rewrite Hdx', elem_of_elements. clear. tauto.
    + rewrite Hb. split.
      * intros [?|(w & Hw & Hns)]; [done|].
        exists w. split; [by apply elem_of_elements|].
        intros [_ Himp]%Hdx'. by apply Hns, Himp.
      * intros (w & Hw & Hnot). right. exists w.
        rewrite elem_of_elements. split; [done|].
        intros Hs. apply Hnot, Hdx'. by split.
  - unfold revise. by run Hov.
Qed.

(** ** Computations that only read the state *)

Lemma read_only_ret {A : Type} (a : A) : read_only (mret a).
Proof. intros s a' s' H. by injection H as _ <-. Qed.

Lemma read_only_raise {A : Type} (e : exn) : read_only (@raise A e).
Proof. by intros s a s' H. Qed.

Lemma read_only_gets {A : Type} (f : state → A) : read_only (gets f).
Proof. intros s a s' H. by injection H as _ <-. Qed.

Lemma read_only_lift {A : Type} (r : result A) : read_only (lift r).
Proof.
  intros s a s' H. unfold lift in H. destruct r; [|done..].
  by injection H as _ <-.
Qed.

Lemma read_only_bind {A B : Type} (m : M A) (f : A → M B) :
  read_only m → (∀ a, read_only (f a)) → read_only (m ≫= f).
Proof.
  intros Hm Hf s b s' H. apply bind_Ok in H as (a & s1 & H1 & H2).
  apply Hm in H1 as ->. by apply Hf in H2.
Qed.

Lemma read_only_foldM {A B : Type} (body : B → A → M B) (l : list A) :
  (∀ acc x, read_only (body acc x)) → ∀ acc, read_only (foldM body acc l).
Proof.
  intros Hbody. induction l as [|x l IH]; intros acc; simpl.
  - apply read_only_ret.
  - apply read_only_bind; [apply Hbody|apply IH].
Qed.

Create HintDb read_only.

#[local] Hint Resolve read_only_ret read_only_raise read_only_gets
  read_only_lift : read_only.

(** Decompose a computation along its binds, loops and case analyses. *)
Ltac read_only_step :=
  lazymatch goal with
  | |- read_only (_ ≫= _) => apply read_only_bind; [|intros ?]
  | |- read_only (foldM _ _ _) => apply read_only_foldM; intros ? ?
  | |- read_only (match ?x with _ => _ end) => destruct x
  | |- read_only _ => solve [auto with read_only]
  | |- ∀ _, _ => intros ?
  end.

Ltac read_only := repeat read_only_step.

Lemma read_only_domain_of (v : Var.t) : read_only (domain_of v).
Proof. unfold domain_of. read_only. Qed.

Lemma read_only_overlap_of (x y : Var.t) : read_only (overlap_of x y).
Proof. unfold overlap_of. read_only. Qed.

Lemma read_only_neighbors_of (var : Var.t) : read_only (neighbors_of var).
Proof. unfold neighbors_of. read_only. Qed.

Lemma read_only_str_index (w : string) (k : nat) : read_only (str_index w k).
Proof. unfold str_index. read_only. Qed.

Lemma read_only_subscript0 (o : option (nat * nat)) :
  read_only (subscript0 o).
Proof. unfold subscript0. read_only. Qed.

Lemma read_only_subscript1 (o : option (nat * nat)) :
  read_only (subscript1 o).
Proof. unfold subscript1. read_only. Qed.

Lemma read_only_dict_of (a : loc) : read_only (dict_of a).
Proof. unfold dict_of. read_only. Qed.

#[local] Hint Resolve read_only_domain_of read_only_overlap_of
  read_only_neighbors_of read_only_str_index read_only_subscript0
  read_only_subscript1 read_only_dict_of : read_only.

Lemma read_only_any_match (xw : string) (ix iy : nat) (ys : list string) :
  read_only (any_match xw ix iy ys).
Proof. induction ys as [|yw ys IH]; simpl; read_only. Qed.

Lemma read_only_assignment_complete (a : loc) :
  read_only (assignment_complete a).
Proof. unfold assignment_complete. read_only. Qed.

Lemma read_only_check_neighbors (assignment : gmap Var.t string)
    (v : Var.t) (value : string) (ns : list Var.t) :
  read_only (check_neighbors assignment v value ns).
Proof. induction ns as [|n ns IH]; simpl; read_only. Qed.

#[local] Hint Resolve read_only_any_match read_only_assignment_complete
  read_only_check_neighbors : read_only.

Lemma read_only_check_items (assignment : gmap Var.t string)
    (items : list (Var.t * string)) :
  read_only (check_items assignment items).
Proof. induction items as [|[v w] items IH]; simpl; read_only. Qed.

#[local] Hint Resolve read_only_check_items : read_only.

Lemma read_only_consistent (a : loc) : read_only (consistent a).
Proof. unfold consistent. read_only. Qed.

Lemma read_only_count_conflicts (var : Var.t)
    (assignment : gmap Var.t string) (value : string) :
  read_only (count_conflicts var assignment value).
Proof. unfold count_conflicts. read_only. Qed.

#[local] Hint Resolve read_only_consistent read_only_count_conflicts
  : read_only.

Lemma read_only_order_domain_values (var : Var.t) (a : loc) :
  read_only (order_domain_values var a).
Proof. unfold order_domain_values. read_only. Qed.

Lemma read_only_mrv (v : Var.t) : read_only (mrv v).
Proof. unfold mrv. read_only. Qed.

#[local] Hint Resolve read_only_order_domain_values read_only_mrv
  : read_only.

Lemma read_only_min_from (l : list Var.t) :
  ∀ best key, read_only (min_from best key l).
Proof. induction l as [|v l IH]; intros best key; simpl; read_only. Qed.

#[local] Hint Resolve read_only_min_from : read_only.

Lemma read_only_select_unassigned_variable (a : loc) :
  read_only (select_unassigned_variable a).
Proof. unfold select_unassigned_variable. read_only. Qed.

#[local] Hint Resolve read_only_select_unassigned_variable : read_only.

(** ** The search leaves the domains and its caller's dictionaries alone *)

Lemma frame_refl (s : state) : frame s s.
Proof. by repeat split. Qed.

Lemma frame_trans (s1 s2 s3 : state) : frame s1 s2 → frame s2 s3 → frame s1 s3.
Proof.
  intros (Hc1 & Hd1 & Hh1) (Hc2 & Hd2 & Hh2).
  repeat split; [congruence..|]. intros l d Hl. by apply Hh2, Hh1.
Qed.

Lemma read_only_frame {A : Type} (m : M A) s a s' :
  read_only m → m s = Ok (a, s') → frame s s'.
Proof. intros Hm H. apply Hm in H as ->. apply frame_refl. Qed.

Lemma dict_of_Ok (a : loc) s d s' :
  dict_of a s = Ok (d, s') ↔ dicts s !! a = Some d ∧ s' = s.
Proof.
  unfold dict_of, gets, mbind, M_bind, mret, M_ret, raise.
  destruct (dicts s !! a); naive_solver.
Qed.

Lemma dict_copy_Ok (a : loc) s l s1 :
  dict_copy a s = Ok (l, s1)
  ↔ ∃ d, dicts s !! a = Some d
         ∧ l = fresh (dom (dicts s))
         ∧ s1 = with_dicts s (<[l := d]> (dicts s)).
Proof.
  unfold dict_copy. rewrite bind_Ok. setoid_rewrite dict_of_Ok.
  unfold gets, set_dicts, mbind, M_bind, mret, M_ret. naive_solver.
Qed.

Lemma dict_set_Ok (l : loc) (var : Var.t) (value : string) s s2 :
  dict_set l var value s = Ok (tt, s2)
  ↔ ∃ d, dicts s !! l = Some d
         ∧ s2 = with_dicts s (<[l := <[var := value]> d]> (dicts s)).
Proof.
  unfold dict_set. rewrite bind_Ok. setoid_rewrite dict_of_Ok.
  unfold gets, set_dicts, mbind, M_bind, mret, M_ret. naive_solver.
Qed.

Lemma dict_new_Ok s l s1 :
  dict_new s = Ok (l, s1)
  ↔ l = fresh (dom (dicts s)) ∧ s1 = with_dicts s (<[l := ∅]> (dicts s)).
Proof.
  unfold dict_new, gets, set_dicts, mbind, M_bind, mret, M_ret.
  naive_solver.
Qed.

Lemma fresh_dict_None (h : gmap loc (gmap Var.t string)) :
  h !! fresh (dom h) = None.
Proof. apply not_elem_of_dom, is_fresh. Qed.

(** A branch's working copy: a new dictionary, extended by one entry. *)
Lemma extend_copy (a : loc) (var : Var.t) (value : string) s l s1 s2 :
  dict_copy a s = Ok (l, s1) →
  dict_set l var value s1 = Ok (tt, s2) →
  frame s s2
  ∧ dicts s !! l = None
  ∧ ∃ d, dicts s !! a = Some d
         ∧ dicts s2 !! l = Some (<[var := value]> d).
Proof.
  intros (d & Ha & -> & ->)%dict_copy_Ok (d' & Hl & ->)%dict_set_Ok.
  simpl in *. rewrite lookup_insert_eq in Hl. injection Hl as <-.
  pose proof (fresh_dict_None (dicts s)) as Hfresh.
  split; [|split; [done|]].
  - repeat split; try done. simpl. intros l' d' Hl'.
    rewrite !lookup_insert_ne; [done|congruence..].
  - exists d. split; [done|]. simpl. by rewrite lookup_insert_eq.
Qed.

Lemma enter_backtrack_frame s s' : enter_backtrack s = Ok (tt, s') → frame s s'.
Proof. intros H. injection H as <-. by repeat split. Qed.

Lemma try_values_frame (rec : loc → M (option loc)) (a : loc) (var : Var.t)
    (values : list string) :
  (∀ a' s r s', rec a' s = Ok (r, s') → frame s s') →
  ∀ s r s', try_values rec a var values s = Ok (r, s') → frame s s'.
Proof.
  intros Hrec. induction values as [|value values IH]; intros s r s' H;
    simpl in H.
  - injection H as _ <-. apply frame_refl.
  - apply bind_Ok in H as (l & s1 & Hcopy & H).
    apply bind_Ok in H as ([] & s2 & Hset & H).
    apply bind_Ok in H as (ok & s3 & Hok & H).
    apply read_only_consistent in Hok as ->.
    destruct (extend_copy _ _ _ _ _ _ _ Hcopy Hset) as (Hfr & _).
    apply (frame_trans _ _ _ Hfr).
    destruct ok; [|by eapply IH].
    apply bind_Ok in H as (res & s4 & Hres & H).
    apply Hrec in Hres. apply (frame_trans _ _ _ Hres).
    destruct res as [r'|]; [|by eapply IH].
    injection H as _ <-. apply frame_refl.
Qed.

Lemma backtrack_frame (fuel : nat) :
  ∀ a s r s', backtrack fuel a s = Ok (r, s') → frame s s'.
Proof.
  induction fuel as [|fuel IH]; intros a s r s' H; simpl in H; [done|].
  apply bind_Ok in H as ([] & s1 & Henter & H).
  apply enter_backtrack_frame in Henter. apply (frame_trans _ _ _ Henter).
  apply bind_Ok in H as (complete & s2 & Hc & H).
  apply read_only_assignment_complete in Hc as ->.
  destruct complete.
  - injection H as _ <-. apply frame_refl.
  - apply bind_Ok in H as (var & s2 & Hvar & H).
    apply read_only_select_unassigned_variable in Hvar as ->.
    apply bind_Ok in H as (values & s2 & Hvals & H).
    apply read_only_order_domain_values in Hvals as ->.
    by eapply try_values_frame.
Qed.

(** C9.  The search writes neither the domains nor its caller's
    assignment.  When [backtrack(assignment)] returns, every domain is what
    it was at the call and every dictionary that existed at the call, the
    caller's [assignment] among them, holds what it held: the extensions
    went to copies.  [order_domain_values(var, assignment)] changes no
    state at all. *)
Theorem search_preserves_state (fuel : nat) (a : loc) (var : Var.t)
    (s : state) :
  (∀ r s', backtrack fuel a s = Ok (r, s') →
     domains s' = domains s
     ∧ crossword s' = crossword s
     ∧ dicts s' !! a = dicts s !! a
     ∧ ∀ l d, dicts s !! l = Some d → dicts s' !! l = Some d)
  ∧ (∀ values s', order_domain_values var a s = Ok (values, s') → s' = s).
Proof.
  split.
  - intros r s' H. pose proof (backtrack_frame _ _ _ _ _ H) as (Hc & Hd & Hh).
    repeat split; try done.
    destruct fuel as [|fuel]; [done|]. simpl in H.
    apply bind_Ok in H as ([] & s1 & Henter & H).
    injection Henter as <-.
    apply bind_Ok in H as (complete & s2 & Hcomplete & _).
    unfold assignment_complete in Hcomplete.
    apply bind_Ok in Hcomplete as (d & s3 & (Hd' & _)%dict_of_Ok & _).
    simpl in Hd'. rewrite Hd'. by apply Hh.
  - intros values s'. apply read_only_order_domain_values.
Qed.

(** ** neighbors *)

Lemma neighbors_loop (cw : Crossword) (var : Var.t) (vs : list Var.t) :
  ∀ acc ns : gset Var.t,
    foldM (neighbors_step cw var) acc vs = Ok ns →
    (∀ v, v ∈ ns
          ↔ v ∈ acc
            ∨ (v ∈ vs ∧ v ≠ var
               ∧ ∃ pq, overlaps cw !! (v, var) = Some (Some pq)))
    ∧ (∀ v, v ∈ vs → v ≠ var → is_Some (overlaps cw !! (v, var))).
Proof.
  induction vs as [|x vs IH]; intros acc ns H; simpl in H.
  - injection H as <-. split.
    + intros v. rewrite elem_of_nil. clear. tauto.
    + intros v Hv. by apply elem_of_nil in Hv.
  - apply result_bind_Ok in H as (acc' & Hx & H).
    apply IH in H as [Hns Hkeys]. unfold neighbors_step in Hx. split.
    + intros v. rewrite Hns, elem_of_cons. clear Hns Hkeys IH.
      destruct (decide (x ≠ var)) as [Hne|Heq].
      * destruct (overlaps cw !! (x, var)) as [[pq|]|] eqn:Ho; [| |done];
          injection Hx as <-.
        -- rewrite elem_of_union, elem_of_singleton. naive_solver.
        -- naive_solver.
      * apply dec_stable in Heq. injection Hx as <-. naive_solver.
    + intros v Hv Hne. apply elem_of_cons in Hv as [Heq|Hv];
        [subst v|by apply Hkeys].
      rewrite decide_True in Hx by done.
      destruct (overlaps cw !! (x, var)) as [o|]; [eauto|done].
Qed.

Lemma neighbors_Ok (cw : Crossword) (var : Var.t) (ns : gset Var.t) :
  neighbors cw var = Ok ns →
  (∀ v, v ∈ ns
        ↔ v ∈ variables cw ∧ v ≠ var
          ∧ ∃ pq, overlaps cw !! (v, var) = Some (Some pq))
  ∧ (∀ v, v ∈ variables cw → v ≠ var → is_Some (overlaps cw !! (v, var))).
Proof.
  intros H. apply neighbors_loop in H as [Hns Hkeys]. split.
  - intros v. rewrite Hns, elem_of_elements, elem_of_empty. naive_solver.
  - intros v Hv. apply Hkeys. by apply elem_of_elements.
Qed.

Lemma neighbors_of_Ok (var : Var.t) (ns : gset Var.t) s s' :
  neighbors_of var s = Ok (ns, s') ↔ neighbors (crossword s) var = Ok ns ∧ s' = s.
Proof.
  unfold neighbors_of, gets, lift, mbind, M_bind.
  destruct (neighbors (crossword s) var); naive_solver.
Qed.

(** ** consistent *)

Lemma size_list_to_set_le {A : Type} `{Countable A} (l : list A) :
  size (list_to_set l : gset A) ≤ List.length l.
Proof.
  induction l as [|x l IH].
  { by rewrite list_to_set_nil, size_empty. }
  rewrite list_to_set_cons, length_cons, size_union_alt, size_singleton.
  assert (list_to_set l ∖ {[ x ]} ⊆ (list_to_set l : gset A)) as Hsub
    by set_solver.
  apply subseteq_size in Hsub. lia.
Qed.

Lemma list_to_set_size_NoDup {A : Type} `{Countable A} (l : list A) :
  List.length l ≤ size (list_to_set l : gset A) → NoDup l.
Proof.
  induction l as [|x l IH]; [constructor|].
  rewrite list_to_set_cons, length_cons. intros Hlen.
  pose proof (size_list_to_set_le l) as Hle.
  destruct (decide (x ∈ l)) as [Hx|Hx].
  - exfalso.
    assert ({[ x ]} ∪ list_to_set l = (list_to_set l : gset A)) as Heq.
    { apply set_eq. intros y. rewrite elem_of_union, elem_of_singleton,
        elem_of_list_to_set. naive_solver. }
    rewrite Heq in Hlen. lia.
  - constructor; [done|]. apply IH.
    rewrite size_union, size_singleton in Hlen; [lia|].
    apply disjoint_singleton_l. by rewrite elem_of_list_to_set.
Qed.

Lemma distinct_values (d : gmap Var.t string) :
  ¬ size (list_to_set (map_to_list d).*2 : gset string) < size d →
  distinct_words d.
Proof.
  intros Hsize v1 v2 w H1 H2.
  assert (NoDup (map_to_list d).*2) as Hnd.
  { apply list_to_set_size_NoDup.
    rewrite length_fmap, length_map_to_list. lia. }
  apply elem_of_map_to_list, list_elem_of_lookup in H1 as [k1 H1].
  apply elem_of_map_to_list, list_elem_of_lookup in H2 as [k2 H2].
  assert (k1 = k2) as ->.
  { apply (NoDup_lookup _ k1 k2 w Hnd);
      rewrite list_lookup_fmap; [by rewrite H1|by rewrite H2]. }
  congruence.
Qed.

Lemma overlap_of_Ok (x y : Var.t) (o : option (nat * nat)) s s' :
  overlap_of x y s = Ok (o, s')
  ↔ overlaps (crossword s) !! (x, y) = Some o ∧ s' = s.
Proof.
  unfold overlap_of, gets, mbind, M_bind, mret, M_ret, raise.
  destruct (overlaps (crossword s) !! (x, y)); naive_solver.
Qed.

Lemma str_index_Ok (w : string) (k : nat) (c : ascii) s s' :
  str_index w k s = Ok (c, s') ↔ String.get k w = Some c ∧ s' = s.
Proof.
  unfold str_index, mret, M_ret, raise.
  destruct (String.get k w); naive_solver.
Qed.

Lemma subscript0_Ok (o : option (nat * nat)) (k : nat) s s' :
  subscript0 o s = Ok (k, s') ↔ (∃ k', o = Some (k, k')) ∧ s' = s.
Proof.
  unfold subscript0, mret, M_ret, raise. destruct o as [[a b]|]; naive_solver.
Qed.

Lemma subscript1_Ok (o : option (nat * nat)) (k : nat) s s' :
  subscript1 o s = Ok (k, s') ↔ (∃ k', o = Some (k', k)) ∧ s' = s.
Proof.
  unfold subscript1, mret, M_ret, raise. destruct o as [[a b]|]; naive_solver.
Qed.

Lemma check_neighbors_true (d : gmap Var.t string) (v : Var.t)
    (value : string) (ns : list Var.t) s s' :
  check_neighbors d v value ns s = Ok (true, s') →
  ∀ n nw, n ∈ ns → d !! n = Some nw →
    ∃ ix iy, overlaps (crossword s) !! (v, n) = Some (Some (ix, iy))
             ∧ agree ix iy value nw.
Proof.
  induction ns as [|n' ns IH]; simpl; intros H n nw Hn Hnw.
  - by apply elem_of_nil in Hn.
  - destruct (d !! n') as [nw'|] eqn:Hn'.
    + apply bind_Ok in H as (o & s1 & [Ho ->]%overlap_of_Ok & H).
      apply bind_Ok in H as (o0 & s1 & [[k0 ->] ->]%subscript0_Ok & H).
      apply bind_Ok in H as (a & s1 & [Ha ->]%str_index_Ok & H).
      apply bind_Ok in H as (o1 & s1 & [[k1 Heq] ->]%subscript1_Ok & H).
      injection Heq as <- <-.
      apply bind_Ok in H as (b & s1 & [Hb ->]%str_index_Ok & H).
      destruct (decide (a ≠ b)) as [|Hab]; [done|]. apply dec_stable in Hab.
      subst b. apply elem_of_cons in Hn as [->|Hn]; [|by apply IH].
      exists o0, k0. split; [done|]. exists a. split; [done|]. congruence.
    + apply elem_of_cons in Hn as [->|Hn]; [congruence|by apply IH].
Qed.

Lemma check_items_true (d : gmap Var.t string)
    (items : list (Var.t * string)) s s' :
  check_items d items s = Ok (true, s') →
  ∀ v w, (v, w) ∈ items →
    String.length w = Var.length v
    ∧ ∃ ns, neighbors (crossword s) v = Ok ns
            ∧ ∀ n nw, n ∈ ns → d !! n = Some nw →
                ∃ ix iy, overlaps (crossword s) !! (v, n) = Some (Some (ix, iy))
                         ∧ agree ix iy w nw.
Proof.
  induction items as [|[v' w'] items IH]; simpl; intros H v w Hvw.
  - by apply elem_of_nil in Hvw.
  - destruct (decide (Var.length v' ≠ String.length w')) as [|Hlen]; [done|].
    apply dec_stable in Hlen.
    apply bind_Ok in H as (ns & s1 & [Hns ->]%neighbors_of_Ok & H).
    apply bind_Ok in H as (ok & s1 & Hok & H).
    pose proof (read_only_check_neighbors _ _ _ _ _ _ _ Hok) as ->.
    destruct ok; [|done].
    apply elem_of_cons in Hvw as [Heq|Hvw]; [|by apply IH].
    injection Heq as -> ->. split; [done|]. exists ns. split; [done|].
    intros n nw Hn. apply (check_neighbors_true _ _ _ _ _ _ Hok).
    by apply elem_of_elements.
Qed.

Lemma consistent_true (a : loc) s s' :
  consistent a s = Ok (true, s') →
  ∃ d, dicts s !! a = Some d ∧ consistent_assignment (crossword s) d.
Proof.
  unfold consistent. intros H.
  apply bind_Ok in H as (d & s1 & [Hd ->]%dict_of_Ok & H).
  exists d. split; [done|].
  destruct (decide (size _ < size d)) as [|Hsize]; [done|].
  pose proof (check_items_true _ _ _ _ H) as Hitems.
  split; [by apply distinct_values|]. split.
  - intros v w Hvw. by apply Hitems, elem_of_map_to_list.
  - intros x y ix iy wx wy Hx Hy Hxy Ho Hwx Hwy.
    destruct (Hitems y wy) as (_ & nsy & Hnsy & Hchecky);
      [by apply elem_of_map_to_list|].
    apply neighbors_Ok in Hnsy as [Hnsy _].
    destruct (Hchecky x wx) as (ix' & iy' & Ho' & _); [|done|].
    { apply Hnsy. eauto. }
    destruct (Hitems x wx) as (_ & nsx & Hnsx & Hcheckx);
      [by apply elem_of_map_to_list|].
    apply neighbors_Ok in Hnsx as [Hnsx _].
    destruct (Hcheckx y wy) as (ix'' & iy'' & Ho'' & Hag); [|done|].
    { apply Hnsx. eauto. }
    congruence.
Qed.

(** ** Pruning: revise and ac3 only shrink domains *)

Lemma prunes_refl (s : state) : prunes s s.
Proof.
  repeat split; try done. intros v. destruct (domains s !! v); eauto.
Qed.

Lemma prunes_trans (s1 s2 s3 : state) :
  prunes s1 s2 → prunes s2 s3 → prunes s1 s3.
Proof.
  intros (Hc1 & Hh1 & Hn1 & Hd1) (Hc2 & Hh2 & Hn2 & Hd2).
  repeat split; [congruence..|]. intros v.
  specialize (Hd1 v). specialize (Hd2 v).
  destruct (domains s1 !! v) as [d1|].
  - destruct Hd1 as (d2 & Hd2' & Hsub). rewrite Hd2' in Hd2.
    destruct Hd2 as (d3 & Hd3 & Hsub'). exists d3. split; [done|].
    set_solver.
  - by rewrite Hd1 in Hd2.
Qed.

Lemma prunes_insert (s : state) (x : Var.t) (d d' : gset string) :
  domains s !! x = Some d → d' ⊆ d →
  prunes s (with_domains s (<[x := d']> (domains s))).
Proof.
  intros Hx Hsub. repeat split; try done. intros v. simpl.
  destruct (decide (x = v)) as [->|Hne].
  - rewrite Hx, lookup_insert_eq. eauto.
  - rewrite lookup_insert_ne by done. destruct (domains s !! v); eauto.
Qed.

Lemma domain_of_Ok (v : Var.t) (d : gset string) s s' :
  domain_of v s = Ok (d, s') ↔ domains s !! v = Some d ∧ s' = s.
Proof.
  unfold domain_of, gets, mbind, M_bind, mret, M_ret, raise.
  destruct (domains s !! v); naive_solver.
Qed.

Lemma domain_remove_Ok (v : Var.t) (w : string) s s' :
  domain_remove v w s = Ok (tt, s')
  ↔ ∃ d, domains s !! v = Some d ∧ w ∈ d
         ∧ s' = with_domains s (<[v := d ∖ {[ w ]}]> (domains s)).
Proof.
  unfold domain_remove. rewrite bind_Ok. setoid_rewrite domain_of_Ok.
  split.
  - intros (d & s1 & [Hd ->] & H). destruct (decide (w ∈ d)); [|done].
    exists d. repeat split; try done. by injection H as <-.
  - intros (d & Hd & Hw & ->). exists d, s. split; [done|].
    by rewrite decide_True.
Qed.

(** The loop of [revise], whatever the words and the overlap: either
    nothing changed, or the domain of [x] lost a word. *)
Lemma revise_words_prunes (x y : Var.t) (ix iy : nat) (ws : list string) :
  ∀ s (revised b : bool) s',
    foldM (fun revised x_word =>
             dy ← domain_of y;
             found ← any_match x_word ix iy (elements dy);
             if negb found then domain_remove x x_word;; mret true
             else mret revised) revised ws s = Ok (b, s') →
    (b = revised ∧ s' = s)
    ∨ (b = true
       ∧ ∃ d d' : gset string,
           domains s !! x = Some d ∧ d' ⊂ d
           ∧ s' = with_domains s (<[x := d']> (domains s))).
Proof.
  induction ws as [|w ws IH]; intros s revised b s' H; simpl in H.
  - injection H as <- <-. by left.
  - apply bind_Ok in H as (r1 & s1 & Hbody & H).
    apply bind_Ok in Hbody as (dy & s2 & [Hdy ->]%domain_of_Ok & Hbody).
    apply bind_Ok in Hbody as (found & s2 & Hfound & Hbody).
    apply read_only_any_match in Hfound as ->.
    destruct found; simpl in Hbody.
    + injection Hbody as <- <-. by apply IH.
    + apply bind_Ok in Hbody as ([] & s2 & Hrm & Hbody).
      injection Hbody as <- <-.
      apply domain_remove_Ok in Hrm as (d & Hd & Hw & ->).
      right. apply IH in H as [[-> ->]|(-> & d1 & d2 & Hd1 & Hsub & ->)].
      * split; [done|]. exists d, (d ∖ {[ w ]}). split; [done|].
        split; [set_solver|done].
      * split; [done|]. simpl in Hd1. rewrite lookup_insert_eq in Hd1.
        injection Hd1 as <-. exists d, d2. split; [done|].
        split; [set_solver|].
        unfold with_domains. simpl. by rewrite insert_insert_eq.
Qed.

Lemma revise_Ok (x y : Var.t) (b : bool) s s' :
  revise x y s = Ok (b, s') →
  (b = false ∧ s' = s)
  ∨ (b = true
     ∧ ∃ d d' : gset string,
         domains s !! x = Some d ∧ d' ⊂ d
         ∧ s' = with_domains s (<[x := d']> (domains s))).
Proof.
  unfold revise. intros H.
  apply bind_Ok in H as (o & s1 & [Ho ->]%overlap_of_Ok & H).
  destruct o as [[ix iy]|].
  - apply bind_Ok in H as (dx & s1 & [Hdx ->]%domain_of_Ok & H).
    by apply revise_words_prunes in H.
  - injection H as <- <-. by left.
Qed.

Lemma revise_prunes (x y : Var.t) (b : bool) s s' :
  revise x y s = Ok (b, s') → prunes s s'.
Proof.
  intros [[_ ->]|(_ & d & d' & Hd & Hsub & ->)]%revise_Ok.
  - apply prunes_refl.
  - eapply prunes_insert; [done|]. by apply strict_include.
Qed.

Lemma ac3_loop_prunes (fuel : nat) :
  ∀ arcs s b s', ac3_loop fuel arcs s = Ok (b, s') → prunes s s'.
Proof.
  induction fuel as [|fuel IH]; intros arcs s b s' H; simpl in H; [done|].
  destruct arcs as [|[x y] arcs].
  - injection H as _ <-. apply prunes_refl.
  - apply bind_Ok in H as (revised & s1 & Hrev & H).
    apply revise_prunes in Hrev. apply (prunes_trans _ _ _ Hrev).
    destruct revised; [|by eapply IH].
    apply bind_Ok in H as (dx & s2 & [Hdx ->]%domain_of_Ok & H).
    destruct (decide (dx = ∅)).
    + injection H as _ <-. apply prunes_refl.
    + apply bind_Ok in H as (ns & s2 & [_ ->]%neighbors_of_Ok & H).
      by eapply IH.
Qed.

Lemma all_arcs_read_only : read_only all_arcs.
Proof. unfold all_arcs. read_only. Qed.

Lemma ac3_prunes (fuel : nat) (arcs : option (list (Var.t * Var.t)))
    (b : bool) s s' :
  ac3 fuel arcs s = Ok (b, s') → prunes s s'.
Proof.
  unfold ac3. intros H. apply bind_Ok in H as (arcs' & s1 & Harcs & H).
  assert (s1 = s) as ->.
  { destruct arcs; [by injection Harcs as _ <-|].
    by apply all_arcs_read_only in Harcs. }
  by eapply ac3_loop_prunes.
Qed.

(** ** Soundness of the search *)

Lemma assignment_complete_Ok (a : loc) (b : bool) s s' :
  assignment_complete a s = Ok (b, s') →
  s' = s
  ∧ ∃ d, dicts s !! a = Some d ∧ (b = true ↔ complete (crossword s) d).
Proof.
  unfold assignment_complete. intros H.
  apply bind_Ok in H as (d & s1 & [Hd ->]%dict_of_Ok & H).
  injection H as <- <-. split; [done|]. exists d. split; [done|].
  rewrite forallb_forall. unfold complete.
  setoid_rewrite <- list_elem_of_In. setoid_rewrite elem_of_elements.
  by setoid_rewrite bool_decide_eq_true.
Qed.

Lemma try_values_sound (rec : loc → M (option loc)) (a : loc) (var : Var.t)
    (values : list string) :
  (∀ a' s r s', rec a' s = Ok (r, s') → frame s s') →
  (∀ a' s l s', rec a' s = Ok (Some l, s') →
     (∀ d, dicts s !! a' = Some d → consistent_assignment (crossword s) d) →
     ∃ d', dicts s' !! l = Some d' ∧ solution (crossword s) d') →
  ∀ s l s', try_values rec a var values s = Ok (Some l, s') →
    ∃ d', dicts s' !! l = Some d' ∧ solution (crossword s) d'.
Proof.
  intros Hframe Hrec. induction values as [|value values IH];
    intros s l s' H; simpl in H; [done|].
  apply bind_Ok in H as (l1 & s1 & Hcopy & H).
  apply bind_Ok in H as ([] & s2 & Hset & H).
  apply bind_Ok in H as (ok & s3 & Hok & H).
  pose proof (read_only_consistent _ _ _ _ Hok) as ->.
  destruct (extend_copy _ _ _ _ _ _ _ Hcopy Hset) as ((Hcw & _) & _).
  rewrite <- Hcw.
  destruct ok; [|by apply IH].
  apply consistent_true in Hok as (d1 & Hd1 & Hcons).
  apply bind_Ok in H as (res & s4 & Hres & H).
  destruct res as [r|].
  - injection H as <- <-. apply (Hrec _ _ _ _ Hres).
    intros d Hd. congruence.
  - apply Hframe in Hres as (Hcw' & _). rewrite <- Hcw'. by apply IH.
Qed.

Lemma backtrack_sound (fuel : nat) :
  ∀ a s l s', backtrack fuel a s = Ok (Some l, s') →
    (∀ d, dicts s !! a = Some d → consistent_assignment (crossword s) d) →
    ∃ d', dicts s' !! l = Some d' ∧ solution (crossword s) d'.
Proof.
  induction fuel as [|fuel IH]; intros a s l s' H Hpre; simpl in H; [done|].
  apply bind_Ok in H as ([] & s1 & Henter & H). injection Henter as <-.
  apply bind_Ok in H as (c & s2 & Hc & H).
  apply assignment_complete_Ok in Hc as (-> & d & Hd & Hcomplete).
  simpl in Hd, Hcomplete.
  destruct c.
  - injection H as <- <-. exists d. split; [done|]. split.
    + by apply Hcomplete.
    + by apply Hpre.
  - apply bind_Ok in H as (var & s2 & Hvar & H).
    apply read_only_select_unassigned_variable in Hvar as ->.
    apply bind_Ok in H as (values & s2 & Hvals & H).
    apply read_only_order_domain_values in Hvals as ->.
    apply (try_values_sound (backtrack fuel) a var values
             (backtrack_frame fuel) IH) in H.
    exact H.
Qed.

Lemma example_puzzle_built :
  Crossword_init Example.contents Example.vocabulary = Ok Example.puzzle.
Proof. vm_compute. reflexivity. Qed.

(** C1.  Whatever [solve()] returns as an assignment is a solution: it
    gives every variable of the crossword a word, no word twice, each word
    of its variable's length, and at every overlap of two variables the two
    words hold the same character.  (For any crossword, any vocabulary and
    any fuel.) *)
Theorem solve_returns_solution (cw : Crossword) (fuel : nat) (l : loc)
    (s' : state) :
  solve fuel (CrosswordCreator_init cw) = Ok (Some l, s') →
  ∃ d, dicts s' !! l = Some d
       ∧ complete cw d
       ∧ distinct_words d
       ∧ lengths_fit d
       ∧ overlaps_agree cw d.
Proof.
  unfold solve. intros H.
  apply bind_Ok in H as ([] & s1 & Hnode & H).
  destruct (node_consistency_run (CrosswordCreator_init cw))
    as (s1' & Hnode' & Hcw1 & _).
  rewrite Hnode' in Hnode. injection Hnode as ->. simpl in Hcw1.
  apply bind_Ok in H as (b & s2 & Hac3 & H).
  apply ac3_prunes in Hac3 as (Hcw2 & _).
  apply bind_Ok in H as (a & s3 & [-> ->]%dict_new_Ok & H).
  apply backtrack_sound in H.
  - simpl in H. rewrite Hcw2, Hcw1 in H.
    destruct H as (d & Hd & Hcomplete & Hcons). exists d.
    by destruct Hcons as (? & ? & ?).
  - simpl. intros d. rewrite lookup_insert_eq. intros [= <-].
    repeat split; intros ?; intros; by simplify_map_eq.
Qed.

Lemma solve_returns_solution_witness :
  let start := CrosswordCreator_init Example.puzzle in
  let out := returned (solve 4 start) (None, start) in
  solve 4 start = Ok (Some 4%positive, out.2)
  ∧ ∃ d, dicts out.2 !! 4%positive = Some d
         ∧ complete Example.puzzle d
         ∧ distinct_words d
         ∧ lengths_fit d
         ∧ overlaps_agree Example.puzzle d.
Proof.
  intros start out.
  assert (solve 4 start = Ok (Some 4%positive, out.2)) as Hrun
    by (vm_compute; reflexivity).
  split; [exact Hrun|].
  exact (solve_returns_solution Example.puzzle 4 _ _ Hrun).
Defined.

(** ** No out-of-range string access *)

Lemma safe_bind {A B : Type} (m : M A) (f : A → M B) s :
  safe m s → (∀ a s1, m s = Ok (a, s1) → safe (f a) s1) → safe (m ≫= f) s.
Proof.
  unfold safe, mbind, M_bind. intros Hm Hf.
  destruct (m s) as [[a s1]|e|]; [by apply Hf|congruence|done].
Qed.

Lemma safe_ret {A : Type} (a : A) s : safe (mret a) s.
Proof. done. Qed.

Lemma safe_gets {A : Type} (f : state → A) s : safe (gets f) s.
Proof. done. Qed.

Lemma safe_domain_of (v : Var.t) s : safe (domain_of v) s.
Proof.
  unfold safe, domain_of, gets, mbind, M_bind. by destruct (domains s !! v).
Qed.

Lemma safe_overlap_of (x y : Var.t) s : safe (overlap_of x y) s.
Proof.
  unfold safe, overlap_of, gets, mbind, M_bind.
  by destruct (overlaps (crossword s) !! (x, y)).
Qed.

Lemma safe_dict_of (a : loc) s : safe (dict_of a) s.
Proof.
  unfold safe, dict_of, gets, mbind, M_bind. by destruct (dicts s !! a).
Qed.

Lemma safe_subscript0 (o : option (nat * nat)) s : safe (subscript0 o) s.
Proof. unfold safe, subscript0. by destruct o as [[]|]. Qed.

Lemma safe_subscript1 (o : option (nat * nat)) s : safe (subscript1 o) s.
Proof. unfold safe, subscript1. by destruct o as [[]|]. Qed.

Lemma safe_str_index (w : string) (k : nat) s :
  k < String.length w → safe (str_index w k) s.
Proof.
  intros [c Hc]%string_get_lt. unfold safe, str_index. by rewrite Hc.
Qed.

Lemma safe_domain_remove (v : Var.t) (w : string) s :
  safe (domain_remove v w) s.
Proof.
  unfold domain_remove. apply safe_bind; [apply safe_domain_of|].
  intros d s1 _. by destruct (decide (w ∈ d)).
Qed.

Lemma neighbors_step_safe (cw : Crossword) (var v : Var.t)
    (acc : gset Var.t) :
  neighbors_step cw var acc v ≠ Raise IndexError.
Proof.
  unfold neighbors_step. destruct (decide (v ≠ var)); [|done].
  by destruct (overlaps cw !! (v, var)) as [[pq|]|].
Qed.

Lemma neighbors_loop_safe (cw : Crossword) (var : Var.t) (vs : list Var.t) :
  ∀ acc : gset Var.t,
    foldM (neighbors_step cw var) acc vs ≠ Raise IndexError.
Proof.
  induction vs as [|v vs IH]; intros acc; [done|].
  change (neighbors_step cw var acc v
            ≫= (fun acc' => foldM (neighbors_step cw var) acc' vs)
          ≠ Raise IndexError).
  pose proof (neighbors_step_safe cw var v acc) as Hstep.
  destruct (neighbors_step cw var acc v) as [acc'|e|]; [apply IH| |done].
  unfold mbind, result_bind. congruence.
Qed.

Lemma safe_neighbors_of (var : Var.t) s : safe (neighbors_of var) s.
Proof.
  unfold safe, neighbors_of, gets, lift, mbind, M_bind.
  pose proof (neighbors_loop_safe (crossword s) var
                (elements (variables (crossword s))) ∅) as H.
  unfold neighbors. destruct (foldM _ _ _); congruence.
Qed.

Lemma safe_foldM {A B : Type} (body : B → A → M B) (l : list A) s :
  (∀ acc x, read_only (body acc x)) →
  (∀ acc x, x ∈ l → safe (body acc x) s) →
  ∀ acc, safe (foldM body acc l) s.
Proof.
  intros Hro. induction l as [|x l IH]; intros Hsafe acc; simpl; [done|].
  apply safe_bind; [apply Hsafe; left|].
  intros acc' s1 ->%Hro. apply IH. intros acc'' y Hy. apply Hsafe. by right.
Qed.

Lemma safe_any_match (xw : string) (ix iy : nat) (ys : list string) s :
  ix < String.length xw →
  (∀ w', w' ∈ ys → iy < String.length w') →
  safe (any_match xw ix iy ys) s.
Proof.
  intros Hx Hys.
  destruct (any_match_run xw ix iy ys s Hx Hys) as (b & Hrun & _).
  unfold safe. by rewrite Hrun.
Qed.

(** The loop of [revise]: the words of [ws] reach position [ix], and
    those of the domain of [y] position [iy], also when [y] is [x]. *)
Lemma revise_words_safe (x y : Var.t) (ix iy : nat) (ws : list string) :
  ∀ s revised,
    (∀ w, w ∈ ws → ix < String.length w) →
    (∀ dy : gset string, domains s !! y = Some dy →
       ∀ w', w' ∈ dy → iy < String.length w') →
    safe (foldM (fun revised x_word =>
                   dy ← domain_of y;
                   found ← any_match x_word ix iy (elements dy);
                   if negb found then domain_remove x x_word;; mret true
                   else mret revised) revised ws) s.
Proof.
  induction ws as [|w ws IH]; intros s revised Hws Hy; simpl; [done|].
  apply safe_bind.
  - apply safe_bind; [apply safe_domain_of|].
    intros dy s1 [Hdy ->]%domain_of_Ok.
    apply safe_bind.
    + apply safe_any_match; [apply Hws; left|].
      intros w'. rewrite elem_of_elements. by apply Hy.
    + intros found s1 ->%read_only_any_match.
      destruct found; simpl; [done|].
      apply safe_bind; [apply safe_domain_remove|done].
  - intros r s1 Hbody.
    apply bind_Ok in Hbody as (dy & s2 & [Hdy ->]%domain_of_Ok & Hbody).
    apply bind_Ok in Hbody as (found & s2 & Hfound & Hbody).
    apply read_only_any_match in Hfound as ->.
    assert (∀ w0, w0 ∈ ws → ix < String.length w0) as Hws'.
    { intros w0 Hw0. apply Hws. by right. }
    destruct found; simpl in Hbody.
    + injection Hbody as <- <-. by apply IH.
    + apply bind_Ok in Hbody as ([] & s2 & Hrm & Hbody).
      injection Hbody as <- <-.
      apply domain_remove_Ok in Hrm as (d & Hd & Hw & ->).
      apply IH; [done|]. simpl. intros dy'.
      destruct (decide (x = y)) as [->|Hne].
      * rewrite lookup_insert_eq. intros [= <-] w' Hw'.
        apply (Hy d Hd). set_solver.
      * rewrite lookup_insert_ne by done. apply Hy.
Qed.

Lemma revise_safe (x y : Var.t) s :
  node_consistent s → overlaps_in_range (crossword s) → safe (revise x y) s.
Proof.
  intros Hnode Hrange. unfold revise.
  apply safe_bind; [apply safe_overlap_of|].
  intros o s1 [Ho ->]%overlap_of_Ok. destruct o as [[ix iy]|]; [|done].
  apply Hrange in Ho as [Hix Hiy].
  apply safe_bind; [apply safe_domain_of|].
  intros dx s1 [Hdx ->]%domain_of_Ok.
  apply revise_words_safe.
  - intros w Hw%elem_of_elements. by rewrite (Hnode x dx w).
  - intros dy Hdy w' Hw'. by rewrite (Hnode y dy w').
Qed.

Lemma count_conflicts_safe (var : Var.t) (d : gmap Var.t string)
    (value : string) s :
  node_consistent s → overlaps_in_range (crossword s) →
  String.length value = Var.length var →
  safe (count_conflicts var d value) s.
Proof.
  intros Hnode Hrange Hvalue. unfold count_conflicts.
  apply safe_bind; [apply safe_neighbors_of|].
  intros ns s1 [_ ->]%neighbors_of_Ok.
  apply safe_foldM; [intros; read_only|].
  intros count n _. destruct (decide (d !! n = None)); [|done].
  apply safe_bind; [apply safe_overlap_of|].
  intros o s1 [Ho ->]%overlap_of_Ok.
  apply safe_bind; [apply safe_domain_of|].
  intros dn s1 [Hdn ->]%domain_of_Ok.
  apply safe_bind; [|done].
  apply safe_foldM; [intros; read_only|].
  intros k word Hword%elem_of_elements.
  apply safe_bind; [apply safe_subscript1|].
  intros o1 s1 [[o0 ->] ->]%subscript1_Ok.
  apply Hrange in Ho as [H0 H1].
  apply safe_bind; [apply safe_str_index; by rewrite (Hnode n dn word)|].
  intros a s1 [_ ->]%str_index_Ok.
  apply safe_bind; [apply safe_subscript0|].
  intros o0' s1 [[o1' [= <- <-]] ->]%subscript0_Ok.
  apply safe_bind; [apply safe_str_index; by rewrite Hvalue|done].
Qed.

Lemma order_domain_values_safe (var : Var.t) (a : loc) s :
  node_consistent s → overlaps_in_range (crossword s) →
  safe (order_domain_values var a) s.
Proof.
  intros Hnode Hrange. unfold order_domain_values.
  apply safe_bind; [apply safe_dict_of|].
  intros d s1 [_ ->]%dict_of_Ok.
  apply safe_bind; [apply safe_domain_of|].
  intros dv s1 [Hdv ->]%domain_of_Ok.
  apply safe_bind; [|done].
  apply safe_foldM; [intros; read_only|].
  intros keyed value Hvalue%elem_of_elements.
  apply safe_bind; [|done].
  apply count_conflicts_safe; [done..|]. by apply (Hnode var dv).
Qed.

Lemma check_neighbors_safe (d : gmap Var.t string) (v : Var.t)
    (value : string) (ns : list Var.t) s :
  lengths_fit d → overlaps_in_range (crossword s) →
  String.length value = Var.length v →
  safe (check_neighbors d v value ns) s.
Proof.
  intros Hfit Hrange Hvalue. induction ns as [|n ns IH]; simpl; [done|].
  destruct (d !! n) as [nw|] eqn:Hn; [|done].
  apply safe_bind; [apply safe_overlap_of|].
  intros o s1 [Ho ->]%overlap_of_Ok.
  apply safe_bind; [apply safe_subscript0|].
  intros o0 s1 [[o1 ->] ->]%subscript0_Ok.
  apply Hrange in Ho as [H0 H1].
  apply safe_bind; [apply safe_str_index; by rewrite Hvalue|].
  intros c s1 [_ ->]%str_index_Ok.
  apply safe_bind; [apply safe_subscript1|].
  intros o1' s1 [[o0' [= <- <-]] ->]%subscript1_Ok.
  apply safe_bind; [apply safe_str_index; by rewrite (Hfit n nw)|].
  intros c' s1 [_ ->]%str_index_Ok.
  by destruct (decide (c ≠ c')).
Qed.

Lemma check_items_safe (d : gmap Var.t string)
    (items : list (Var.t * string)) s :
  lengths_fit d → overlaps_in_range (crossword s) →
  safe (check_items d items) s.
Proof.
  intros Hfit Hrange. induction items as [|[v w] items IH]; simpl; [done|].
  destruct (decide (Var.length v ≠ String.length w)) as [|Hlen]; [done|].
  apply dec_stable in Hlen.
  apply safe_bind; [apply safe_neighbors_of|].
  intros ns s1 [_ ->]%neighbors_of_Ok.
  apply safe_bind; [by apply check_neighbors_safe|].
  intros ok s1 ->%read_only_check_neighbors. by destruct ok.
Qed.

Lemma consistent_safe (a : loc) s :
  (∀ d, dicts s !! a = Some d → lengths_fit d) →
  overlaps_in_range (crossword s) →
  safe (consistent a) s.
Proof.
  intros Hfit Hrange. unfold consistent.
  apply safe_bind; [apply safe_dict_of|].
  intros d s1 [Hd ->]%dict_of_Ok.
  destruct (decide (_ < _)); [done|].
  apply check_items_safe; [by apply Hfit|done].
Qed.

(** C10.  When every word of every domain has the length of its variable,
    every assigned word has the length of its variable, and every recorded
    overlap [(ix, iy)] of a pair of variables has [ix] below the length of
    the first and [iy] below the length of the second, none of [revise],
    [order_domain_values] and [consistent] ends in an out-of-range string
    access (an [IndexError]). *)
Theorem indexing_in_bounds (s : state) (x y var : Var.t) (a : loc) :
  node_consistent s →
  (∀ d, dicts s !! a = Some d → lengths_fit d) →
  overlaps_in_range (crossword s) →
  revise x y s ≠ Raise IndexError
  ∧ order_domain_values var a s ≠ Raise IndexError
  ∧ consistent a s ≠ Raise IndexError.
Proof.
  intros Hnode Hfit Hrange. split; [|split].
  - by apply revise_safe.
  - by apply order_domain_values_safe.
  - by apply consistent_safe.
Qed.

(** ** The example puzzle satisfies the preconditions *)

Lemma example_node_consistent : node_consistent Example.searching.
Proof.
  intros v d w Hv Hw. unfold Example.searching in Hv. cbn [domains] in Hv.
  apply lookup_insert_Some in Hv as [[<- <-]|[_ Hv]].
  - set_unfold in Hw. by destruct Hw as [[->| ->]| ->].
  - apply lookup_singleton_Some in Hv as [<- <-].
    set_unfold in Hw. by destruct Hw as [->| ->].
Qed.

Lemma example_overlaps_in_range : overlaps_in_range Example.puzzle.
Proof.
  intros x y ix iy Ho. unfold Example.puzzle in Ho. cbn [overlaps] in Ho.
  apply lookup_insert_Some in Ho as [[[= <- <-] [= <- <-]]|[_ Ho]].
  - cbn. lia.
  - apply lookup_singleton_Some in Ho as [[= <- <-] [= <- <-]]. cbn. lia.
Qed.

Lemma example_dict_fits :
  ∀ d, dicts Example.searching !! 1%positive = Some d → lengths_fit d.
Proof.
  intros d Hd. unfold Example.searching in Hd. cbn [dicts] in Hd.
  apply lookup_singleton_Some in Hd as [_ <-].
  intros v w Hv. by rewrite lookup_empty in Hv.
Qed.

Lemma indexing_in_bounds_witness :
  revise Example.across Example.down Example.searching ≠ Raise IndexError
  ∧ order_domain_values Example.across 1 Example.searching
    ≠ Raise IndexError
  ∧ consistent 1 Example.searching ≠ Raise IndexError.
Proof.
  exact (indexing_in_bounds Example.searching Example.across Example.down
           Example.across 1 example_node_consistent example_dict_fits
           example_overlaps_in_range).
Defined.

Lemma search_preserves_state_witness :
  let out :=
    returned (backtrack 3 1 Example.searching) (None, Example.searching) in
  backtrack 3 1 Example.searching = Ok (out.1, out.2)
  ∧ domains out.2 = domains Example.searching
  ∧ crossword out.2 = crossword Example.searching
  ∧ dicts out.2 !! 1%positive = dicts Example.searching !! 1%positive.
Proof.
  intros out.
  assert (backtrack 3 1 Example.searching = Ok (out.1, out.2)) as Hrun
    by (vm_compute; reflexivity).
  split; [exact Hrun|].
  destruct (search_preserves_state 3 1 Example.across Example.searching)
    as [Hback _].
  destruct (Hback _ _ Hrun) as (Hd & Hc & Ha & _).
  exact (conj Hd (conj Hc Ha)).
Defined.

(** ** The scan of the grid *)

Lemma elem_of_guarded_add (c1 c2 : bool) (V : gset Var.t) (x v : Var.t) :
  v ∈ (if c1 then if c2 then V ∪ {[ x ]} else V else V)
  ↔ v ∈ V ∨ (c1 = true ∧ c2 = true ∧ v = x).
Proof.
  destruct c1, c2; rewrite ?elem_of_union, ?elem_of_singleton; naive_solver.
Qed.

Lemma starts_word_true (c c' : bool) (k : nat) :
  c && (bool_decide (k = 0) || negb c') = true
  ↔ c = true ∧ (k = 0 ∨ c' = false).
Proof.
  rewrite andb_true_iff, orb_true_iff, bool_decide_eq_true, negb_true_iff.
  done.
Qed.

Lemma scan_cell_spec (st : list (list bool)) (h w i j : nat)
    (V : gset Var.t) (v : Var.t) :
  v ∈ scan_cell st h w i j V
  ↔ v ∈ V ∨ down_at st h i j v ∨ across_at st w i j v.
Proof.
  unfold scan_cell, down_at, across_at. cbv zeta.
  rewrite !elem_of_guarded_add, !starts_word_true, !bool_decide_eq_true.
  tauto.
Qed.

Lemma scan_row_spec (st : list (list bool)) (h w i : nat) (js : list nat) :
  ∀ (V : gset Var.t) (v : Var.t),
    v ∈ foldl (fun V j => scan_cell st h w i j V) V js
    ↔ v ∈ V ∨ ∃ j, j ∈ js ∧ (down_at st h i j v ∨ across_at st w i j v).
Proof.
  induction js as [|j js IH]; intros V v; simpl.
  - split; [by left|]. intros [?|(j & Hj & _)]; [done|].
    by apply elem_of_nil in Hj.
  - rewrite IH, scan_cell_spec. split.
    + intros [[?|?]|(j' & Hj' & ?)]; [by left| |].
      * right. exists j. split; [left|done].
      * right. exists j'. split; [by right|done].
    + intros [?|(j' & [->|Hj']%elem_of_cons & ?)].
      * by left; left.
      * by left; right.
      * right. by exists j'.
Qed.

Lemma scan_rows_spec (st : list (list bool)) (h w : nat) (rows : list nat) :
  ∀ (V : gset Var.t) (v : Var.t),
    v ∈ foldl (fun V i => foldl (fun V j => scan_cell st h w i j V) V
                            (range 0 w)) V rows
    ↔ v ∈ V
      ∨ ∃ i j, i ∈ rows ∧ j < w
               ∧ (down_at st h i j v ∨ across_at st w i j v).
Proof.
  induction rows as [|i rows IH]; intros V v; simpl.
  - split; [by left|]. intros [?|(i & j & Hi & _)]; [done|].
    by apply elem_of_nil in Hi.
  - rewrite IH, scan_row_spec. unfold range.
    setoid_rewrite elem_of_seq. split.
    + intros [[?|(j & Hj & ?)]|(i' & j & Hi' & ?)]; [by left| |].
      * right. exists i, j. split; [left|]. split; [lia|done].
      * right. exists i', j. split; [by right|done].
    + intros [?|(i' & j & [->|Hi']%elem_of_cons & Hj & ?)].
      * by left; left.
      * left; right. exists j. split; [lia|done].
      * right. by exists i', j.
Qed.

Lemma scan_spec (st : list (list bool)) (h w : nat) (v : Var.t) :
  v ∈ scan st h w
  ↔ ∃ i j, i < h ∧ j < w ∧ (down_at st h i j v ∨ across_at st w i j v).
Proof.
  unfold scan. rewrite scan_rows_spec. unfold range.
  setoid_rewrite elem_of_seq. split.
  - intros [Hv|(i & j & Hi & ?)]; [by apply elem_of_empty in Hv|].
    exists i, j. split; [lia|done].
  - intros (i & j & Hi & ?). right. exists i, j. split; [lia|done].
Qed.

(** The cells counted by [run_length] are filled. *)
Lemma run_length_filled (filled : nat → bool) (ks : list nat) :
  ∀ len n,
    len ≤ run_length filled ks len
    ∧ (n + len < run_length filled ks len →
       ∃ k, ks !! n = Some k ∧ filled k = true).
Proof.
  induction ks as [|k ks IH]; intros len n; simpl.
  - split; [lia|]. lia.
  - destruct (filled k) eqn:Hk; [|split; lia].
    split; [destruct (IH (len + 1) 0); lia|].
    intros Hn. destruct n as [|n]; [by exists k|].
    simpl. destruct (IH (len + 1) n) as [_ Hrun]. apply Hrun. lia.
Qed.

Lemma run_length_range (filled : nat → bool) (a b k : nat) :
  a ≤ k → k < a + (run_length filled (range a b) 1 - 1) →
  filled k = true.
Proof.
  intros Ha Hk.
  destruct (run_length_filled filled (range a b) 1 (k - a)) as [_ Hrun].
  destruct Hrun as (k' & Hk' & Hfilled); [lia|].
  unfold range in Hk'. apply lookup_seq in Hk' as [-> _].
  by replace (a + (k - a)) with k in Hfilled by lia.
Qed.

Lemma elem_of_cells_down (i j : Z) (L : nat) (c : Z * Z) :
  c ∈ Var.cells (Var.init i j Var.DOWN L)
  ↔ ∃ k, k < L ∧ c = ((i + Z.of_nat k)%Z, j).
Proof.
  rewrite elem_of_cells. unfold cell_at, Var.offset. simpl.
  split; intros (k & Hk & ->); exists k; (split; [done|]); f_equal; lia.
Qed.

Lemma elem_of_cells_across (i j : Z) (L : nat) (c : Z * Z) :
  c ∈ Var.cells (Var.init i j Var.ACROSS L)
  ↔ ∃ k, k < L ∧ c = (i, (j + Z.of_nat k)%Z).
Proof.
  rewrite elem_of_cells. unfold cell_at, Var.offset. simpl.
  split; intros (k & Hk & ->); exists k; (split; [done|]); f_equal; lia.
Qed.

(** Every cell of a scanned vertical word is filled. *)
Lemma down_at_filled (st : list (list bool)) (h i j : nat) (v : Var.t)
    (r : nat) :
  down_at st h i j v → i ≤ r → r < i + Var.length v → cell st r j = true.
Proof.
  intros (Hc & _ & _ & ->) Hi Hr. simpl in Hr.
  destruct (decide (r = i)) as [->|Hne]; [done|].
  apply (run_length_range (fun k => cell st k j) (i + 1) h); lia.
Qed.

Lemma across_at_filled (st : list (list bool)) (w i j : nat) (v : Var.t)
    (r : nat) :
  across_at st w i j v → j ≤ r → r < j + Var.length v → cell st i r = true.
Proof.
  intros (Hc & _ & _ & ->) Hj Hr. simpl in Hr.
  destruct (decide (r = j)) as [->|Hne]; [done|].
  apply (run_length_range (fun k => cell st i k) (j + 1) w); lia.
Qed.

(** Two vertical words of the scan that share a cell are the same word:
    the lower one could not start below a filled cell. *)
Lemma down_down_disjoint (st : list (list bool)) (h i1 j1 i2 j2 : nat)
    (v1 v2 : Var.t) (c : Z * Z) :
  down_at st h i1 j1 v1 → down_at st h i2 j2 v2 →
  c ∈ Var.cells v1 → c ∈ Var.cells v2 → v1 = v2.
Proof.
  intros H1 H2 Hc1 Hc2.
  pose proof H1 as (_ & Hs1 & _ & E1). pose proof H2 as (_ & Hs2 & _ & E2).
  rewrite E1 in Hc1. rewrite E2 in Hc2.
  apply elem_of_cells_down in Hc1 as (k1 & Hk1 & ->).
  apply elem_of_cells_down in Hc2 as (k2 & Hk2 & [= Hrow Hcol]).
  assert (j1 = j2) as -> by lia.
  destruct (decide (i1 = i2)) as [->|Hne]; [congruence|]. exfalso.
  destruct (decide (i1 < i2)).
  - assert (cell st (i2 - 1) j2 = true) as Hfilled.
    { apply (down_at_filled st h i1 j2 v1); [done|lia|].
      rewrite E1. simpl. lia. }
    destruct Hs2 as [?|Hs2]; [lia|congruence].
  - assert (cell st (i1 - 1) j2 = true) as Hfilled.
    { apply (down_at_filled st h i2 j2 v2); [done|lia|].
      rewrite E2. simpl. lia. }
    destruct Hs1 as [?|Hs1]; [lia|congruence].
Qed.

Lemma across_across_disjoint (st : list (list bool)) (w i1 j1 i2 j2 : nat)
    (v1 v2 : Var.t) (c : Z * Z) :
  across_at st w i1 j1 v1 → across_at st w i2 j2 v2 →
  c ∈ Var.cells v1 → c ∈ Var.cells v2 → v1 = v2.
Proof.
  intros H1 H2 Hc1 Hc2.
  pose proof H1 as (_ & Hs1 & _ & E1). pose proof H2 as (_ & Hs2 & _ & E2).
  rewrite E1 in Hc1. rewrite E2 in Hc2.
  apply elem_of_cells_across in Hc1 as (k1 & Hk1 & ->).
  apply elem_of_cells_across in Hc2 as (k2 & Hk2 & [= Hrow Hcol]).
  assert (i1 = i2) as -> by lia.
  destruct (decide (j1 = j2)) as [->|Hne]; [congruence|]. exfalso.
  destruct (decide (j1 < j2)).
  - assert (cell st i2 (j2 - 1) = true) as Hfilled.
    { apply (across_at_filled st w i2 j1 v1); [done|lia|].
      rewrite E1. simpl. lia. }
    destruct Hs2 as [?|Hs2]; [lia|congruence].
  - assert (cell st i2 (j1 - 1) = true) as Hfilled.
    { apply (across_at_filled st w i2 j2 v2); [done|lia|].
      rewrite E2. simpl. lia. }
    destruct Hs1 as [?|Hs1]; [lia|congruence].
Qed.

(** A horizontal and a vertical word share at most the cell at the row
    of the first and the column of the second. *)
Lemma across_down_cell (st : list (list bool)) (h w i1 j1 i2 j2 : nat)
    (v1 v2 : Var.t) (c : Z * Z) :
  across_at st w i1 j1 v1 → down_at st h i2 j2 v2 →
  c ∈ Var.cells v1 → c ∈ Var.cells v2 →
  c = (Z.of_nat i1, Z.of_nat j2).
Proof.
  intros (_ & _ & _ & ->) (_ & _ & _ & ->) Hc1 Hc2.
  apply elem_of_cells_across in Hc1 as (k1 & Hk1 & ->).
  apply elem_of_cells_down in Hc2 as (k2 & Hk2 & [= Hrow Hcol]).
  f_equal. lia.
Qed.

(** Two distinct variables of a scanned grid share at most one cell. *)
Lemma scan_shared_cell_unique (st : list (list bool)) (h w : nat)
    (v1 v2 : Var.t) (c c' : Z * Z) :
  v1 ∈ scan st h w → v2 ∈ scan st h w → v1 ≠ v2 →
  c ∈ Var.cells v1 → c ∈ Var.cells v2 →
  c' ∈ Var.cells v1 → c' ∈ Var.cells v2 →
  c = c'.
Proof.
  intros (i1 & j1 & _ & _ & H1)%scan_spec (i2 & j2 & _ & _ & H2)%scan_spec
    Hne Hc1 Hc2 Hc1' Hc2'.
  destruct H1 as [H1|H1], H2 as [H2|H2].
  - destruct Hne. by eapply down_down_disjoint.
  - rewrite (across_down_cell _ _ _ _ _ _ _ _ _ c H2 H1) by done.
    by rewrite (across_down_cell _ _ _ _ _ _ _ _ _ c' H2 H1).
  - rewrite (across_down_cell _ _ _ _ _ _ _ _ _ c H1 H2) by done.
    by rewrite (across_down_cell _ _ _ _ _ _ _ _ _ c' H1 H2).
  - destruct Hne. by eapply across_across_disjoint.
Qed.

(** ** The overlap table *)

Lemma index_from_spec {A : Type} `{EqDecision A} (l : list A) (x : A) :
  ∀ k0, x ∈ l →
    ∃ n, index_from l x k0 = Ok (k0 + n) ∧ first_index l x n.
Proof.
  induction l as [|y l IH]; intros k0 Hx.
  - by apply elem_of_nil in Hx.
  - simpl. destruct (decide (y = x)) as [->|Hne].
    + exists 0. split; [f_equal; lia|]. split; [done|]. intros m Hm. lia.
    + apply elem_of_cons in Hx as [->|Hx]; [done|].
      destruct (IH (S k0) Hx) as (n & Hrun & Hn & Hfirst).
      exists (S n). split; [rewrite Hrun; f_equal; lia|]. split; [done|].
      intros [|m] Hm; simpl; [congruence|]. apply Hfirst. lia.
Qed.

Lemma py_index_spec {A : Type} `{EqDecision A} (l : list A) (x : A) :
  x ∈ l → ∃ n, py_index l x = Ok n ∧ first_index l x n.
Proof. intros Hx. apply (index_from_spec l x 0 Hx). Qed.

Lemma first_index_unique {A : Type} (l : list A) (x : A) (k1 k2 : nat) :
  first_index l x k1 → first_index l x k2 → k1 = k2.
Proof.
  intros [H1 F1] [H2 F2].
  destruct (lt_eq_lt_dec k1 k2) as [[Hlt| ->]|Hlt]; [|done|].
  - by destruct (F2 k1 Hlt).
  - by destruct (F1 k2 Hlt).
Qed.

Lemma set_pop_spec {A : Type} `{Countable A} (s : gset A) :
  s ≠ ∅ → ∃ x, set_pop s = Ok x ∧ x ∈ s.
Proof.
  intros Hs. unfold set_pop. destruct (elements s) as [|x l] eqn:Hl.
  - by apply elements_empty_inv, leibniz_equiv in Hl.
  - exists x. split; [done|]. apply elem_of_elements. rewrite Hl. left.
Qed.

(** The computation of an entry never fails: it is [None] when the two
    cell sequences are disjoint, and otherwise the first positions, in
    the two sequences, of one shared cell. *)
Lemma overlap_entry_total (v1 v2 : Var.t) :
  overlap_entry v1 v2 = Ok (overlap v1 v2)
  ∧ match overlap v1 v2 with
    | None => ∀ c, c ∈ Var.cells v1 → c ∉ Var.cells v2
    | Some (a, b) =>
        ∃ c, first_index (Var.cells v1) c a ∧ first_index (Var.cells v2) c b
    end.
Proof.
  unfold overlap, overlap_entry.
  destruct (decide (_ = ∅)) as [Hempty|Hne].
  - split; [done|]. simpl. intros c Hc1 Hc2.
    assert (c ∈ (∅ : gset (Z * Z))) as Hc; [|by apply elem_of_empty in Hc].
    rewrite <- Hempty, elem_of_intersection, !elem_of_list_to_set. done.
  - destruct (set_pop_spec _ Hne) as (c & -> & Hc).
    rewrite elem_of_intersection, !elem_of_list_to_set in Hc.
    destruct Hc as [Hc1 Hc2].
    destruct (py_index_spec _ _ Hc1) as (a & Ha & Hfa).
    destruct (py_index_spec _ _ Hc2) as (b & Hb & Hfb).
    simpl. rewrite Ha. simpl. rewrite Hb. simpl. split; [done|].
    by exists c.
Qed.

Lemma overlaps_row_spec (v1 : Var.t) (vs : list Var.t) :
  ∀ m0 : gmap (Var.t * Var.t) (option (nat * nat)),
    ∃ m, overlaps_row v1 vs m0 = Ok m
         ∧ ∀ x y, m !! (x, y)
                  = if decide (x = v1 ∧ y ∈ vs ∧ x ≠ y)
                    then Some (overlap x y)
                    else m0 !! (x, y).
Proof.
  unfold overlaps_row. induction vs as [|v2 vs IH]; intros m0.
  - exists m0. split; [done|]. intros x y.
    rewrite decide_False; [done|]. rewrite elem_of_nil. tauto.
  - simpl. destruct (decide (v1 = v2)) as [<-|Hne].
    + destruct (IH m0) as (m & Hrun & Hm). exists m. split; [done|].
      intros x y. rewrite Hm.
      destruct (decide (x = v1 ∧ y ∈ vs ∧ x ≠ y)) as [Hd|Hd].
      * rewrite decide_True; [done|]. rewrite elem_of_cons. tauto.
      * rewrite decide_False; [done|]. rewrite elem_of_cons.
        intros (-> & [->|?] & ?); [done|]. apply Hd. done.
    + destruct (overlap_entry_total v1 v2) as [-> _]. simpl.
      destruct (IH (<[(v1, v2) := overlap v1 v2]> m0)) as (m & Hrun & Hm).
      exists m. split; [done|]. intros x y. rewrite Hm.
      destruct (decide (x = v1 ∧ y ∈ vs ∧ x ≠ y)) as [Hd|Hd].
      * rewrite decide_True; [done|]. rewrite elem_of_cons. tauto.
      * destruct (decide ((v1, v2) = (x, y))) as [[= <- <-]|Hkey].
        -- rewrite lookup_insert_eq. rewrite decide_True; [done|].
           split; [done|]. split; [left|done].
        -- rewrite lookup_insert_ne by done.
           rewrite decide_False; [done|]. rewrite elem_of_cons.
           intros (-> & [->|?] & ?); [done|]. apply Hd. done.
Qed.

Lemma compute_overlaps_loop (vs : list Var.t) (vs1 : list Var.t) :
  ∀ m0 : gmap (Var.t * Var.t) (option (nat * nat)),
    ∃ m, foldM (fun overlaps v1 => overlaps_row v1 vs overlaps) m0 vs1 = Ok m
         ∧ ∀ x y, m !! (x, y)
                  = if decide (x ∈ vs1 ∧ y ∈ vs ∧ x ≠ y)
                    then Some (overlap x y)
                    else m0 !! (x, y).
Proof.
  induction vs1 as [|v1 vs1 IH]; intros m0.
  - exists m0. split; [done|]. intros x y.
    rewrite decide_False; [done|]. rewrite elem_of_nil. tauto.
  - simpl. destruct (overlaps_row_spec v1 vs m0) as (m1 & -> & Hm1). simpl.
    destruct (IH m1) as (m & Hrun & Hm). exists m. split; [done|].
    intros x y. rewrite Hm, Hm1.
    destruct (decide (x ∈ vs1 ∧ y ∈ vs ∧ x ≠ y)) as [Hd|Hd].
    + rewrite decide_True; [done|]. rewrite elem_of_cons. tauto.
    + destruct (decide (x = v1 ∧ y ∈ vs ∧ x ≠ y)) as [Hd1|Hd1].
      * rewrite decide_True; [done|]. rewrite elem_of_cons. tauto.
      * rewrite decide_False; [done|]. rewrite elem_of_cons.
        intros ([->|?] & ? & ?); tauto.
Qed.

Lemma compute_overlaps_spec (V : gset Var.t) :
  ∃ m, compute_overlaps V = Ok m
       ∧ ∀ x y, m !! (x, y)
                = if decide (x ∈ V ∧ y ∈ V ∧ x ≠ y)
                  then Some (overlap x y)
                  else None.
Proof.
  destruct (compute_overlaps_loop (elements V) (elements V) ∅)
    as (m & Hrun & Hm).
  exists m. split; [done|]. intros x y. rewrite Hm, lookup_empty.
  destruct (decide (x ∈ V ∧ y ∈ V ∧ x ≠ y)) as [Hd|Hd].
  - rewrite decide_True; [done|]. by rewrite !elem_of_elements.
  - rewrite decide_False; [done|]. by rewrite !elem_of_elements.
Qed.

(** ** Crossword.__init__ *)

Lemma Crossword_init_Ok (contents : list string) (vocabulary : gset string)
    (cw : Crossword) :
  Crossword_init contents vocabulary = Ok cw →
  contents ≠ []
  ∧ height cw = List.length contents
  ∧ structure cw = build_structure contents (height cw) (width cw)
  ∧ words cw = vocabulary
  ∧ variables cw = scan (structure cw) (height cw) (width cw)
  ∧ ∀ x y, overlaps cw !! (x, y)
           = if decide (x ∈ variables cw ∧ y ∈ variables cw ∧ x ≠ y)
             then Some (overlap x y)
             else None.
Proof.
  unfold Crossword_init. intros H.
  apply result_bind_Ok in H as (w & Hw & H).
  apply result_bind_Ok in H as (m & Hm & H).
  injection H as <-. simpl.
  destruct (compute_overlaps_spec
              (scan (build_structure contents (List.length contents) w)
                 (List.length contents) w)) as (m' & Hm' & Hlook).
  rewrite Hm' in Hm. injection Hm as ->.
  split; [|done]. intros ->. done.
Qed.

(** C6.  In a crossword built from a structure, for two distinct variables
    [A] and [B] the table has an entry for both ordered pairs; the one is
    [None] exactly when the other is, and the one is [(p, q)] exactly when
    the other is [(q, p)]. *)
Theorem overlaps_symmetric (contents : list string)
    (vocabulary : gset string) (cw : Crossword) (A B : Var.t) :
  Crossword_init contents vocabulary = Ok cw →
  A ∈ variables cw → B ∈ variables cw → A ≠ B →
  ∃ oAB oBA,
    overlaps cw !! (A, B) = Some oAB
    ∧ overlaps cw !! (B, A) = Some oBA
    ∧ (oAB = None ↔ oBA = None)
    ∧ ∀ p q, oAB = Some (p, q) ↔ oBA = Some (q, p).
Proof.
  intros (_ & _ & _ & _ & Hvars & Hlook)%Crossword_init_Ok HA HB Hne.
  exists (overlap A B), (overlap B A).
  rewrite !Hlook, !decide_True by done. split; [done|]. split; [done|].
  assert (∀ c c', c ∈ Var.cells A → c ∈ Var.cells B →
                  c' ∈ Var.cells A → c' ∈ Var.cells B → c = c') as Huniq.
  { intros c c'. rewrite Hvars in HA, HB.
    by apply (scan_shared_cell_unique (structure cw) (height cw) (width cw)
                A B). }
  destruct (overlap_entry_total A B) as [_ HAB].
  destruct (overlap_entry_total B A) as [_ HBA].
  destruct (overlap A B) as [[p q]|], (overlap B A) as [[q' p']|].
  - destruct HAB as (c & [Hc1 F1] & [Hc2 F2]).
    destruct HBA as (c' & [Hc1' F1'] & [Hc2' F2']).
    assert (c = c') as <-.
    { apply Huniq; by eapply list_elem_of_lookup_2. }
    assert (q' = q) as -> by (by apply (first_index_unique (Var.cells B) c)).
    assert (p' = p) as -> by (by apply (first_index_unique (Var.cells A) c)).
    split; [done|]. intros p0 q0. split; intros [= -> ->]; done.
  - exfalso. destruct HAB as (c & [Hc1 _] & [Hc2 _]).
    apply (HBA c); by eapply list_elem_of_lookup_2.
  - exfalso. destruct HBA as (c & [Hc1 _] & [Hc2 _]).
    apply (HAB c); by eapply list_elem_of_lookup_2.
  - split; [done|]. intros p q. split; intros [=].
Qed.

Lemma overlaps_symmetric_witness :
  ∃ oAB oBA,
    overlaps Example.puzzle !! (Example.across, Example.down) = Some oAB
    ∧ overlaps Example.puzzle !! (Example.down, Example.across) = Some oBA
    ∧ (oAB = None ↔ oBA = None)
    ∧ ∀ p q, oAB = Some (p, q) ↔ oBA = Some (q, p).
Proof.
  apply (overlaps_symmetric Example.contents Example.vocabulary
           Example.puzzle Example.across Example.down example_puzzle_built).
  - vm_compute. reflexivity.
  - vm_compute. reflexivity.
  - discriminate.
Defined.

(** ** ac3 *)

Lemma ac3_loop_spec (fuel : nat) :
  ∀ arcs s b s', ac3_loop fuel arcs s = Ok (b, s') → ac3_spec arcs s b s'.
Proof.
  induction fuel as [|fuel IH]; intros arcs s b s' H; simpl in H; [done|].
  destruct arcs as [|[x y] arcs].
  - injection H as <- <-. constructor.
  - apply bind_Ok in H as (revised & s1 & Hrev & H).
    destruct revised; [|by eapply ac3_spec_unchanged; eauto].
    apply bind_Ok in H as (dx & s2 & [Hdx ->]%domain_of_Ok & H).
    destruct (decide (dx = ∅)) as [->|Hne].
    + injection H as <- <-. by eapply ac3_spec_failure.
    + apply bind_Ok in H as (ns & s2 & [Hns ->]%neighbors_of_Ok & H).
      eapply ac3_spec_requeue; eauto.
Qed.

(** The initial worklist, on the variables [xs] still to visit. *)
Lemma all_arcs_loop (xs : list Var.t) s :
  ∀ arcs0 arcs s',
    foldM (fun arcs x =>
             ns ← neighbors_of x;
             mret (arcs ++ ((fun y => (x, y)) <$> elements ns)))
      arcs0 xs s = Ok (arcs, s') →
    s' = s
    ∧ ∃ tail,
        arcs = arcs0 ++ tail
        ∧ (∀ x y, (x, y) ∈ tail
                  ↔ x ∈ xs ∧ ∃ ns, neighbors (crossword s) x = Ok ns ∧ y ∈ ns)
        ∧ (NoDup xs → NoDup tail).
Proof.
  induction xs as [|x xs IH]; intros arcs0 arcs s' H; simpl in H.
  - injection H as <- <-. split; [done|]. exists []. split; [by rewrite app_nil_r|].
    split; [|constructor]. intros x y. rewrite !elem_of_nil. naive_solver.
  - apply bind_Ok in H as (arcs1 & s1 & Hbody & H).
    apply bind_Ok in Hbody as (ns & s2 & [Hns ->]%neighbors_of_Ok & Hbody).
    injection Hbody as <- <-.
    apply IH in H as (-> & tail & -> & Htail & Hnd). split; [done|].
    exists (((fun y => (x, y)) <$> elements ns) ++ tail).
    split; [by rewrite app_assoc|]. split.
    + intros x' y'. rewrite elem_of_app, Htail, list_elem_of_fmap, elem_of_cons.
      setoid_rewrite elem_of_elements. split.
      * intros [(y & [= -> ->] & Hy)|(Hx' & Hrest)]; eauto.
      * intros ([->|Hx'] & ns' & Hns' & Hy'); [|eauto].
        left. exists y'. split; [done|]. congruence.
    + intros [Hx Hxs]%NoDup_cons. apply NoDup_app. split; [|split].
      * apply NoDup_fmap_2; [|apply NoDup_elements]. by intros ?? [=].
      * intros [x' y'] (y & [= -> ->] & _)%list_elem_of_fmap Hin.
        apply Htail in Hin as [Hin _]. done.
      * by apply Hnd.
Qed.

Lemma all_arcs_Ok (arcs : list (Var.t * Var.t)) s s' :
  all_arcs s = Ok (arcs, s') →
  s' = s
  ∧ NoDup arcs
  ∧ ∀ x y, (x, y) ∈ arcs
           ↔ is_Some (domains s !! x)
             ∧ ∃ ns, neighbors (crossword s) x = Ok ns ∧ y ∈ ns.
Proof.
  unfold all_arcs. intros H.
  apply bind_Ok in H as (ds & s1 & [= <- <-] & H).
  apply all_arcs_loop in H as (-> & tail & -> & Htail & Hnd).
  split; [done|]. split; [apply Hnd, NoDup_fst_map_to_list|].
  intros x y. rewrite app_nil_l, Htail. 
  assert (x ∈ (map_to_list (domains s)).*1 ↔ is_Some (domains s !! x)) as ->;
    [|done].
  rewrite list_elem_of_fmap. split.
  - intros ([x' d] & -> & Hin%elem_of_map_to_list). eauto.
  - intros [d Hd]. exists (x, d). split; [done|].
    by apply elem_of_map_to_list.
Qed.

(** C3.  Called without arcs, [ac3] starts from a worklist that holds,
    once each, the ordered pairs [(x, y)] with [x] a variable that has a
    domain and [y] a neighbor of [x]; from there its run is a run of the
    worklist algorithm [ac3_spec]: the front arc [(x, y)] is popped and
    revised; a revision that empties the domain of [x] ends the run with
    failure; any other revision appends the arcs [(z, x)], [z] a neighbor
    of [x] other than [y], at the back; the run ends with success when
    the worklist is empty, and only then. *)
Theorem ac3_follows_worklist (fuel : nat) (s : state) (b : bool)
    (s' : state) :
  ac3 fuel None s = Ok (b, s') →
  ∃ arcs,
    all_arcs s = Ok (arcs, s)
    ∧ NoDup arcs
    ∧ (∀ x y, (x, y) ∈ arcs
              ↔ is_Some (domains s !! x)
                ∧ ∃ ns, neighbors (crossword s) x = Ok ns ∧ y ∈ ns)
    ∧ ac3_spec arcs s b s'.
Proof.
  unfold ac3. intros H. apply bind_Ok in H as (arcs & s1 & Harcs & H).
  pose proof (all_arcs_Ok _ _ _ Harcs) as (-> & Hnd & Hin).
  exists arcs. split; [done|]. split; [done|]. split; [done|].
  by eapply ac3_loop_spec.
Qed.

Lemma ac3_follows_worklist_witness :
  let out := returned (ac3 4 None Example.pruned) (true, Example.pruned) in
  ∃ arcs,
    all_arcs Example.pruned = Ok (arcs, Example.pruned)
    ∧ NoDup arcs
    ∧ (∀ x y, (x, y) ∈ arcs
              ↔ is_Some (domains Example.pruned !! x)
                ∧ ∃ ns, neighbors (crossword Example.pruned) x = Ok ns
                        ∧ y ∈ ns)
    ∧ ac3_spec arcs Example.pruned out.1 out.2.
Proof.
  intros out.
  assert (ac3 4 None Example.pruned = Ok (out.1, out.2)) as Hrun
    by (vm_compute; reflexivity).
  exact (ac3_follows_worklist 4 Example.pruned _ _ Hrun).
Defined.

(** ** Well-formed states *)

Lemma first_index_lt {A : Type} (l : list A) (x : A) (k : nat) :
  first_index l x k → k < List.length l.
Proof. intros [H _]. by apply lookup_lt_Some in H. Qed.

Lemma built_pairs_total (contents : list string) (vocabulary : gset string)
    (cw : Crossword) :
  Crossword_init contents vocabulary = Ok cw → pairs_total cw.
Proof.
  intros (_ & _ & _ & _ & _ & Hlook)%Crossword_init_Ok x y Hx Hy Hne.
  rewrite Hlook, decide_True by done. eauto.
Qed.

Lemma built_overlaps_in_range (contents : list string)
    (vocabulary : gset string) (cw : Crossword) :
  Crossword_init contents vocabulary = Ok cw → overlaps_in_range cw.
Proof.
  intros (_ & _ & _ & _ & _ & Hlook)%Crossword_init_Ok x y ix iy Ho.
  rewrite Hlook in Ho. destruct (decide _); [|done]. injection Ho as Ho.
  destruct (overlap_entry_total x y) as [_ H]. rewrite Ho in H.
  destruct H as (c & Hx%first_index_lt & Hy%first_index_lt).
  by rewrite !cells_length in Hx, Hy.
Qed.

Lemma prunes_well_formed (s s' : state) :
  well_formed s → prunes s s' → well_formed s'.
Proof.
  intros (Hpairs & Hrange & Hdom & Hnode) (Hcw & _ & _ & Hds).
  rewrite <- Hcw in Hpairs, Hrange, Hdom.
  split; [done|]. split; [done|]. split.
  - intros v. rewrite <- Hdom. specialize (Hds v).
    destruct (domains s !! v) as [d|].
    + destruct Hds as (d' & -> & _). split; eauto.
    + rewrite Hds. done.
  - intros v d' w Hd' Hw. specialize (Hds v).
    destruct (domains s !! v) as [d|] eqn:Hd; [|congruence].
    destruct Hds as (d'' & Hd'' & Hsub). rewrite Hd' in Hd''.
    injection Hd'' as <-. apply (Hnode v d w Hd). set_solver.
Qed.

(** After node consistency the creator of a built crossword is well
    formed. *)
Lemma node_consistent_well_formed (contents : list string)
    (vocabulary : gset string) (cw : Crossword) s :
  Crossword_init contents vocabulary = Ok cw →
  enforce_node_consistency (CrosswordCreator_init cw) = Ok (tt, s) →
  well_formed s
  ∧ crossword s = cw
  ∧ dicts s = ∅
  ∧ backtrack_calls s = 0
  ∧ ∀ v, v ∈ variables cw →
      ∃ d : gset string,
        domains s !! v = Some d
        ∧ ∀ w, w ∈ d ↔ w ∈ words cw ∧ String.length w = Var.length v.
Proof.
  intros Hbuilt Hrun.
  destruct (node_consistency_run (CrosswordCreator_init cw))
    as (s1 & Hrun' & Hcw & Hdicts & Hcalls & Hdom & Hds).
  rewrite Hrun in Hrun'. injection Hrun' as <-. simpl in *.
  assert (∀ v, domains s !! v
               = if decide (v ∈ variables cw)
                 then domains s !! v else None) as Hnone.
  { intros v. specialize (Hds v). rewrite lookup_gset_to_gmap in Hds.
    destruct (decide (v ∈ variables cw)) as [Hv|Hv]; [done|].
    by rewrite option_guard_False in Hds. }
  split; [|repeat split; try done].
  - unfold well_formed. rewrite Hcw. split; [by eapply built_pairs_total|].
    split; [by eapply built_overlaps_in_range|]. split.
    + intros v. specialize (Hds v). rewrite lookup_gset_to_gmap in Hds.
      destruct (decide (v ∈ variables cw)) as [Hv|Hv].
      * rewrite option_guard_True in Hds by done. simpl in Hds.
        destruct Hds as (d' & -> & _). split; eauto.
      * rewrite option_guard_False in Hds by done. simpl in Hds.
        rewrite Hds. split; [by intros []|done].
    + intros v d w Hd Hw. specialize (Hds v).
      rewrite lookup_gset_to_gmap in Hds.
      destruct (decide (v ∈ variables cw)) as [Hv|Hv].
      * rewrite option_guard_True in Hds by done. simpl in Hds.
        destruct Hds as (d' & Hd' & Hin). rewrite Hd in Hd'.
        injection Hd' as <-. by apply Hin.
      * rewrite option_guard_False in Hds by done. simpl in Hds. congruence.
  - intros v Hv. specialize (Hds v). rewrite lookup_gset_to_gmap in Hds.
    rewrite option_guard_True in Hds by done. exact Hds.
Qed.

Lemma neighbors_total (cw : Crossword) (var : Var.t) :
  pairs_total cw → var ∈ variables cw → ∃ ns, neighbors cw var = Ok ns.
Proof.
  intros Hpairs Hvar. unfold neighbors.
  assert (∀ v, v ∈ elements (variables cw) → v ∈ variables cw) as Hin.
  { intros v. by rewrite elem_of_elements. }
  generalize (∅ : gset Var.t).
  induction (elements (variables cw)) as [|v vs IH]; intros acc.
  - by exists acc.
  - change (foldM (neighbors_step cw var) acc (v :: vs))
      with (neighbors_step cw var acc v
              ≫= fun acc' => foldM (neighbors_step cw var) acc' vs).
    assert (∃ acc', neighbors_step cw var acc v = Ok acc') as [acc' ->].
    { unfold neighbors_step. destruct (decide (v ≠ var)); [|eauto].
      destruct (Hpairs v var) as [[o|] ->]; eauto. apply Hin. left. }
    apply IH. intros v' Hv'. apply Hin. by right.
Qed.

Lemma neighbors_of_total (var : Var.t) s :
  pairs_total (crossword s) → var ∈ variables (crossword s) →
  ∃ ns, neighbors_of var s = Ok (ns, s)
        ∧ neighbors (crossword s) var = Ok ns.
Proof.
  intros Hpairs Hvar. destruct (neighbors_total _ _ Hpairs Hvar) as [ns Hns].
  exists ns. split; [|done]. by apply neighbors_of_Ok.
Qed.

Lemma revise_total (x y : Var.t) s :
  well_formed s →
  x ∈ variables (crossword s) → y ∈ variables (crossword s) → x ≠ y →
  ∃ b s', revise x y s = Ok (b, s').
Proof.
  intros (Hpairs & Hrange & Hdom & Hnode) Hx Hy Hne.
  destruct (Hpairs x y Hx Hy Hne) as [o Ho].
  pose proof (revise_run s x y o Ho) as Hspec.
  destruct o as [[ix iy]|]; [|eauto].
  apply Hdom in Hx as [dx Hdx]. apply Hdom in Hy as [dy Hdy].
  apply Hrange in Ho as [Hix Hiy].
  destruct (Hspec dx dy Hne Hdx Hdy) as (dx' & b & Hrun & _).
  - intros w Hw. by rewrite (Hnode x dx w).
  - intros w Hw. by rewrite (Hnode y dy w).
  - eauto.
Qed.

(** ** Termination of ac3 *)

Lemma total_size_insert (ds : gmap Var.t (gset string)) (x : Var.t)
    (d : gset string) :
  ds !! x = None → total_size (<[x := d]> ds) = size d + total_size ds.
Proof.
  intros Hx. unfold total_size.
  rewrite map_fold_insert_L; [done| |done]. intros. lia.
Qed.

Lemma total_size_shrink (ds : gmap Var.t (gset string)) (x : Var.t)
    (d d' : gset string) :
  ds !! x = Some d → d' ⊂ d →
  total_size (<[x := d']> ds) < total_size ds.
Proof.
  intros Hx Hsub. apply subset_size in Hsub.
  rewrite <- (insert_delete_id ds x d Hx) at 2.
  rewrite <- (insert_delete_eq ds x d').
  rewrite !total_size_insert by apply lookup_delete_eq. lia.
Qed.

Lemma ac3_loop_fuel (fuel : nat) :
  ∀ arcs s r k, ac3_loop fuel arcs s = Ok r → ac3_loop (fuel + k) arcs s = Ok r.
Proof.
  induction fuel as [|fuel IH]; intros arcs s r k H; simpl in *; [done|].
  destruct arcs as [|[x y] arcs]; [done|].
  unfold mbind, M_bind in *.
  destruct (revise x y s) as [[[] s1]| |]; [|by apply IH|done..].
  destruct (domain_of x s1) as [[dx s2]| |]; [|done..].
  destruct (decide (dx = ∅)); [done|].
  destruct (neighbors_of x s2) as [[ns s3]| |]; [|done..].
  by apply IH.
Qed.

Lemma ac3_loop_terminates (n : nat) :
  ∀ s arcs,
    total_size (domains s) ≤ n →
    well_formed s → arcs_valid (crossword s) arcs →
    ∃ fuel b s', ac3_loop fuel arcs s = Ok (b, s').
Proof.
  induction n as [n IHn] using lt_wf_ind. intros s arcs.
  induction arcs as [|[x y] arcs IHarcs]; intros Hn Hwf Harcs.
  - by exists 1, true, s.
  - destruct (Harcs x y) as (Hx & Hy & Hne); [left|].
    destruct (revise_total x y s Hwf Hx Hy Hne) as (b & s1 & Hrev).
    pose proof (revise_prunes _ _ _ _ _ Hrev) as Hprunes.
    pose proof (prunes_well_formed _ _ Hwf Hprunes) as Hwf1.
    pose proof Hprunes as (Hcw & _).
    apply revise_Ok in Hrev as Hcases.
    destruct Hcases as [[-> ->]|(-> & d & d' & Hd & Hsub & Hs1)].
    + destruct IHarcs as (fuel & b & s' & Hrun); [done..| |].
      { intros x' y' Hin. apply Harcs. by right. }
      exists (S fuel), b, s'. simpl. by run Hrev.
    + destruct Hwf1 as (Hpairs & _ & Hdom & _).
      rewrite Hcw in Hpairs, Hdom.
      pose proof Hx as [dx Hdx]%Hdom.
      destruct (decide (dx = ∅)) as [->|Hdxne].
      * exists 1, false, s1. simpl. run Hrev.
        run (domain_of_run x ∅ s1 Hdx). by rewrite decide_True.
      * destruct (neighbors_of_total x s1) as (ns & Hns & Hns');
          [by rewrite Hcw..|].
        destruct (IHn (total_size (domains s1))
                    ltac:(rewrite Hs1; simpl;
                          pose proof (total_size_shrink _ _ _ _ Hd Hsub); lia)
                    s1 (arcs ++ ((fun neighbor => (neighbor, x))
                                   <$> elements (ns ∖ {[ y ]}))))
          as (fuel & b & s' & Hrun); [lia|by apply (prunes_well_formed s)| |].
        { rewrite Hcw. intros x' y' [Hin|Hin]%elem_of_app.
          - apply Harcs. by right.
          - apply list_elem_of_fmap in Hin as (z & [= -> ->] & Hz).
            apply elem_of_elements, elem_of_difference in Hz as [Hz _].
            rewrite Hcw in Hns'.
            apply neighbors_Ok in Hns' as [Hns' _].
            apply Hns' in Hz as (? & ? & _). done. }
        exists (S fuel), b, s'. simpl. run Hrev.
        run (domain_of_run x dx s1 Hdx). rewrite decide_False by done.
        by run Hns.
Qed.

Lemma all_arcs_total s :
  well_formed s →
  ∃ arcs, all_arcs s = Ok (arcs, s) ∧ arcs_valid (crossword s) arcs.
Proof.
  intros (Hpairs & _ & Hdom & _).
  assert (∃ arcs, all_arcs s = Ok (arcs, s)) as [arcs Harcs].
  { unfold all_arcs. rewrite (bind_run _ _ s (domains s) s eq_refl).
    assert (∀ x, x ∈ (map_to_list (domains s)).*1 →
                 x ∈ variables (crossword s)) as Hin.
    { intros x ([x' d] & -> & Hin%elem_of_map_to_list)%list_elem_of_fmap.
      apply Hdom. eauto. }
    generalize (@nil (Var.t * Var.t)).
    induction ((map_to_list (domains s)).*1) as [|x xs IH]; intros arcs0.
    - by exists arcs0.
    - simpl. destruct (neighbors_of_total x s Hpairs) as (ns & Hns & _).
      { apply Hin. left. }
      run Hns. rewrite ret_bind. apply IH.
      intros x' Hx'. apply Hin. by right. }
  exists arcs. split; [done|].
  apply all_arcs_Ok in Harcs as (_ & _ & Hin).
  intros x y (Hx & ns & Hns & Hy)%Hin.
  apply neighbors_Ok in Hns as [Hns _]. apply Hns in Hy as (? & ? & _).
  split; [by apply Hdom|done].
Qed.

(** On a well-formed state [ac3] returns, given enough fuel. *)
Lemma ac3_terminates s :
  well_formed s →
  ∃ fuel0, ∀ fuel, fuel0 ≤ fuel →
    ∃ b s', ac3 fuel None s = Ok (b, s').
Proof.
  intros Hwf. destruct (all_arcs_total s Hwf) as (arcs & Harcs & Hvalid).
  destruct (ac3_loop_terminates _ s arcs (le_n _) Hwf Hvalid)
    as (fuel0 & b & s' & Hrun).
  exists fuel0. intros fuel Hfuel. exists b, s'. unfold ac3. run Harcs.
  replace fuel with (fuel0 + (fuel - fuel0)) by lia.
  by apply ac3_loop_fuel.
Qed.

(** ** select_unassigned_variable *)

Lemma key_lt_true (k1 k2 : nat * Z) :
  key_lt k1 k2 = true ↔ k1.1 < k2.1 ∨ (k1.1 = k2.1 ∧ (k1.2 < k2.2)%Z).
Proof.
  unfold key_lt.
  rewrite orb_true_iff, andb_true_iff, !bool_decide_eq_true. done.
Qed.

Lemma key_lt_false (k1 k2 : nat * Z) :
  key_lt k1 k2 = false ↔ k2.1 < k1.1 ∨ (k1.1 = k2.1 ∧ (k2.2 ≤ k1.2)%Z).
Proof.
  rewrite <- not_true_iff_false, key_lt_true. lia.
Qed.

Lemma mrv_Ok (v : Var.t) (k : nat * Z) s s' :
  mrv v s = Ok (k, s') → k = mrv_key s v ∧ s' = s.
Proof.
  unfold mrv, mrv_key. intros H.
  apply bind_Ok in H as (d & s1 & [Hd ->]%domain_of_Ok & H).
  apply bind_Ok in H as (ns & s1 & [Hns ->]%neighbors_of_Ok & H).
  injection H as <- <-. by rewrite Hd, Hns.
Qed.

Lemma mrv_total (v : Var.t) s :
  well_formed s → v ∈ variables (crossword s) →
  mrv v s = Ok (mrv_key s v, s).
Proof.
  intros (Hpairs & _ & Hdom & _) Hv. unfold mrv, mrv_key.
  pose proof Hv as [d Hd]%Hdom.
  destruct (neighbors_of_total v s Hpairs Hv) as (ns & Hns & Hns').
  run (domain_of_run v d s Hd). run Hns. by rewrite Hd, Hns'.
Qed.

Lemma mrv_key_size (v : Var.t) (d : gset string) s :
  domains s !! v = Some d → (mrv_key s v).1 = size d.
Proof. intros H. unfold mrv_key. by rewrite H. Qed.

(** [min]: the variable returned has a least key among [best :: l]. *)
Lemma min_from_least (l : list Var.t) s :
  ∀ best,
    (∀ v, v ∈ l → mrv v s = Ok (mrv_key s v, s)) →
    ∃ v', min_from best (mrv_key s best) l s = Ok (v', s)
          ∧ v' ∈ best :: l
          ∧ ∀ v, v ∈ best :: l → key_lt (mrv_key s v) (mrv_key s v') = false.
Proof.
  induction l as [|x l IH]; intros best Hl.
  - exists best. split; [done|]. split; [left|].
    intros v ->%list_elem_of_singleton. apply key_lt_false. lia.
  - simpl. run (Hl x ltac:(left)).
    assert (∀ v, v ∈ l → mrv v s = Ok (mrv_key s v, s)) as Hl'.
    { intros v Hv. apply Hl. by right. }
    destruct (key_lt (mrv_key s x) (mrv_key s best)) eqn:Hlt.
    + destruct (IH x Hl') as (v' & Hrun & Hin & Hleast).
      exists v'. split; [done|]. split; [by right|].
      intros v [->|Hv]%elem_of_cons; [|by apply Hleast].
      specialize (Hleast x ltac:(left)).
      apply key_lt_true in Hlt. apply key_lt_false in Hleast.
      apply key_lt_false. lia.
    + destruct (IH best Hl') as (v' & Hrun & Hin & Hleast).
      exists v'. split; [done|]. split.
      * apply elem_of_cons in Hin as [->|Hin]; [left|by right; right].
      * intros v [->|[->|Hv]%elem_of_cons]%elem_of_cons.
        -- apply Hleast. left.
        -- specialize (Hleast best ltac:(left)).
           apply key_lt_false in Hlt, Hleast. apply key_lt_false. lia.
        -- apply Hleast. by right.
Qed.

(** With some variable left to assign, the variable selected is an
    unassigned one of least key. *)
Lemma select_unassigned_variable_least (a : loc)
    (d : gmap Var.t string) (x : Var.t) s :
  well_formed s → dicts s !! a = Some d →
  x ∈ variables (crossword s) → d !! x = None →
  ∃ var,
    select_unassigned_variable a s = Ok (var, s)
    ∧ var ∈ variables (crossword s)
    ∧ d !! var = None
    ∧ ∀ v, v ∈ variables (crossword s) → d !! v = None →
        key_lt (mrv_key s v) (mrv_key s var) = false.
Proof.
  intros Hwf Hd Hx Hxd. unfold select_unassigned_variable.
  run (proj2 (dict_of_Ok a s d s) (conj Hd eq_refl)).
  rewrite (bind_run _ _ s (crossword s) s eq_refl).
  set (unassigned := List.filter _ _).
  assert (∀ v, v ∈ unassigned ↔ v ∈ variables (crossword s) ∧ d !! v = None)
    as Hun.
  { intros v. unfold unassigned.
    rewrite list_elem_of_In, filter_In, <- list_elem_of_In, elem_of_elements,
      bool_decide_eq_true. done. }
  destruct unassigned as [|best l] eqn:Hl.
  { exfalso. apply (elem_of_nil x), Hun. done. }
  assert (∀ v, v ∈ best :: l → mrv v s = Ok (mrv_key s v, s)) as Hkeys.
  { intros v [Hv _]%Hun. by apply mrv_total. }
  run (Hkeys best ltac:(left)).
  destruct (min_from_least l s best) as (var & Hrun & Hin & Hleast).
  { intros v Hv. apply Hkeys. by right. }
  exists var. split; [done|]. apply Hun in Hin as [? ?].
  split; [done|]. split; [done|]. intros v Hv Hvd. apply Hleast, Hun. done.
Qed.

(** ** The search on a state with an empty domain *)

Lemma order_domain_values_empty (var : Var.t) (a : loc)
    (d : gmap Var.t string) s :
  dicts s !! a = Some d → domains s !! var = Some ∅ →
  order_domain_values var a s = Ok ([], s).
Proof.
  intros Hd Hvar. unfold order_domain_values.
  run (proj2 (dict_of_Ok a s d s) (conj Hd eq_refl)).
  run (domain_of_run var ∅ s Hvar). by rewrite elements_empty.
Qed.

Lemma backtrack_empty_domain (fuel : nat) (a : loc) (x : Var.t) s :
  well_formed s → dicts s !! a = Some ∅ →
  x ∈ variables (crossword s) → domains s !! x = Some ∅ →
  ∃ s', backtrack (S fuel) a s = Ok (None, s')
        ∧ backtrack_calls s' = S (backtrack_calls s).
Proof.
  intros Hwf Ha Hx Hdx. simpl.
  set (s1 := {| crossword := crossword s; domains := domains s;
                dicts := dicts s;
                backtrack_calls := S (backtrack_calls s) |}).
  assert (enter_backtrack s = Ok (tt, s1)) as Henter by done.
  assert (well_formed s1) as Hwf1 by done.
  exists s1. split; [|done]. run Henter.
  assert (assignment_complete a s1 = Ok (false, s1)) as Hcomplete.
  { unfold assignment_complete.
    run (proj2 (dict_of_Ok a s1 ∅ s1) (conj Ha eq_refl)).
    rewrite (bind_run _ _ s1 (crossword s1) s1 eq_refl).
    unfold mret, M_ret. do 2 f_equal. apply not_true_iff_false.
    rewrite forallb_forall. intros Hall.
    specialize (Hall x). rewrite bool_decide_eq_true, lookup_empty in Hall.
    destruct Hall as [? [=]]. apply list_elem_of_In, elem_of_elements, Hx. }
  run Hcomplete.
  destruct (select_unassigned_variable_least a ∅ x s1 Hwf1 Ha Hx)
    as (var & Hsel & Hvar & _ & Hleast); [apply lookup_empty|].
  run Hsel.
  assert (domains s1 !! var = Some ∅) as Hempty.
  { destruct Hwf1 as (_ & _ & Hdom & _).
    pose proof Hvar as [dv Hdv]%Hdom. rewrite Hdv. f_equal.
    specialize (Hleast x Hx (lookup_empty _)).
    apply key_lt_false in Hleast.
    rewrite (mrv_key_size x ∅ s1 Hdx), (mrv_key_size var dv s1 Hdv),
      size_empty in Hleast.
    apply leibniz_equiv, size_empty_iff. lia. }
  by run (order_domain_values_empty var a ∅ s1 Ha Hempty).
Qed.

(** ** solve *)

Lemma ac3_loop_false (fuel : nat) :
  ∀ arcs s s', ac3_loop fuel arcs s = Ok (false, s') →
    ∃ x, domains s' !! x = Some ∅.
Proof.
  induction fuel as [|fuel IH]; intros arcs s s' H; simpl in H; [done|].
  destruct arcs as [|[x y] arcs]; [done|].
  apply bind_Ok in H as (revised & s1 & Hrev & H).
  destruct revised; [|by eapply IH].
  apply bind_Ok in H as (dx & s2 & [Hdx ->]%domain_of_Ok & H).
  destruct (decide (dx = ∅)) as [->|Hne].
  - injection H as <-. by exists x.
  - apply bind_Ok in H as (ns & s2 & [_ ->]%neighbors_of_Ok & H).
    by eapply IH.
Qed.

Lemma ac3_Ok_fuel (fuel : nat) (arcs : option (list (Var.t * Var.t)))
    (b : bool) s s' :
  ac3 fuel arcs s = Ok (b, s') → ∃ fuel', fuel = S fuel'.
Proof.
  destruct fuel as [|fuel']; [|eauto]. unfold ac3. intros H.
  by apply bind_Ok in H as (arcs' & s1 & _ & H).
Qed.

(** [solve] when preprocessing leaves some variable without a candidate:
    the one call of [backtrack] tries nothing and there is no solution. *)
Lemma solve_with_empty_domain (contents : list string)
    (vocabulary : gset string) (cw : Crossword) (fuel : nat) (b : bool)
    (x : Var.t) sA s1 :
  Crossword_init contents vocabulary = Ok cw →
  enforce_node_consistency (CrosswordCreator_init cw) = Ok (tt, sA) →
  ac3 fuel None sA = Ok (b, s1) →
  x ∈ variables cw → domains s1 !! x = Some ∅ →
  ∃ s2, solve fuel (CrosswordCreator_init cw) = Ok (None, s2)
        ∧ backtrack_calls s2 = 1.
Proof.
  intros Hbuilt Hnode Hac3 Hx Hdx.
  destruct (node_consistent_well_formed _ _ _ _ Hbuilt Hnode)
    as (HwfA & HcwA & HdictsA & HcallsA & _).
  pose proof (ac3_prunes _ _ _ _ _ Hac3) as Hprunes.
  pose proof (prunes_well_formed _ _ HwfA Hprunes) as Hwf1.
  destruct Hprunes as (Hcw1 & Hdicts1 & Hcalls1 & _).
  destruct (ac3_Ok_fuel _ _ _ _ _ Hac3) as [fuel' ->].
  set (l := fresh (dom (dicts s1))).
  set (s3 := with_dicts s1 (<[l := ∅]> (dicts s1))).
  assert (dict_new s1 = Ok (l, s3)) as Hnew by (by apply dict_new_Ok).
  destruct (backtrack_empty_domain fuel' l x s3) as (s2 & Hback & Hcalls).
  - done.
  - simpl. apply lookup_insert_eq.
  - simpl. congruence.
  - done.
  - exists s2. split.
    + unfold solve. run Hnode. run Hac3. by run Hnew.
    + rewrite Hcalls. simpl. congruence.
Qed.

(** C2 (as the code has it).  [solve()] runs node consistency, then [ac3]
    over all arcs, drops the verdict of [ac3] and calls [backtrack] on an
    empty assignment.  For a crossword built from a structure: whenever
    [ac3] reports unsatisfiability, that one call of [backtrack] selects a
    variable with an empty domain, tries no value, and [solve()] returns
    no solution; and if the vocabulary has no word of the length of some
    variable, [solve()] returns no solution (for every fuel large enough),
    again after exactly one call of [backtrack]. *)
Theorem solve_after_preprocessing (contents : list string)
    (vocabulary : gset string) (cw : Crossword) :
  Crossword_init contents vocabulary = Ok cw →
  (∀ fuel s1,
     (enforce_node_consistency;; ac3 fuel None) (CrosswordCreator_init cw)
     = Ok (false, s1) →
     ∃ s2, solve fuel (CrosswordCreator_init cw) = Ok (None, s2)
           ∧ backtrack_calls s2 = 1)
  ∧ (∀ v, v ∈ variables cw →
       (∀ w, w ∈ vocabulary → String.length w ≠ Var.length v) →
       ∃ fuel0, ∀ fuel, fuel0 ≤ fuel →
         ∃ s2, solve fuel (CrosswordCreator_init cw) = Ok (None, s2)
               ∧ backtrack_calls s2 = 1).
Proof.
  intros Hbuilt. split.
  - intros fuel s1 H.
    apply bind_Ok in H as ([] & sA & Hnode & Hac3).
    destruct (node_consistent_well_formed _ _ _ _ Hbuilt Hnode)
      as (HwfA & HcwA & _).
    pose proof (ac3_prunes _ _ _ _ _ Hac3) as Hprunes.
    pose proof (prunes_well_formed _ _ HwfA Hprunes) as (_ & _ & Hdom & _).
    destruct Hprunes as (Hcw1 & _).
    unfold ac3 in Hac3. apply bind_Ok in Hac3 as (arcs & s' & Harcs & Hloop).
    pose proof (ac3_loop_false _ _ _ _ Hloop) as [x Hx].
    eapply (solve_with_empty_domain _ _ _ fuel false x); eauto.
    + unfold ac3. by run Harcs.
    + rewrite <- HcwA, <- Hcw1. apply Hdom. eauto.
  - intros v Hv Hnone.
    destruct (node_consistency_run (CrosswordCreator_init cw))
      as (sA & Hnode & _).
    destruct (node_consistent_well_formed _ _ _ _ Hbuilt Hnode)
      as (HwfA & HcwA & _ & _ & Hds).
    destruct (Hds v Hv) as (d & Hd & Hin).
    assert (d = ∅) as ->.
    { apply set_eq. intros w. rewrite Hin, elem_of_empty.
      apply Crossword_init_Ok in Hbuilt as (_ & _ & _ & Hwords & _).
      rewrite Hwords. split; [|done]. intros [Hw Hlen]. by apply (Hnone w). }
    destruct (ac3_terminates sA HwfA) as [fuel0 Hterm].
    exists fuel0. intros fuel Hfuel.
    destruct (Hterm fuel Hfuel) as (b & s1 & Hac3).
    eapply (solve_with_empty_domain _ _ _ fuel b v); eauto.
    pose proof (ac3_prunes _ _ _ _ _ Hac3) as (_ & _ & _ & Hshrink).
    specialize (Hshrink v). rewrite Hd in Hshrink.
    destruct Hshrink as (d' & -> & Hsub). f_equal. set_solver.
Qed.

Lemma example_unsolvable_built :
  Crossword_init Example.contents Example.short_vocabulary
  = Ok Example.unsolvable.
Proof. vm_compute. reflexivity. Qed.

Lemma solve_after_preprocessing_witness :
  let start := CrosswordCreator_init Example.unsolvable in
  ∃ s2, solve 4 start = Ok (None, s2) ∧ backtrack_calls s2 = 1.
Proof.
  intros start.
  destruct (solve_after_preprocessing Example.contents
              Example.short_vocabulary Example.unsolvable
              example_unsolvable_built) as [Hfailed _].
  apply (Hfailed 4 (returned ((enforce_node_consistency;; ac3 4 None) start)
                      (false, start)).2).
  vm_compute. reflexivity.
Defined.

(** On the unsolvable example [ac3] reports failure, and [solve] then
    enters [backtrack] (once) before it returns no solution. *)
Lemma solve_enters_backtrack_after_failure :
  let start := CrosswordCreator_init Example.unsolvable in
  let pre := returned ((enforce_node_consistency;; ac3 4 None) start)
               (true, start) in
  let out := returned (solve 4 start) (None, start) in
  (enforce_node_consistency;; ac3 4 None) start = Ok (false, pre.2)
  ∧ solve 4 start = Ok (None, out.2)
  ∧ backtrack_calls start = 0
  ∧ backtrack_calls out.2 = 1.
Proof.
  intros start pre out.
  split; [vm_compute; reflexivity|].
  split; [vm_compute; reflexivity|].
  split; vm_compute; reflexivity.
Qed.

(** ** The structure read by Crossword.__init__ *)

Lemma structure_row_loop (line : string) (js : list nat) :
  ∀ row,
    foldl (fun row j =>
             if String.length line <=? j then row ++ [false]
             else if decide (String.get j line = Some "_"%char)
                  then row ++ [true]
                  else row ++ [false]) row js
    = row ++ ((fun j => bool_decide (String.get j line = Some "_"%char)) <$> js).
Proof.
  induction js as [|j js IH]; intros row; simpl.
  - by rewrite app_nil_r.
  - assert ((if String.length line <=? j then row ++ [false]
             else if decide (String.get j line = Some "_"%char)
                  then row ++ [true] else row ++ [false])
            = row ++ [bool_decide (String.get j line = Some "_"%char)]) as ->.
    { destruct (String.length line <=? j) eqn:Hlen.
      - apply Nat.leb_le in Hlen. rewrite bool_decide_eq_false_2; [done|].
        intros H%string_get_Some. lia.
      - destruct (decide (String.get j line = Some "_"%char)).
        + by rewrite bool_decide_eq_true_2.
        + by rewrite bool_decide_eq_false_2. }
    rewrite IH. by rewrite <- app_assoc.
Qed.

Lemma structure_row_spec (line : string) (width : nat) :
  structure_row line width
  = (fun j => bool_decide (String.get j line = Some "_"%char)) <$> seq 0 width.
Proof. unfold structure_row. by rewrite structure_row_loop. Qed.

Lemma build_structure_loop (contents : list string) (width : nat)
    (rows : list nat) :
  ∀ structure,
    foldl (fun structure i =>
             structure
             ++ [structure_row (default EmptyString (contents !! i)) width])
      structure rows
    = structure
      ++ ((fun i => structure_row (default EmptyString (contents !! i)) width)
            <$> rows).
Proof.
  induction rows as [|i rows IH]; intros structure; simpl.
  - by rewrite app_nil_r.
  - rewrite IH. by rewrite <- app_assoc.
Qed.

Lemma build_structure_spec (contents : list string) (height width : nat) :
  build_structure contents height width
  = (fun i => structure_row (default EmptyString (contents !! i)) width)
      <$> seq 0 height.
Proof. unfold build_structure. by rewrite build_structure_loop. Qed.

Lemma cell_build_structure (contents : list string) (width i j : nat) :
  cell (build_structure contents (List.length contents) width) i j = true
  ↔ j < width
    ∧ ∃ line, contents !! i = Some line ∧ String.get j line = Some "_"%char.
Proof.
  unfold cell. rewrite build_structure_spec, list_lookup_fmap.
  destruct (decide (i < List.length contents)) as [Hi|Hi].
  - rewrite lookup_seq_lt by done. simpl.
    rewrite structure_row_spec, list_lookup_fmap.
    destruct (lookup_lt_is_Some_2 contents i Hi) as [line Hline].
    rewrite Hline. simpl.
    destruct (decide (j < width)) as [Hj|Hj].
    + rewrite lookup_seq_lt by done. simpl. rewrite bool_decide_eq_true.
      split; [eauto|]. by intros (_ & line' & [= <-] & ?).
    + rewrite lookup_seq_ge by lia. simpl. split; [done|]. tauto.
  - rewrite lookup_seq_ge by lia. simpl. split; [done|].
    intros (_ & line & Hline%lookup_lt_Some & _). lia.
Qed.

Lemma py_max_Ok (l : list nat) (m : nat) :
  py_max l = Ok m → (∀ x, x ∈ l → x ≤ m) ∧ m ∈ l.
Proof.
  destruct l as [|x l]; [done|]. simpl. intros [= <-].
  assert (∀ l a, (∀ y, y ∈ a :: l → y ≤ foldl Nat.max a l)
                 ∧ foldl Nat.max a l ∈ a :: l) as H.
  { clear. induction l as [|y l IH]; intros a; simpl.
    - split; [|left]. by intros y ->%list_elem_of_singleton.
    - destruct (IH (a `max` y)) as [Hle Hin]. split.
      + pose proof (Hle (a `max` y) ltac:(left)) as Hmax.
        intros z Hz. apply elem_of_cons in Hz as [Hz|Hz]; [subst z; lia|].
        apply elem_of_cons in Hz as [Hz|Hz]; [subst z; lia|].
        apply Hle. by right.
      + apply elem_of_cons in Hin as [Hin|Hin].
        * rewrite Hin. destruct (Nat.max_spec a y) as [[_ ->]|[_ ->]].
          -- right; left.
          -- left.
        * by right; right. }
  apply H.
Qed.

(** X1.  [Crossword.__init__] raises [ValueError] on a structure file
    without lines ([max] of an empty sequence) and otherwise builds the
    crossword: as many rows as lines, the width of the longest line, the
    vocabulary as given. *)
Theorem Crossword_init_total (vocabulary : gset string) :
  Crossword_init [] vocabulary = Raise ValueError
  ∧ ∀ line rest,
      ∃ cw, Crossword_init (line :: rest) vocabulary = Ok cw
            ∧ height cw = S (List.length rest)
            ∧ words cw = vocabulary
            ∧ (∀ l, l ∈ line :: rest → String.length l ≤ width cw)
            ∧ (∃ l, l ∈ line :: rest ∧ String.length l = width cw).
Proof.
  split; [done|]. intros line rest. unfold Crossword_init.
  destruct (py_max (String.length <$> line :: rest)) as [w| |] eqn:Hw;
    [|done..].
  apply py_max_Ok in Hw as [Hle Hin]. simpl.
  destruct (compute_overlaps_spec
              (scan (build_structure (line :: rest) (S (List.length rest)) w)
                 (S (List.length rest)) w)) as (m & -> & _).
  simpl. eexists. split; [done|]. simpl. split; [done|]. split; [done|].
  split.
  - intros l Hl. apply Hle. change (String.length l ∈ String.length <$> line :: rest).
    apply list_elem_of_fmap. eauto.
  - change (w ∈ String.length <$> line :: rest) in Hin.
    apply list_elem_of_fmap in Hin as (l & -> & Hl). eauto.
Qed.

(** The shape and the cells of the structure, for use in later proofs. *)
Lemma structure_shape (contents : list string) (vocabulary : gset string)
    (cw : Crossword) :
  Crossword_init contents vocabulary = Ok cw →
  List.length (structure cw) = height cw
  ∧ (∀ row, row ∈ structure cw → List.length row = width cw)
  ∧ ∀ i j, cell (structure cw) i j = true
           ↔ ∃ line, contents !! i = Some line
                     ∧ String.get j line = Some "_"%char.
Proof.
  intros Hbuilt.
  pose proof (Crossword_init_Ok _ _ _ Hbuilt) as (_ & Hh & Hst & _).
  unfold Crossword_init in Hbuilt.
  apply result_bind_Ok in Hbuilt as (w & Hw & Hbuilt).
  apply result_bind_Ok in Hbuilt as (m & _ & [= <-]). simpl in *.
  apply py_max_Ok in Hw as [Hle _].
  split; [|split].
  - by rewrite build_structure_spec, length_fmap, length_seq.
  - intros row. rewrite build_structure_spec.
    intros (i & -> & _)%list_elem_of_fmap.
    by rewrite structure_row_spec, length_fmap, length_seq.
  - intros i j. rewrite cell_build_structure. split; [tauto|].
    intros (line & Hline & Hget). split; [|eauto].
    apply string_get_Some in Hget.
    assert (String.length line ≤ w); [|lia].
    apply Hle, list_elem_of_fmap. exists line. split; [done|].
    by eapply list_elem_of_lookup_2.
Qed.

(** X2.  In a built crossword the structure has [height] rows of [width]
    cells each, and the cell at row [i], column [j] is fillable exactly
    when line [i] of the file has the character [_] at position [j];
    positions past the end of a shorter line are not fillable. *)
Theorem structure_spec (contents : list string) (vocabulary : gset string)
    (cw : Crossword) :
  Crossword_init contents vocabulary = Ok cw →
  List.length (structure cw) = height cw
  ∧ (∀ row, row ∈ structure cw → List.length row = width cw)
  ∧ ∀ i j, cell (structure cw) i j = true
           ↔ ∃ line, contents !! i = Some line
                     ∧ String.get j line = Some "_"%char.
Proof. exact (structure_shape contents vocabulary cw). Qed.

Lemma structure_spec_witness :
  List.length (structure Example.puzzle) = height Example.puzzle
  ∧ (∀ row, row ∈ structure Example.puzzle
            → List.length row = width Example.puzzle)
  ∧ ∀ i j, cell (structure Example.puzzle) i j = true
           ↔ ∃ line, Example.contents !! i = Some line
                     ∧ String.get j line = Some "_"%char.
Proof.
  exact (structure_spec Example.contents Example.vocabulary Example.puzzle
           example_puzzle_built).
Defined.

(** ** The variables are the maximal runs *)

Lemma run_length_spec (filled : nat → bool) (ks : list nat) :
  ∀ len,
    ∃ n, run_length filled ks len = len + n
         ∧ n ≤ List.length ks
         ∧ (∀ m k, m < n → ks !! m = Some k → filled k = true)
         ∧ (∀ k, ks !! n = Some k → filled k = false).
Proof.
  induction ks as [|k ks IH]; intros len; simpl.
  - exists 0. split; [lia|]. split; [done|]. split; [lia|done].
  - destruct (filled k) eqn:Hk.
    + destruct (IH (len + 1)) as (n & -> & Hn & Htrue & Hfalse).
      exists (S n). split; [lia|]. split; [lia|]. split.
      * intros [|m] k' Hm; simpl; [congruence|]. apply Htrue. lia.
      * done.
    + exists 0. split; [lia|]. split; [lia|]. split; [lia|].
      simpl. congruence.
Qed.

Lemma run_length_range_spec (filled : nat → bool) (a b : nat) :
  ∃ n, run_length filled (range a b) 1 = 1 + n
       ∧ a + n ≤ a `max` b
       ∧ (∀ k, a ≤ k → k < a + n → filled k = true)
       ∧ (a + n < b → filled (a + n) = false).
Proof.
  destruct (run_length_spec filled (range a b) 1)
    as (n & Hrun & Hn & Htrue & Hfalse).
  unfold range in *. rewrite length_seq in Hn.
  exists n. split; [done|]. split; [lia|]. split.
  - intros k Ha Hk. apply (Htrue (k - a)); [lia|].
    rewrite lookup_seq_lt by lia. f_equal. lia.
  - intros Hlt. apply Hfalse. by rewrite lookup_seq_lt by lia.
Qed.

Lemma run_length_range_exact (filled : nat → bool) (a b n : nat) :
  (∀ k, a ≤ k → k < a + n → filled k = true) →
  (∀ k, b ≤ k → filled k = false) →
  filled (a + n) = false →
  run_length filled (range a b) 1 = 1 + n.
Proof.
  intros Htrue Hout Hfalse.
  destruct (run_length_range_spec filled a b) as (n' & -> & Hn' & Htrue' & Hfalse').
  f_equal. destruct (lt_eq_lt_dec n n') as [[Hlt|]|Hlt]; [|done|].
  - pose proof (Htrue' (a + n) ltac:(lia) ltac:(lia)). congruence.
  - pose proof (Htrue (a + n') ltac:(lia) ltac:(lia)) as H1.
    destruct (decide (a + n' < b)) as [Hb|Hb].
    + specialize (Hfalse' Hb). congruence.
    + pose proof (Hout (a + n') ltac:(lia)). congruence.
Qed.

Lemma cell_true_in_grid (st : list (list bool)) (h w i j : nat) :
  List.length st = h → (∀ row, row ∈ st → List.length row = w) →
  cell st i j = true → i < h ∧ j < w.
Proof.
  intros Hh Hw. unfold cell. destruct (st !! i) as [row|] eqn:Hrow; [|done].
  simpl. destruct (row !! j) as [c|] eqn:Hc; [|done]. intros _.
  apply lookup_lt_Some in Hrow as Hi. apply lookup_lt_Some in Hc.
  rewrite (Hw row) in Hc by (by eapply list_elem_of_lookup_2). lia.
Qed.

Lemma down_at_run (st : list (list bool)) (h w i j : nat) (v : Var.t) :
  List.length st = h → (∀ row, row ∈ st → List.length row = w) →
  i < h ∧ j < w ∧ down_at st h i j v
  ↔ ∃ L, 2 ≤ L ∧ v = Var.init (Z.of_nat i) (Z.of_nat j) Var.DOWN L
         ∧ run_down st i j L.
Proof.
  intros Hh Hw.
  assert (∀ k, h ≤ k → cell st k j = false) as Hout.
  { intros k Hk. apply not_true_iff_false.
    intros [? _]%(cell_true_in_grid st h w); [lia|done..]. }
  unfold down_at, run_down. split.
  - intros (Hi & Hj & Hc & Hstart & Hlen & ->).
    destruct (run_length_range_spec (fun k => cell st k j) (i + 1) h)
      as (n & Hrun & Hn & Htrue & Hfalse).
    rewrite Hrun in *. exists (1 + n). split; [lia|]. split; [done|].
    split; [|split; [done|]].
    + intros k Hk. destruct k as [|k]; [by rewrite Nat.add_0_r|].
      apply Htrue; lia.
    + destruct (decide (i + 1 + n < h)) as [Hlt|Hge].
      * replace (i + (1 + n)) with (i + 1 + n) by lia. by apply Hfalse.
      * apply Hout. lia.
  - intros (L & HL & -> & Htrue & Hstart & Hfalse).
    assert (cell st i j = true) as Hc.
    { specialize (Htrue 0). rewrite Nat.add_0_r in Htrue. apply Htrue. lia. }
    destruct (cell_true_in_grid st h w i j Hh Hw Hc) as [Hi Hj].
    assert (run_length (fun k => cell st k j) (range (i + 1) h) 1 = L) as ->.
    { replace L with (1 + (L - 1)) at 1 by lia.
      apply run_length_range_exact; [|done|].
      - intros k Hk1 Hk2. replace k with (i + (k - i)) by lia.
        apply Htrue. lia.
      - by replace (i + 1 + (L - 1)) with (i + L) by lia. }
    repeat split; done || lia.
Qed.

Lemma across_at_run (st : list (list bool)) (h w i j : nat) (v : Var.t) :
  List.length st = h → (∀ row, row ∈ st → List.length row = w) →
  i < h ∧ j < w ∧ across_at st w i j v
  ↔ ∃ L, 2 ≤ L ∧ v = Var.init (Z.of_nat i) (Z.of_nat j) Var.ACROSS L
         ∧ run_across st i j L.
Proof.
  intros Hh Hw.
  assert (∀ k, w ≤ k → cell st i k = false) as Hout.
  { intros k Hk. apply not_true_iff_false.
    intros [_ ?]%(cell_true_in_grid st h w); [lia|done..]. }
  unfold across_at, run_across. split.
  - intros (Hi & Hj & Hc & Hstart & Hlen & ->).
    destruct (run_length_range_spec (fun k => cell st i k) (j + 1) w)
      as (n & Hrun & Hn & Htrue & Hfalse).
    rewrite Hrun in *. exists (1 + n). split; [lia|]. split; [done|].
    split; [|split; [done|]].
    + intros k Hk. destruct k as [|k]; [by rewrite Nat.add_0_r|].
      apply Htrue; lia.
    + destruct (decide (j + 1 + n < w)) as [Hlt|Hge].
      * replace (j + (1 + n)) with (j + 1 + n) by lia. by apply Hfalse.
      * apply Hout. lia.
  - intros (L & HL & -> & Htrue & Hstart & Hfalse).
    assert (cell st i j = true) as Hc.
    { specialize (Htrue 0). rewrite Nat.add_0_r in Htrue. apply Htrue. lia. }
    destruct (cell_true_in_grid st h w i j Hh Hw Hc) as [Hi Hj].
    assert (run_length (fun k => cell st i k) (range (j + 1) w) 1 = L) as ->.
    { replace L with (1 + (L - 1)) at 1 by lia.
      apply run_length_range_exact; [|done|].
      - intros k Hk1 Hk2. replace k with (j + (k - j)) by lia.
        apply Htrue. lia.
      - by replace (j + 1 + (L - 1)) with (j + L) by lia. }
    repeat split; done || lia.
Qed.

(** X3.  The variables of a built crossword are exactly the maximal
    vertical and horizontal runs of at least two fillable cells: a down
    (across) variable of length [L] at [(i, j)] for every run of [L >= 2]
    fillable cells that has a blocked cell or the edge of the grid before
    its first and after its last cell, and nothing else.  Runs of a single
    cell give no variable. *)
Theorem variables_are_maximal_runs (contents : list string)
    (vocabulary : gset string) (cw : Crossword) (v : Var.t) :
  Crossword_init contents vocabulary = Ok cw →
  v ∈ variables cw
  ↔ ∃ i j L,
      2 ≤ L
      ∧ ((v = Var.init (Z.of_nat i) (Z.of_nat j) Var.DOWN L
          ∧ run_down (structure cw) i j L)
         ∨ (v = Var.init (Z.of_nat i) (Z.of_nat j) Var.ACROSS L
            ∧ run_across (structure cw) i j L)).
Proof.
  intros Hbuilt.
  destruct (structure_shape _ _ _ Hbuilt) as (Hh & Hw & _).
  apply Crossword_init_Ok in Hbuilt as (_ & _ & _ & _ & -> & _).
  rewrite scan_spec. split.
  - intros (i & j & Hi & Hj & [Hd|Ha]).
    + destruct (proj1 (down_at_run _ _ _ i j v Hh Hw)) as (L & ? & ? & ?);
        [done|]. exists i, j, L. eauto.
    + destruct (proj1 (across_at_run _ _ _ i j v Hh Hw)) as (L & ? & ? & ?);
        [done|]. exists i, j, L. eauto.
  - intros (i & j & L & HL & [[Hv Hrun]|[Hv Hrun]]).
    + destruct (proj2 (down_at_run _ _ _ i j v Hh Hw)) as (? & ? & ?);
        [eauto|]. exists i, j. eauto.
    + destruct (proj2 (across_at_run _ _ _ i j v Hh Hw)) as (? & ? & ?);
        [eauto|]. exists i, j. eauto.
Qed.

Lemma variables_are_maximal_runs_witness :
  Example.down ∈ variables Example.puzzle
  ↔ ∃ i j L,
      2 ≤ L
      ∧ ((Example.down = Var.init (Z.of_nat i) (Z.of_nat j) Var.DOWN L
          ∧ run_down (structure Example.puzzle) i j L)
         ∨ (Example.down = Var.init (Z.of_nat i) (Z.of_nat j) Var.ACROSS L
            ∧ run_across (structure Example.puzzle) i j L)).
Proof.
  exact (variables_are_maximal_runs Example.contents Example.vocabulary
           Example.puzzle Example.down example_puzzle_built).
Defined.

(** ** neighbors in a built crossword *)

Lemma overlap_Some_shared (v1 v2 : Var.t) :
  is_Some (overlap v1 v2) ↔ ∃ c, c ∈ Var.cells v1 ∧ c ∈ Var.cells v2.
Proof.
  destruct (overlap_entry_total v1 v2) as [_ H].
  destruct (overlap v1 v2) as [[a b]|].
  - split; [|eauto]. intros _. destruct H as (c & [H1 _] & [H2 _]).
    exists c. split; by eapply list_elem_of_lookup_2.
  - split; [by intros []|]. intros (c & Hc1 & Hc2). by destruct (H c).
Qed.

(** X4.  In a built crossword, [neighbors(var)] of a variable of the
    crossword is the set of the other variables that share a cell with it,
    and the relation is symmetric; for a variable that is not in the
    crossword the lookup [self.overlaps[v, var]] raises [KeyError] as soon
    as the crossword has a variable at all, and the result is the empty
    set when it has none. *)
Theorem neighbors_spec (contents : list string) (vocabulary : gset string)
    (cw : Crossword) (var : Var.t) :
  Crossword_init contents vocabulary = Ok cw →
  (var ∈ variables cw →
   ∃ ns, neighbors cw var = Ok ns
         ∧ (∀ v, v ∈ ns
                 ↔ v ∈ variables cw ∧ v ≠ var
                   ∧ ∃ c, c ∈ Var.cells v ∧ c ∈ Var.cells var)
         ∧ (∀ v ns', v ∈ ns → neighbors cw v = Ok ns' → var ∈ ns'))
  ∧ (var ∉ variables cw → variables cw ≠ ∅ →
     neighbors cw var = Raise KeyError)
  ∧ (var ∉ variables cw → variables cw = ∅ → neighbors cw var = Ok ∅).
Proof.
  intros Hbuilt.
  pose proof (built_pairs_total _ _ _ Hbuilt) as Hpairs.
  apply Crossword_init_Ok in Hbuilt as (_ & _ & _ & _ & _ & Hlook).
  assert (∀ x ns, neighbors cw x = Ok ns → x ∈ variables cw →
            ∀ v, v ∈ ns
                 ↔ v ∈ variables cw ∧ v ≠ x
                   ∧ ∃ c, c ∈ Var.cells v ∧ c ∈ Var.cells x) as Hchar.
  { intros x ns [Hns _]%neighbors_Ok Hx v. rewrite Hns.
    split; intros (Hv & Hne & H); (split; [done|]); (split; [done|]).
    - destruct H as [pq Hpq]. rewrite Hlook, decide_True in Hpq by done.
      apply overlap_Some_shared. injection Hpq as ->. eauto.
    - apply overlap_Some_shared in H as [pq Hpq]. exists pq.
      by rewrite Hlook, decide_True, Hpq. }
  split; [|split].
  - intros Hvar. destruct (neighbors_total cw var Hpairs Hvar) as [ns Hns].
    exists ns. split; [done|]. split; [by apply Hchar|].
    intros v ns' (Hv & Hne & c & Hc1 & Hc2)%(Hchar var ns Hns Hvar) Hns'.
    apply (Hchar v ns' Hns' Hv). eauto.
  - intros Hvar Hne. unfold neighbors.
    destruct (elements (variables cw)) as [|x l] eqn:Hl.
    { by apply elements_empty_inv, leibniz_equiv in Hl. }
    assert (x ∈ variables cw) as Hx.
    { apply elem_of_elements. rewrite Hl. left. }
    change (neighbors_step cw var ∅ x
              ≫= (fun acc' => foldM (neighbors_step cw var) acc' l)
            = Raise KeyError).
    assert (neighbors_step cw var ∅ x = Raise KeyError) as ->; [|done].
    unfold neighbors_step. rewrite decide_True by (by intros ->).
    rewrite Hlook, decide_False; [done|]. tauto.
  - intros _ Hempty. unfold neighbors. by rewrite Hempty, elements_empty.
Qed.

Lemma neighbors_spec_witness :
  ∃ ns, neighbors Example.puzzle Example.across = Ok ns
        ∧ (∀ v, v ∈ ns
                ↔ v ∈ variables Example.puzzle ∧ v ≠ Example.across
                  ∧ ∃ c, c ∈ Var.cells v ∧ c ∈ Var.cells Example.across)
        ∧ (∀ v ns', v ∈ ns → neighbors Example.puzzle v = Ok ns'
                    → Example.across ∈ ns').
Proof.
  destruct (neighbors_spec Example.contents Example.vocabulary
              Example.puzzle Example.across example_puzzle_built)
    as [Hin _].
  apply Hin. vm_compute. reflexivity.
Defined.

(** ** The keys of the overlap table *)

(** X5.  In a built crossword the overlap table has a key for exactly the
    ordered pairs of distinct variables of the crossword (so
    [overlaps[v, v]] is a [KeyError]), and an entry [(ix, iy)] gives
    positions inside the two variables at which their cell sequences hold
    the same cell. *)
Theorem overlaps_keys (contents : list string) (vocabulary : gset string)
    (cw : Crossword) (x y : Var.t) :
  Crossword_init contents vocabulary = Ok cw →
  (is_Some (overlaps cw !! (x, y))
   ↔ x ∈ variables cw ∧ y ∈ variables cw ∧ x ≠ y)
  ∧ overlaps cw !! (x, x) = None
  ∧ ∀ ix iy, overlaps cw !! (x, y) = Some (Some (ix, iy)) →
      ix < Var.length x ∧ iy < Var.length y
      ∧ ∃ c, Var.cells x !! ix = Some c ∧ Var.cells y !! iy = Some c.
Proof.
  intros Hbuilt.
  pose proof (built_overlaps_in_range _ _ _ Hbuilt) as Hrange.
  apply Crossword_init_Ok in Hbuilt as (_ & _ & _ & _ & _ & Hlook).
  split; [|split].
  - rewrite Hlook. destruct (decide _); [by split; eauto|].
    split; [by intros []|done].
  - rewrite Hlook, decide_False; [done|]. tauto.
  - intros ix iy Ho. destruct (Hrange x y ix iy Ho) as [Hx Hy].
    split; [done|]. split; [done|].
    rewrite Hlook in Ho. destruct (decide _); [|done]. injection Ho as Ho.
    destruct (overlap_entry_total x y) as [_ H]. rewrite Ho in H.
    destruct H as (c & [Hc1 _] & [Hc2 _]). eauto.
Qed.

Lemma overlaps_keys_witness :
  (is_Some (overlaps Example.puzzle !! (Example.across, Example.down))
   ↔ Example.across ∈ variables Example.puzzle
     ∧ Example.down ∈ variables Example.puzzle
     ∧ Example.across ≠ Example.down)
  ∧ overlaps Example.puzzle !! (Example.across, Example.across) = None
  ∧ ∀ ix iy,
      overlaps Example.puzzle !! (Example.across, Example.down)
      = Some (Some (ix, iy)) →
      ix < Var.length Example.across ∧ iy < Var.length Example.down
      ∧ ∃ c, Var.cells Example.across !! ix = Some c
             ∧ Var.cells Example.down !! iy = Some c.
Proof.
  exact (overlaps_keys Example.contents Example.vocabulary Example.puzzle
           Example.across Example.down example_puzzle_built).
Defined.

(** ** Node consistency repeated *)

Lemma state_eq (s s' : state) :
  crossword s' = crossword s → domains s' = domains s →
  dicts s' = dicts s → backtrack_calls s' = backtrack_calls s → s' = s.
Proof. destruct s, s'. simpl. by intros -> -> -> ->. Qed.

(** X6.  [enforce_node_consistency] is idempotent: run on the state it
    produced, it returns and changes nothing. *)
Theorem enforce_node_consistency_idempotent (s s1 : state) :
  enforce_node_consistency s = Ok (tt, s1) →
  enforce_node_consistency s1 = Ok (tt, s1).
Proof.
  intros H1.
  destruct (node_consistency_run s) as (s1' & H1' & _ & _ & _ & _ & Hds1).
  rewrite H1 in H1'. injection H1' as <-.
  destruct (node_consistency_run s1) as (s2 & H2 & Hcw & Hh & Hn & _ & Hds2).
  rewrite H2. do 2 f_equal. apply state_eq; try done.
  apply map_eq. intros v. specialize (Hds1 v). specialize (Hds2 v).
  destruct (domains s !! v) as [d|].
  - destruct Hds1 as (d1 & Hd1 & Hin1). rewrite Hd1 in Hds2 |- *.
    destruct Hds2 as (d2 & -> & Hin2). f_equal. apply set_eq. intros w.
    rewrite Hin2, Hin1. tauto.
  - rewrite Hds1 in Hds2 |- *. done.
Qed.

Lemma enforce_node_consistency_idempotent_witness :
  let start := CrosswordCreator_init Example.puzzle in
  let s1 := (returned (enforce_node_consistency start) (tt, start)).2 in
  enforce_node_consistency s1 = Ok (tt, s1).
Proof.
  intros start s1.
  apply (enforce_node_consistency_idempotent start s1).
  vm_compute. reflexivity.
Defined.

(** ** The order of sorted(..., key=...) *)

Lemma insert_by_key_perm (kv : nat * string) (l : list (nat * string)) :
  insert_by_key kv l ≡ₚ kv :: l.
Proof.
  induction l as [|kv' l IH]; simpl; [done|].
  destruct (kv.1 <=? kv'.1); [done|]. rewrite IH. apply Permutation_swap.
Qed.

Lemma sort_by_key_perm (l : list (nat * string)) :
  foldr insert_by_key [] l ≡ₚ l.
Proof.
  induction l as [|kv l IH]; simpl; [done|].
  by rewrite insert_by_key_perm, IH.
Qed.

Lemma insert_by_key_sorted (kv : nat * string) (l : list (nat * string)) :
  StronglySorted (fun a b => a.1 ≤ b.1) l →
  StronglySorted (fun a b => a.1 ≤ b.1) (insert_by_key kv l).
Proof.
  induction 1 as [|kv' l Hl IH Hall]; simpl.
  - repeat constructor.
  - destruct (kv.1 <=? kv'.1) eqn:Hle.
    + apply Nat.leb_le in Hle. constructor; [by constructor|].
      constructor; [done|]. eapply Forall_impl; [done|].
      intros b Hb. simpl in *. lia.
    + apply Nat.leb_gt in Hle. constructor; [done|].
      rewrite insert_by_key_perm. constructor; [lia|done].
Qed.

Lemma sort_by_key_sorted (l : list (nat * string)) :
  StronglySorted (fun a b => a.1 ≤ b.1) (foldr insert_by_key [] l).
Proof.
  induction l as [|kv l IH]; simpl; [constructor|].
  by apply insert_by_key_sorted.
Qed.

(** Stability: among the items of one key the order is kept. *)
Lemma insert_by_key_stable (k : nat) (kv : nat * string)
    (l : list (nat * string)) :
  StronglySorted (fun a b => a.1 ≤ b.1) l →
  List.filter (fun a => a.1 =? k) (insert_by_key kv l)
  = List.filter (fun a => a.1 =? k) (kv :: l).
Proof.
  induction 1 as [|kv' l Hl IH Hall]; [done|]. simpl.
  destruct (kv.1 <=? kv'.1) eqn:Hle; [done|].
  apply Nat.leb_gt in Hle. simpl. simpl in IH. rewrite IH.
  destruct (kv'.1 =? k) eqn:H1, (kv.1 =? k) eqn:H2; try done.
  apply Nat.eqb_eq in H1, H2. lia.
Qed.

Lemma sort_by_key_stable (k : nat) (l : list (nat * string)) :
  List.filter (fun a => a.1 =? k) (foldr insert_by_key [] l)
  = List.filter (fun a => a.1 =? k) l.
Proof.
  induction l as [|kv l IH]; [done|]. simpl foldr.
  rewrite insert_by_key_stable by apply sort_by_key_sorted.
  simpl. by rewrite IH.
Qed.

(** ** order_domain_values *)

Lemma keyed_loop (var : Var.t) (d : gmap Var.t string)
    (values : list string) s :
  ∀ keyed0 keyed s',
    foldM (fun keyed value =>
             key ← count_conflicts var d value;
             mret (keyed ++ [(key, value)])) keyed0 values s
    = Ok (keyed, s') →
    s' = s
    ∧ ∃ keys,
        keyed = keyed0 ++ zip keys values
        ∧ List.length keys = List.length values
        ∧ ∀ i k v, keys !! i = Some k → values !! i = Some v →
            count_conflicts var d v s = Ok (k, s).
Proof.
  induction values as [|value values IH]; intros keyed0 keyed s' H;
    simpl in H.
  - injection H as <- <-. split; [done|]. exists []. split; [|done].
    by rewrite app_nil_r.
  - apply bind_Ok in H as (keyed1 & s1 & Hbody & H).
    apply bind_Ok in Hbody as (key & s2 & Hkey & Hbody).
    pose proof (read_only_count_conflicts _ _ _ _ _ _ Hkey) as ->.
    injection Hbody as <- <-.
    apply IH in H as (-> & keys & -> & Hlen & Hkeys). split; [done|].
    exists (key :: keys). split; [by rewrite <- app_assoc|].
    split; [simpl; lia|]. intros [|i] k v; simpl.
    + by intros [= <-] [= <-].
    + apply Hkeys.
Qed.

Lemma zip_keys_fmap (f : string → nat) (values : list string) :
  ∀ keys,
    List.length keys = List.length values →
    (∀ i k v, keys !! i = Some k → values !! i = Some v → k = f v) →
    zip keys values = (fun v => (f v, v)) <$> values.
Proof.
  induction values as [|v values IH]; intros [|k keys] Hlen Hkeys;
    try done.
  simpl. f_equal.
  - f_equal. by apply (Hkeys 0).
  - apply IH; [simpl in Hlen; lia|]. intros i. apply (Hkeys (S i)).
Qed.

Lemma sorted_keyed_values (f : string → nat) (l : list (nat * string)) :
  Forall (fun kv => kv.1 = f kv.2) l →
  StronglySorted (fun a b => a.1 ≤ b.1) l →
  StronglySorted (fun v1 v2 => f v1 ≤ f v2) l.*2.
Proof.
  intros Hkeys. induction 1 as [|kv l Hl IH Hall]; simpl; [constructor|].
  apply Forall_cons in Hkeys as [Hkv Hkeys].
  constructor; [by apply IH|]. apply Forall_fmap.
  apply Forall_forall. intros kv' Hkv'.
  pose proof (proj1 (Forall_forall _ _) Hall kv' Hkv').
  pose proof (proj1 (Forall_forall _ _) Hkeys kv' Hkv'). simpl in *. lia.
Qed.

Lemma filter_keyed_values (f : string → nat) (k : nat)
    (l : list (nat * string)) :
  Forall (fun kv => kv.1 = f kv.2) l →
  (List.filter (fun a => a.1 =? k) l).*2
  = List.filter (fun v => f v =? k) l.*2.
Proof.
  induction 1 as [|kv l Hkv Hl IH]; [done|].
  rewrite fmap_cons. simpl List.filter. rewrite <- Hkv.
  destruct (kv.1 =? k); [rewrite fmap_cons|]; by rewrite IH.
Qed.

Lemma order_domain_values_Ok (var : Var.t) (a : loc) (values : list string)
    s s' :
  order_domain_values var a s = Ok (values, s') →
  s' = s
  ∧ ∃ (d : gmap Var.t string) (dv : gset string),
      dicts s !! a = Some d
      ∧ domains s !! var = Some dv
      ∧ values ≡ₚ elements dv
      ∧ StronglySorted
          (fun v1 v2 => conflicts var d s v1 ≤ conflicts var d s v2) values
      ∧ ∀ k, List.filter (fun v => conflicts var d s v =? k) values
             = List.filter (fun v => conflicts var d s v =? k) (elements dv).
Proof.
  intros H. pose proof (read_only_order_domain_values _ _ _ _ _ H) as ->.
  split; [done|]. unfold order_domain_values in H.
  apply bind_Ok in H as (d & s1 & [Hd ->]%dict_of_Ok & H).
  apply bind_Ok in H as (dv & s1 & [Hdv ->]%domain_of_Ok & H).
  apply bind_Ok in H as (keyed & s1 & Hkeyed & H). injection H as <- _.
  apply keyed_loop in Hkeyed as (-> & keys & -> & Hlen & Hkeys).
  rewrite app_nil_l.
  rewrite (zip_keys_fmap (conflicts var d s)); [|done|].
  2:{ intros i k v Hk Hv. unfold conflicts.
      by rewrite (Hkeys i k v Hk Hv). }
  set (keyed := (fun v => (conflicts var d s v, v)) <$> elements dv).
  assert (keyed.*2 = elements dv) as Hsnd.
  { unfold keyed. rewrite <- list_fmap_compose. apply list_fmap_id. }
  assert (Forall (fun kv => kv.1 = conflicts var d s kv.2)
            (foldr insert_by_key [] keyed)) as Hall.
  { rewrite sort_by_key_perm. unfold keyed. apply Forall_fmap.
    by apply Forall_forall. }
  exists d, dv. split; [done|]. split; [done|]. unfold sorted_by_key.
  split; [|split].
  - rewrite <- Hsnd. apply fmap_Permutation, sort_by_key_perm.
  - apply sorted_keyed_values; [done|apply sort_by_key_sorted].
  - intros k. rewrite <- (filter_keyed_values _ _ _ Hall).
    rewrite sort_by_key_stable, <- Hsnd.
    apply filter_keyed_values. unfold keyed. apply Forall_fmap.
    by apply Forall_forall.
Qed.

(** X9.  [order_domain_values(var, assignment)], when it returns, lists
    every word of the domain of [var] exactly once, in ascending order of
    the number [count_conflicts] computes for it; words of equal count
    keep the order in which the domain enumerates them ([sorted] is
    stable); the state is unchanged. *)
Theorem order_domain_values_sorted (var : Var.t) (a : loc)
    (values : list string) (s s' : state) :
  order_domain_values var a s = Ok (values, s') →
  s' = s
  ∧ ∃ (d : gmap Var.t string) (dv : gset string),
      dicts s !! a = Some d
      ∧ domains s !! var = Some dv
      ∧ NoDup values
      ∧ (∀ w, w ∈ values ↔ w ∈ dv)
      ∧ StronglySorted
          (fun v1 v2 => conflicts var d s v1 ≤ conflicts var d s v2) values
      ∧ ∀ k, List.filter (fun v => conflicts var d s v =? k) values
             = List.filter (fun v => conflicts var d s v =? k) (elements dv).
Proof.
  intros (-> & d & dv & Hd & Hdv & Hperm & Hsorted & Hstable)%order_domain_values_Ok.
  split; [done|]. exists d, dv. split; [done|]. split; [done|].
  split; [rewrite Hperm; apply NoDup_elements|].
  split; [|done]. intros w. by rewrite Hperm, elem_of_elements.
Qed.

Lemma order_domain_values_sorted_witness :
  let out :=
    returned (order_domain_values Example.across 1 Example.searching)
      ([], Example.searching) in
  out.2 = Example.searching
  ∧ ∃ (d : gmap Var.t string) (dv : gset string),
      dicts Example.searching !! 1%positive = Some d
      ∧ domains Example.searching !! Example.across = Some dv
      ∧ NoDup out.1
      ∧ (∀ w, w ∈ out.1 ↔ w ∈ dv)
      ∧ StronglySorted
          (fun v1 v2 => conflicts Example.across d Example.searching v1
                        ≤ conflicts Example.across d Example.searching v2)
          out.1
      ∧ ∀ k, List.filter
               (fun v => conflicts Example.across d Example.searching v =? k)
               out.1
             = List.filter
                 (fun v => conflicts Example.across d Example.searching v =? k)
                 (elements dv).
Proof.
  intros out.
  apply (order_domain_values_sorted Example.across 1 out.1
           Example.searching out.2).
  vm_compute. reflexivity.
Defined.

(** ** select_unassigned_variable *)

Lemma mrv_key_neighbors (v : Var.t) (ns : gset Var.t) s :
  neighbors (crossword s) v = Ok ns →
  (mrv_key s v).2 = (- Z.of_nat (size ns))%Z.
Proof. intros H. unfold mrv_key. by rewrite H. Qed.

(** X8.  [select_unassigned_variable(assignment)] on a well-formed state:
    when every variable is assigned, [min] of the empty list raises
    [ValueError]; otherwise it returns an unassigned variable of the
    crossword with the fewest remaining words, and among those one with
    the most neighbors, and leaves the state alone. *)
Theorem select_unassigned_variable_spec (a : loc) (d : gmap Var.t string)
    (s : state) :
  well_formed s → dicts s !! a = Some d →
  (complete (crossword s) d →
   select_unassigned_variable a s = Raise ValueError)
  ∧ (∀ x, x ∈ variables (crossword s) → d !! x = None →
     ∃ var (dvar : gset string) (nsvar : gset Var.t),
       select_unassigned_variable a s = Ok (var, s)
       ∧ var ∈ variables (crossword s)
       ∧ d !! var = None
       ∧ domains s !! var = Some dvar
       ∧ neighbors (crossword s) var = Ok nsvar
       ∧ ∀ v (dv : gset string) (nsv : gset Var.t),
           v ∈ variables (crossword s) → d !! v = None →
           domains s !! v = Some dv →
           neighbors (crossword s) v = Ok nsv →
           size dvar < size dv
           ∨ (size dvar = size dv ∧ size nsv ≤ size nsvar)).
Proof.
  intros Hwf Hd. split.
  - intros Hcomplete. unfold select_unassigned_variable.
    run (proj2 (dict_of_Ok a s d s) (conj Hd eq_refl)).
    rewrite (bind_run _ _ s (crossword s) s eq_refl).
    assert (List.filter (fun v => bool_decide (d !! v = None))
              (elements (variables (crossword s))) = []) as ->; [|done].
    assert (∀ l, (∀ v, v ∈ l → v ∈ variables (crossword s)) →
                 List.filter (fun v => bool_decide (d !! v = None)) l = [])
      as Hnil.
    { induction l as [|v l IH]; intros Hl; [done|]. simpl.
      destruct (Hcomplete v) as [w Hw]; [apply Hl; left|].
      rewrite bool_decide_eq_false_2 by congruence.
      apply IH. intros v' Hv'. apply Hl. by right. }
    apply Hnil. intros v. by rewrite elem_of_elements.
  - intros x Hx Hxd.
    destruct (select_unassigned_variable_least a d x s Hwf Hd Hx Hxd)
      as (var & Hsel & Hvar & Hvard & Hleast).
    pose proof Hwf as (Hpairs & _ & Hdom & _).
    pose proof Hvar as [dvar Hdvar]%Hdom.
    destruct (neighbors_total _ _ Hpairs Hvar) as [nsvar Hnsvar].
    exists var, dvar, nsvar. repeat (split; [done|]).
    intros v dv nsv Hv Hvd Hdv Hnsv.
    specialize (Hleast v Hv Hvd). apply key_lt_false in Hleast.
    rewrite (mrv_key_size v dv s Hdv), (mrv_key_size var dvar s Hdvar),
      (mrv_key_neighbors v nsv s Hnsv),
      (mrv_key_neighbors var nsvar s Hnsvar) in Hleast.
    lia.
Qed.

Lemma example_well_formed : well_formed Example.searching.
Proof.
  split; [apply (built_pairs_total _ _ _ example_puzzle_built)|].
  split; [apply example_overlaps_in_range|].
  split; [|apply example_node_consistent].
  intros v. unfold Example.searching, Example.puzzle.
  cbn [domains crossword variables].
  rewrite <- elem_of_dom, dom_insert_L, dom_singleton_L. done.
Qed.

Lemma select_unassigned_variable_spec_witness :
  (complete (crossword Example.searching) ∅ →
   select_unassigned_variable 1 Example.searching = Raise ValueError)
  ∧ (∀ x, x ∈ variables (crossword Example.searching) →
     (∅ : gmap Var.t string) !! x = None →
     ∃ var (dvar : gset string) (nsvar : gset Var.t),
       select_unassigned_variable 1 Example.searching
       = Ok (var, Example.searching)
       ∧ var ∈ variables (crossword Example.searching)
       ∧ (∅ : gmap Var.t string) !! var = None
       ∧ domains Example.searching !! var = Some dvar
       ∧ neighbors (crossword Example.searching) var = Ok nsvar
       ∧ ∀ v (dv : gset string) (nsv : gset Var.t),
           v ∈ variables (crossword Example.searching) →
           (∅ : gmap Var.t string) !! v = None →
           domains Example.searching !! v = Some dv →
           neighbors (crossword Example.searching) v = Ok nsv →
           size dvar < size dv
           ∨ (size dvar = size dv ∧ size nsv ≤ size nsvar)).
Proof.
  apply (select_unassigned_variable_spec 1 ∅ Example.searching
           example_well_formed).
  vm_compute. reflexivity.
Defined.

(** ** The words of the assignment come from the domains *)

Lemma min_from_in (l : list Var.t) :
  ∀ best k s v s', min_from best k l s = Ok (v, s') → v ∈ best :: l.
Proof.
  induction l as [|x l IH]; intros best k s v s' H; simpl in H.
  - injection H as <- _. left.
  - apply bind_Ok in H as (k' & s1 & _ & H).
    destruct (key_lt k' k); apply IH in H.
    + by right.
    + apply elem_of_cons in H as [->|H]; [left|by right; right].
Qed.

Lemma select_unassigned_variable_Ok (a : loc) (var : Var.t) s s' :
  select_unassigned_variable a s = Ok (var, s') →
  s' = s
  ∧ ∃ d, dicts s !! a = Some d
         ∧ var ∈ variables (crossword s)
         ∧ d !! var = None.
Proof.
  intros H. pose proof (read_only_select_unassigned_variable _ _ _ _ H) as ->.
  split; [done|]. unfold select_unassigned_variable in H.
  apply bind_Ok in H as (d & s1 & [Hd ->]%dict_of_Ok & H).
  apply bind_Ok in H as (cw & s1 & [= <- <-] & H).
  exists d. split; [done|].
  destruct (List.filter _ _) as [|best l] eqn:Hl; [done|].
  apply bind_Ok in H as (k & s1 & _ & H). apply min_from_in in H.
  rewrite <- Hl in H.
  apply list_elem_of_In, filter_In in H as [Hin Hnone].
  apply list_elem_of_In, elem_of_elements in Hin.
  by apply bool_decide_eq_true in Hnone.
Qed.

Lemma from_domains_frame (s s' : state) (d : gmap Var.t string) :
  frame s s' → from_domains s d → from_domains s' d.
Proof.
  intros (Hcw & Hds & _) H v w Hv. rewrite Hcw, Hds. by apply H.
Qed.

Lemma try_values_from_domains (rec : loc → M (option loc)) (a : loc)
    (var : Var.t) (values : list string) :
  (∀ a' s r s', rec a' s = Ok (r, s') → frame s s') →
  (∀ a' s l s', rec a' s = Ok (Some l, s') →
     (∀ d, dicts s !! a' = Some d → from_domains s d) →
     ∃ d', dicts s' !! l = Some d' ∧ from_domains s d') →
  ∀ s l s',
    try_values rec a var values s = Ok (Some l, s') →
    (∀ d, dicts s !! a = Some d → from_domains s d) →
    var ∈ variables (crossword s) →
    (∀ w, w ∈ values →
       ∃ dv : gset string, domains s !! var = Some dv ∧ w ∈ dv) →
    ∃ d', dicts s' !! l = Some d' ∧ from_domains s d'.
Proof.
  intros Hframe Hrec. induction values as [|value values IH];
    intros s l s' H Ha Hvar Hvalues; simpl in H; [done|].
  apply bind_Ok in H as (l1 & s1 & Hcopy & H).
  apply bind_Ok in H as ([] & s2 & Hset & H).
  apply bind_Ok in H as (ok & s3 & Hok & H).
  pose proof (read_only_consistent _ _ _ _ Hok) as ->.
  destruct (extend_copy _ _ _ _ _ _ _ Hcopy Hset)
    as (Hfr & Hfresh & d & Hd & Hd1).
  assert (∀ s4, frame s2 s4 →
            (∀ d0, dicts s4 !! a = Some d0 → from_domains s4 d0)
            ∧ var ∈ variables (crossword s4)
            ∧ (∀ w, w ∈ values →
                 ∃ dv : gset string, domains s4 !! var = Some dv ∧ w ∈ dv)
            ∧ ∀ d0, from_domains s4 d0 → from_domains s d0) as Hnext.
  { intros s4 Hfr4. pose proof (frame_trans _ _ _ Hfr Hfr4) as Hfr'.
    pose proof Hfr' as (Hcw & Hds & Hh). split; [|split; [|split]].
    - intros d0 Hd0. rewrite (Hh a d Hd) in Hd0. injection Hd0 as <-.
      apply (from_domains_frame s); [done|]. by apply Ha.
    - by rewrite Hcw.
    - intros w Hw. rewrite Hds. apply Hvalues. by right.
    - intros d0 H0 v w Hv. rewrite <- Hcw, <- Hds. by apply H0. }
  destruct ok.
  - apply bind_Ok in H as (res & s4 & Hres & H).
    destruct res as [r|].
    + injection H as <- <-.
      destruct (Hrec _ _ _ _ Hres) as (d' & Hd' & Hfrom).
      * intros d0 Hd0. rewrite Hd1 in Hd0. injection Hd0 as <-.
        apply (from_domains_frame s); [done|].
        intros v w Hv. destruct (decide (var = v)) as [<-|Hne].
        -- rewrite lookup_insert_eq in Hv. injection Hv as <-.
           split; [done|]. apply Hvalues. left.
        -- rewrite lookup_insert_ne in Hv by done. by apply (Ha d Hd).
      * exists d'. split; [done|].
        apply (proj2 (proj2 (proj2 (Hnext s2 (frame_refl s2))))). done.
    + pose proof (Hframe _ _ _ _ Hres) as Hfr4.
      destruct (Hnext s4 Hfr4) as (Ha4 & Hvar4 & Hvalues4 & Hback).
      destruct (IH s4 l s' H Ha4 Hvar4 Hvalues4) as (d' & Hd' & Hfrom).
      exists d'. split; [done|]. by apply Hback.
  - destruct (Hnext s2 (frame_refl s2)) as (Ha2 & Hvar2 & Hvalues2 & Hback).
    destruct (IH s2 l s' H Ha2 Hvar2 Hvalues2) as (d' & Hd' & Hfrom).
    exists d'. split; [done|]. by apply Hback.
Qed.

Lemma backtrack_from_domains (fuel : nat) :
  ∀ a s l s', backtrack fuel a s = Ok (Some l, s') →
    (∀ d, dicts s !! a = Some d → from_domains s d) →
    ∃ d', dicts s' !! l = Some d' ∧ from_domains s d'.
Proof.
  induction fuel as [|fuel IH]; intros a s l s' H Hpre; simpl in H; [done|].
  apply bind_Ok in H as ([] & s1 & Henter & H). injection Henter as <-.
  apply bind_Ok in H as (c & s2 & Hc & H).
  apply assignment_complete_Ok in Hc as (-> & d & Hd & _). simpl in Hd.
  destruct c.
  - injection H as <- <-. exists d. split; [done|]. by apply Hpre.
  - apply bind_Ok in H as (var & s2 & Hvar & H).
    apply select_unassigned_variable_Ok in Hvar as (-> & _ & _ & Hvar & _).
    apply bind_Ok in H as (values & s2 & Hvals & H).
    apply order_domain_values_Ok in Hvals
      as (-> & _ & dv & _ & Hdv & Hperm & _).
    apply (try_values_from_domains (backtrack fuel) a var values
             (backtrack_frame fuel) IH) in H; try done.
    intros w Hw. exists dv. split; [done|].
    apply elem_of_elements. by rewrite <- Hperm.
Qed.

(** X10.  The assignment [solve()] returns has exactly the variables of
    the crossword as its keys, and every word in it is a word of the
    vocabulary that is still in the (pruned) domain of its variable. *)
Theorem solve_assignment_from_vocabulary (cw : Crossword) (fuel : nat)
    (l : loc) (s' : state) :
  solve fuel (CrosswordCreator_init cw) = Ok (Some l, s') →
  ∃ d, dicts s' !! l = Some d
       ∧ dom d = variables cw
       ∧ ∀ v w, d !! v = Some w →
           w ∈ words cw
           ∧ ∃ dv : gset string, domains s' !! v = Some dv ∧ w ∈ dv.
Proof.
  unfold solve. intros H.
  apply bind_Ok in H as ([] & s1 & Hnode & H).
  destruct (node_consistency_run (CrosswordCreator_init cw))
    as (s1' & Hnode' & Hcw1 & _ & _ & _ & Hds1).
  rewrite Hnode' in Hnode. injection Hnode as ->. simpl in Hcw1, Hds1.
  apply bind_Ok in H as (b & s2 & Hac3 & H).
  apply ac3_prunes in Hac3 as (Hcw2 & _ & _ & Hds2).
  apply bind_Ok in H as (a & s3 & [-> ->]%dict_new_Ok & H).
  pose proof (backtrack_frame _ _ _ _ _ H) as (_ & Hds3 & _).
  pose proof H as Hsound. apply backtrack_sound in Hsound.
  2:{ simpl. intros d. rewrite lookup_insert_eq. intros [= <-].
      repeat split; intros ?; intros; by simplify_map_eq. }
  apply backtrack_from_domains in H.
  2:{ simpl. intros d. rewrite lookup_insert_eq. intros [= <-].
      intros v w Hv. by rewrite lookup_empty in Hv. }
  destruct H as (d & Hd & Hfrom).
  destruct Hsound as (d' & Hd' & Hcomplete & _).
  rewrite Hd in Hd'. injection Hd' as <-.
  unfold from_domains, complete in Hfrom, Hcomplete. simpl in *.
  rewrite Hcw2, Hcw1 in Hfrom, Hcomplete.
  exists d. split; [done|]. split.
  - apply set_eq. intros v. rewrite elem_of_dom. split.
    + intros [w Hw]. by apply (Hfrom v w).
    + apply Hcomplete.
  - intros v w Hv. destruct (Hfrom v w Hv) as (Hvar & dv & Hdv & Hw).
    split; [|exists dv; by rewrite Hds3].
    specialize (Hds1 v). specialize (Hds2 v).
    rewrite lookup_gset_to_gmap, option_guard_True in Hds1 by done.
    simpl in Hds1. destruct Hds1 as (d1 & Hd1 & Hin1).
    rewrite Hd1 in Hds2. destruct Hds2 as (d2 & Hd2 & Hsub).
    rewrite Hdv in Hd2. injection Hd2 as <-.
    apply Hsub, Hin1 in Hw. tauto.
Qed.

Lemma solve_assignment_from_vocabulary_witness :
  let start := CrosswordCreator_init Example.puzzle in
  let out := returned (solve 4 start) (None, start) in
  ∃ d, dicts out.2 !! 4%positive = Some d
       ∧ dom d = variables Example.puzzle
       ∧ ∀ v w, d !! v = Some w →
           w ∈ words Example.puzzle
           ∧ ∃ dv : gset string, domains out.2 !! v = Some dv ∧ w ∈ dv.
Proof.
  intros start out.
  apply (solve_assignment_from_vocabulary Example.puzzle 4).
  vm_compute. reflexivity.
Defined.

(** ** ac3 returns, and removes no word of a solution *)

(** X11.  On the creator of a built crossword whose domains are node
    consistent, [ac3()] returns: there is an amount of fuel from which on
    the run ends with the same verdict and the same state, raising
    nothing; it has only pruned domains, and on the verdict [False] some
    variable's domain is empty. *)
Theorem ac3_total (s : state) :
  well_formed s →
  ∃ fuel0 b s',
    (∀ fuel, fuel0 ≤ fuel → ac3 fuel None s = Ok (b, s'))
    ∧ prunes s s'
    ∧ well_formed s'
    ∧ (b = false → ∃ x, x ∈ variables (crossword s) ∧ domains s' !! x = Some ∅).
Proof.
  intros Hwf. destruct (all_arcs_total s Hwf) as (arcs & Harcs & Hvalid).
  destruct (ac3_loop_terminates _ s arcs (le_n _) Hwf Hvalid)
    as (fuel0 & b & s' & Hrun).
  exists fuel0, b, s'.
  pose proof (ac3_loop_prunes _ _ _ _ _ Hrun) as Hprunes.
  pose proof (prunes_well_formed _ _ Hwf Hprunes) as Hwf'.
  split; [|split; [done|split; [done|]]].
  - intros fuel Hfuel. unfold ac3. run Harcs.
    replace fuel with (fuel0 + (fuel - fuel0)) by lia.
    by apply ac3_loop_fuel.
  - intros ->. apply ac3_loop_false in Hrun as [x Hx]. exists x.
    split; [|done]. destruct Hprunes as (<- & _).
    destruct Hwf' as (_ & _ & Hdom & _). apply Hdom. eauto.
Qed.

Lemma ac3_total_witness :
  ∃ fuel0 b s',
    (∀ fuel, fuel0 ≤ fuel → ac3 fuel None Example.searching = Ok (b, s'))
    ∧ prunes Example.searching s'
    ∧ well_formed s'
    ∧ (b = false → ∃ x, x ∈ variables (crossword Example.searching)
                        ∧ domains s' !! x = Some ∅).
Proof. exact (ac3_total Example.searching example_well_formed). Defined.

Lemma revise_keeps (x y : Var.t) (b : bool) s s' (d : gmap Var.t string) :
  well_formed s →
  x ∈ variables (crossword s) → y ∈ variables (crossword s) → x ≠ y →
  revise x y s = Ok (b, s') →
  solution (crossword s) d → drawn_from s d → drawn_from s' d.
Proof.
  intros (Hpairs & Hrange & Hdom & Hnode) Hx Hy Hne Hrun
    (Hcomplete & _ & _ & Hagree) Hdrawn.
  destruct (Hpairs x y Hx Hy Hne) as [o Ho].
  pose proof (revise_run s x y o Ho) as Hspec.
  destruct o as [[ix iy]|].
  - pose proof Hx as [dx Hdx]%Hdom. pose proof Hy as [dy Hdy]%Hdom.
    pose proof (Hrange _ _ _ _ Ho) as [Hix Hiy].
    destruct (Hspec dx dy Hne Hdx Hdy) as (dx' & b' & Hrun' & Hdx' & _).
    { intros w Hw. by rewrite (Hnode x dx w). }
    { intros w Hw. by rewrite (Hnode y dy w). }
    rewrite Hrun in Hrun'. injection Hrun' as -> ->.
    intros v w dv Hv. simpl. destruct (decide (v = x)) as [->|Hvx].
    + rewrite lookup_insert_eq. intros [= <-]. apply Hdx'.
      split; [exact (Hdrawn x w dx Hv Hdx)|].
      destruct (Hcomplete y Hy) as [wy Hwy]. exists wy.
      split; [exact (Hdrawn y wy dy Hwy Hdy)|].
      exact (Hagree x y ix iy w wy Hx Hy Hne Ho Hv Hwy).
    + rewrite lookup_insert_ne by done. by apply Hdrawn.
  - rewrite Hrun in Hspec. by injection Hspec as -> ->.
Qed.

Lemma ac3_loop_keeps (fuel : nat) (d : gmap Var.t string) :
  ∀ arcs s b s',
    well_formed s → arcs_valid (crossword s) arcs →
    ac3_loop fuel arcs s = Ok (b, s') →
    solution (crossword s) d → drawn_from s d → drawn_from s' d.
Proof.
  induction fuel as [|fuel IH]; intros arcs s b s' Hwf Hvalid Hrun Hsol Hdrawn;
    [done|].
  simpl in Hrun. destruct arcs as [|[x y] arcs].
  { by injection Hrun as <- <-. }
  destruct (Hvalid x y) as (Hx & Hy & Hne); [left|].
  apply bind_Ok in Hrun as (revised & s1 & Hrev & Hrun).
  pose proof (revise_keeps _ _ _ _ _ _ Hwf Hx Hy Hne Hrev Hsol Hdrawn)
    as Hdrawn1.
  pose proof (revise_prunes _ _ _ _ _ Hrev) as Hprunes.
  pose proof (prunes_well_formed _ _ Hwf Hprunes) as Hwf1.
  destruct Hprunes as (Hcw & _).
  destruct revised.
  - apply bind_Ok in Hrun as (dx & s2 & [Hdx ->]%domain_of_Ok & Hrun).
    destruct (decide (dx = ∅)); [by injection Hrun as <- <-|].
    apply bind_Ok in Hrun as (ns & s2 & [Hns ->]%neighbors_of_Ok & Hrun).
    apply (IH _ _ _ _ Hwf1) in Hrun; [done| |by rewrite Hcw|done].
    rewrite Hcw. intros x' y' [Hin|Hin]%elem_of_app.
    + apply Hvalid. by right.
    + apply list_elem_of_fmap in Hin as (z & [= -> ->] & Hz).
      apply elem_of_elements, elem_of_difference in Hz as [Hz _].
      rewrite Hcw in Hns. apply neighbors_Ok in Hns as [Hns _].
      apply Hns in Hz as (? & ? & _). done.
  - apply (IH _ _ _ _ Hwf1) in Hrun; [done| |by rewrite Hcw|done].
    rewrite Hcw. intros x' y' Hin. apply Hvalid. by right.
Qed.

Lemma ac3_keeps (fuel : nat) (b : bool) s s' (d : gmap Var.t string) :
  well_formed s →
  ac3 fuel None s = Ok (b, s') →
  solution (crossword s) d → drawn_from s d → drawn_from s' d.
Proof.
  intros Hwf Hrun Hsol Hdrawn. unfold ac3 in Hrun.
  destruct (all_arcs_total s Hwf) as (arcs & Harcs & Hvalid).
  rewrite (bind_run _ _ _ _ _ Harcs) in Hrun.
  by eapply ac3_loop_keeps.
Qed.

(** X12.  [ac3()] removes no word of a solution.  On the creator of a
    built crossword with node-consistent domains, an assignment that
    solves the crossword and takes every word from the domains still takes
    every word from the domains [ac3] leaves; so if such an assignment
    exists, [ac3] returns [True]. *)
Theorem ac3_keeps_solutions (fuel : nat) (b : bool) (s s' : state)
    (d : gmap Var.t string) :
  well_formed s →
  ac3 fuel None s = Ok (b, s') →
  solution (crossword s) d → drawn_from s d →
  b = true ∧ drawn_from s' d.
Proof.
  intros Hwf Hrun Hsol Hdrawn.
  pose proof (ac3_keeps _ _ _ _ _ Hwf Hrun Hsol Hdrawn) as Hdrawn'.
  split; [|done]. destruct b; [done|exfalso].
  pose proof (ac3_prunes _ _ _ _ _ Hrun) as Hprunes.
  pose proof (prunes_well_formed _ _ Hwf Hprunes) as (_ & _ & Hdom & _).
  destruct Hprunes as (Hcw & _).
  unfold ac3 in Hrun. apply bind_Ok in Hrun as (arcs & s1 & _ & Hrun).
  apply ac3_loop_false in Hrun as [x Hx].
  assert (x ∈ variables (crossword s)) as Hxv.
  { rewrite <- Hcw. apply Hdom. eauto. }
  destruct Hsol as (Hcomplete & _). destruct (Hcomplete x Hxv) as [w Hw].
  by pose proof (Hdrawn' x w ∅ Hw Hx) as ?%elem_of_empty.
Qed.

(** ** What a refusal by [consistent] means *)

Lemma check_neighbors_false (d : gmap Var.t string) (v : Var.t)
    (value : string) (ns : list Var.t) s s' :
  check_neighbors d v value ns s = Ok (false, s') →
  ∃ n nw ix iy,
    n ∈ ns ∧ d !! n = Some nw
    ∧ overlaps (crossword s) !! (v, n) = Some (Some (ix, iy))
    ∧ ¬ agree ix iy value nw.
Proof.
  induction ns as [|n ns IH]; simpl; [done|].
  destruct (d !! n) as [nw|] eqn:Hn.
  - intros H.
    apply bind_Ok in H as (o & s1 & [Ho ->]%overlap_of_Ok & H).
    apply bind_Ok in H as (ix & s1 & [[k' ->] ->]%subscript0_Ok & H).
    apply bind_Ok in H as (ca & s1 & [Ha ->]%str_index_Ok & H).
    apply bind_Ok in H as (iy & s1 & [[k Heq] ->]%subscript1_Ok & H).
    injection Heq as <- ->.
    apply bind_Ok in H as (cb & s1 & [Hb ->]%str_index_Ok & H).
    destruct (decide (ca ≠ cb)) as [Hne|].
    + exists n, nw, ix, iy. split; [left|]. split; [done|]. split; [done|].
      intros (c & Hc1 & Hc2). congruence.
    + destruct (IH H) as (n' & nw' & ix' & iy' & Hin & Hrest).
      exists n', nw', ix', iy'. split; [by right|done].
  - intros H. destruct (IH H) as (n' & nw' & ix' & iy' & Hin & Hrest).
    exists n', nw', ix', iy'. split; [by right|done].
Qed.

Lemma check_items_false (d : gmap Var.t string)
    (items : list (Var.t * string)) s s' :
  check_items d items s = Ok (false, s') →
  ∃ v w,
    (v, w) ∈ items
    ∧ (Var.length v ≠ String.length w
       ∨ ∃ ns n nw ix iy,
           neighbors (crossword s) v = Ok ns ∧ n ∈ ns ∧ d !! n = Some nw
           ∧ overlaps (crossword s) !! (v, n) = Some (Some (ix, iy))
           ∧ ¬ agree ix iy w nw).
Proof.
  induction items as [|[v w] items IH]; simpl; [done|].
  destruct (decide (Var.length v ≠ String.length w)) as [Hlen|_].
  { intros _. exists v, w. split; [left|by left]. }
  intros H.
  apply bind_Ok in H as (ns & s1 & [Hns ->]%neighbors_of_Ok & H).
  apply bind_Ok in H as (ok & s1 & Hok & H).
  pose proof (read_only_check_neighbors _ _ _ _ _ _ _ Hok) as ->.
  destruct ok.
  - destruct (IH H) as (v' & w' & Hin & Hrest).
    exists v', w'. split; [by right|done].
  - apply check_neighbors_false in Hok
      as (n & nw & ix & iy & Hin%elem_of_elements & Hn & Ho & Hag).
    exists v, w. split; [left|]. right. by exists ns, n, nw, ix, iy.
Qed.

Lemma distinct_size (d : gmap Var.t string) :
  distinct_words d →
  ¬ size (list_to_set (map_to_list d).*2 : gset string) < size d.
Proof.
  intros Hdistinct.
  assert (NoDup (map_to_list d).*2) as Hnodup.
  { apply NoDup_fmap_2_strong; [|apply NoDup_map_to_list].
    intros [v1 w1] [v2 w2] H1%elem_of_map_to_list H2%elem_of_map_to_list.
    simpl. intros ->. f_equal. by eapply Hdistinct. }
  rewrite size_list_to_set by done.
  rewrite length_fmap, length_map_to_list. lia.
Qed.

Lemma consistent_false (a : loc) (d : gmap Var.t string) s s' :
  consistent a s = Ok (false, s') →
  dicts s !! a = Some d →
  (∀ v, is_Some (d !! v) → v ∈ variables (crossword s)) →
  ∀ d', d ⊆ d' → ¬ consistent_assignment (crossword s) d'.
Proof.
  unfold consistent. intros H Hd Hkeys d' Hsub (Hdistinct & Hfit & Hagree).
  apply bind_Ok in H as (d0 & s1 & [Hd0 ->]%dict_of_Ok & H).
  rewrite Hd in Hd0. injection Hd0 as <-.
  assert (∀ v w, d !! v = Some w → d' !! v = Some w) as Hup.
  { intros v w Hvw. by eapply lookup_weaken. }
  destruct (decide (size _ < size d)) as [Hsize|_].
  { revert Hsize. apply distinct_size. intros v1 v2 w H1 H2.
    eapply Hdistinct; by apply Hup. }
  apply check_items_false in H as (v & w & Hvw%elem_of_map_to_list & H).
  destruct H as [Hlen|(ns & n & nw & ix & iy & Hns & Hn & Hnw & Ho & Hag)].
  - apply Hlen. symmetry. by apply Hfit, Hup.
  - apply neighbors_Ok in Hns as [Hns _]. apply Hns in Hn as (Hnv & Hne & _).
    apply Hag. apply (Hagree v n ix iy w nw); auto.
Qed.

(** X13.  What [consistent] decides.  It changes no state.  When it
    returns [True] the assignment has no word twice, every word has the
    length of its variable, and at every overlap of two assigned variables
    the two words hold the same character.  When it returns [False], and
    the assigned variables are variables of the crossword, the assignment
    breaks one of these three conditions, and so does every assignment
    that extends it. *)
Theorem consistent_spec (a : loc) (b : bool) (s s' : state) :
  consistent a s = Ok (b, s') →
  s' = s
  ∧ ∃ d, dicts s !! a = Some d
         ∧ (b = true → consistent_assignment (crossword s) d)
         ∧ (b = false →
            (∀ v, is_Some (d !! v) → v ∈ variables (crossword s)) →
            ∀ d', d ⊆ d' → ¬ consistent_assignment (crossword s) d').
Proof.
  intros H. pose proof (read_only_consistent a s b s' H) as ->.
  split; [done|].
  assert (∃ d, dicts s !! a = Some d) as [d Hd].
  { unfold consistent in H.
    apply bind_Ok in H as (d & s1 & [Hd _]%dict_of_Ok & _). eauto. }
  exists d. split; [done|]. split.
  - intros ->. apply consistent_true in H as (d0 & Hd0 & H). congruence.
  - intros ->. by eapply consistent_false.
Qed.

(** ** Completeness of the search *)

Lemma try_values_None (rec : loc → M (option loc)) (a : loc) (var : Var.t)
    (values : list string) (da : gmap Var.t string) :
  (∀ a' s r s', rec a' s = Ok (r, s') → frame s s') →
  ∀ s s', try_values rec a var values s = Ok (None, s') →
    dicts s !! a = Some da →
    ∀ w, w ∈ values →
      ∃ l s1,
        frame s s1
        ∧ dicts s1 !! l = Some (<[var := w]> da)
        ∧ (consistent l s1 = Ok (false, s1)
           ∨ ∃ s2, rec l s1 = Ok (None, s2)).
Proof.
  intros Hrec. induction values as [|value values IH]; intros s s' H Hda w Hw.
  { by apply elem_of_nil in Hw. }
  simpl in H.
  apply bind_Ok in H as (l & s1 & Hcopy & H).
  apply bind_Ok in H as ([] & s2 & Hset & H).
  destruct (extend_copy _ _ _ _ _ _ _ Hcopy Hset)
    as (Hframe & Hfresh & d0 & Hd0 & Hl).
  rewrite Hda in Hd0. injection Hd0 as <-.
  apply bind_Ok in H as (ok & s3 & Hok & H).
  pose proof (read_only_consistent _ _ _ _ Hok) as ->.
  assert (∀ s4, frame s2 s4 →
            try_values rec a var values s4 = Ok (None, s') →
            w ∈ values →
            ∃ l s1, frame s s1 ∧ dicts s1 !! l = Some (<[var := w]> da)
                    ∧ (consistent l s1 = Ok (false, s1)
                       ∨ ∃ s2, rec l s1 = Ok (None, s2))) as Hrest.
  { intros s4 Hframe4 Hrun Hin.
    destruct (IH s4 s' Hrun) with (w := w) as (l' & s1' & Hf & Hrest);
      [|done|].
    - apply Hframe4, Hframe, Hda.
    - exists l', s1'. split; [|done].
      eapply frame_trans; [|exact Hf]. by eapply frame_trans. }
  destruct ok.
  - apply bind_Ok in H as (result & s4 & Hresult & H).
    destruct result as [r|]; [done|].
    apply elem_of_cons in Hw as [->|Hw].
    + exists l, s2. split; [done|]. split; [done|]. right. eauto.
    + apply (Hrest s4); [by eapply Hrec|done..].
  - apply elem_of_cons in Hw as [->|Hw].
    + exists l, s2. split; [done|]. split; [done|]. by left.
    + apply (Hrest s2); [apply frame_refl|done..].
Qed.

Lemma drawn_from_frame (s s' : state) (d : gmap Var.t string) :
  frame s s' → drawn_from s d → drawn_from s' d.
Proof. intros (_ & Hds & _) H v w dv. rewrite Hds. apply H. Qed.

Lemma backtrack_complete (fuel : nat) :
  ∀ a s s' (da : gmap Var.t string),
    backtrack fuel a s = Ok (None, s') →
    dicts s !! a = Some da →
    (∀ v, is_Some (da !! v) → v ∈ variables (crossword s)) →
    ∀ d, da ⊆ d → solution (crossword s) d → drawn_from s d → False.
Proof.
  induction fuel as [|fuel IH]; intros a s s' da H Hda Hkeys d Hsub Hsol Hdrawn;
    [done|].
  simpl in H.
  apply bind_Ok in H as ([] & s0 & Henter & H).
  apply enter_backtrack_frame in Henter as Hframe0.
  pose proof Hframe0 as (Hcw0 & Hds0 & Hdicts0).
  apply bind_Ok in H as (complete & s1 & Hcomplete & H).
  apply assignment_complete_Ok in Hcomplete as (-> & _).
  destruct complete; [done|].
  apply bind_Ok in H as (var & s1 & Hsel & H).
  apply select_unassigned_variable_Ok in Hsel
    as (-> & d0 & Hd0 & Hvar & Hnone).
  rewrite (Hdicts0 _ _ Hda) in Hd0. injection Hd0 as <-.
  apply bind_Ok in H as (values & s1 & Hord & H).
  apply order_domain_values_Ok in Hord
    as (-> & d0 & dv & _ & Hdv & Hperm & _).
  destruct Hsol as (Hall & Hcons).
  rewrite Hcw0 in Hvar. destruct (Hall var Hvar) as [w Hw].
  rewrite Hds0 in Hdv. pose proof (Hdrawn var w dv Hw Hdv) as Hin.
  apply elem_of_elements in Hin. rewrite <- Hperm in Hin.
  destruct (try_values_None (backtrack fuel) a var values da
              (backtrack_frame fuel) s0 s' H (Hdicts0 _ _ Hda) w Hin)
    as (l & s1 & Hframe1 & Hl & Hcase).
  pose proof (frame_trans _ _ _ Hframe0 Hframe1) as (Hcw1 & Hds1 & _).
  assert (<[var := w]> da ⊆ d) as Hsub'.
  { by apply insert_subseteq_l. }
  assert (∀ v, is_Some (<[var := w]> da !! v) → v ∈ variables (crossword s1))
    as Hkeys'.
  { intros v. rewrite Hcw1. destruct (decide (v = var)) as [->|Hne]; [done|].
    rewrite lookup_insert_ne by done. apply Hkeys. }
  destruct Hcase as [Hfalse|[s2 Hrec]].
  - apply (consistent_false _ _ _ _ Hfalse Hl Hkeys' d Hsub').
    by rewrite Hcw1.
  - apply (IH _ _ _ _ Hrec Hl Hkeys' d Hsub').
    + by rewrite Hcw1.
    + intros v w' dv'. rewrite Hds1. apply Hdrawn.
Qed.

(** When [solve] returns [None] on a built crossword there is no solution. *)
Lemma solve_complete (contents : list string)
    (vocabulary : gset string) (cw : Crossword) (fuel : nat) (s' : state)
    (d : gmap Var.t string) :
  Crossword_init contents vocabulary = Ok cw →
  solve fuel (CrosswordCreator_init cw) = Ok (None, s') →
  (∀ v w, v ∈ variables cw → d !! v = Some w → w ∈ vocabulary) →
  ¬ solution cw d.
Proof.
  intros Hbuilt H Hwords Hsol. unfold solve in H.
  apply bind_Ok in H as ([] & s1 & Hnode & H).
  destruct (node_consistent_well_formed _ _ _ _ Hbuilt Hnode)
    as (Hwf & Hcw1 & _ & _ & Hds1).
  apply bind_Ok in H as (b & s2 & Hac3 & H).
  pose proof (ac3_prunes _ _ _ _ _ Hac3) as Hprunes.
  pose proof (prunes_well_formed _ _ Hwf Hprunes) as Hwf2.
  destruct Hprunes as (Hcw2 & _).
  apply bind_Ok in H as (a & s3 & [-> ->]%dict_new_Ok & H).
  pose proof (Crossword_init_Ok _ _ _ Hbuilt) as (_ & _ & _ & Hvoc & _).
  assert (drawn_from s1 d) as Hdrawn1.
  { intros v w dv Hw Hdv.
    assert (v ∈ variables cw) as Hv.
    { rewrite <- Hcw1. destruct Hwf as (_ & _ & Hdom & _). apply Hdom. eauto. }
    destruct (Hds1 v Hv) as (dv' & Hdv' & Hin). rewrite Hdv in Hdv'.
    injection Hdv' as <-. apply Hin. rewrite Hvoc.
    split; [by eapply Hwords|].
    destruct Hsol as (_ & _ & Hfit & _). by apply Hfit. }
  assert (drawn_from s2 d) as Hdrawn2.
  { eapply ac3_keeps; [exact Hwf|exact Hac3|by rewrite Hcw1|done]. }
  eapply (backtrack_complete _ _ _ _ ∅ H).
  - simpl. by rewrite lookup_insert_eq.
  - intros v [w Hw]. by rewrite lookup_empty in Hw.
  - apply map_empty_subseteq.
  - simpl. rewrite Hcw2, Hcw1. exact Hsol.
  - done.
Qed.

(** X14.  [solve()] gives up only when there is nothing to find: on a
    crossword built from a structure, if it returns [None] then no
    assignment of vocabulary words to the variables is complete and
    consistent. *)
Theorem solve_None_no_solution (contents : list string)
    (vocabulary : gset string) (cw : Crossword) (fuel : nat) (s' : state)
    (d : gmap Var.t string) :
  Crossword_init contents vocabulary = Ok cw →
  solve fuel (CrosswordCreator_init cw) = Ok (None, s') →
  (∀ v w, v ∈ variables cw → d !! v = Some w → w ∈ vocabulary) →
  ¬ solution cw d.
Proof. exact (solve_complete contents vocabulary cw fuel s' d). Qed.

(** ** The example assignments *)

Lemma example_lookup (wa wd : string) (v : Var.t) (w : string) :
  ({[ Example.across := wa; Example.down := wd ]} : gmap Var.t string) !! v
  = Some w →
  (v = Example.across ∧ w = wa) ∨ (v = Example.down ∧ w = wd).
Proof.
  intros [[<- <-]|[_ [<- <-]%lookup_singleton_Some]]%lookup_insert_Some; auto.
Qed.

Lemma example_variables (v : Var.t) :
  v ∈ variables Example.puzzle → v = Example.across ∨ v = Example.down.
Proof.
  unfold Example.puzzle. cbn [variables].
  by intros [->%elem_of_singleton| ->%elem_of_singleton]%elem_of_union; auto.
Qed.

Lemma example_solution : solution Example.puzzle Example.filled.
Proof.
  split; [|split; [|split]].
  - intros v [-> | ->]%example_variables.
    + exists "CAT". vm_compute. reflexivity.
    + exists "AB". vm_compute. reflexivity.
  - intros v1 v2 w [[-> ->]|[-> ->]]%example_lookup
      [[-> Heq]|[-> Heq]]%example_lookup; done.
  - intros v w [[-> ->]|[-> ->]]%example_lookup; reflexivity.
  - intros x y ix iy wx wy _ _ Hne Ho
      [[-> ->]|[-> ->]]%example_lookup [[-> ->]|[-> ->]]%example_lookup;
      try done.
    + assert (overlaps Example.puzzle !! (Example.across, Example.down)
              = Some (Some (1, 0))) as Ho' by (vm_compute; reflexivity).
      rewrite Ho' in Ho. injection Ho as <- <-.
      exists "A"%char. split; reflexivity.
    + assert (overlaps Example.puzzle !! (Example.down, Example.across)
              = Some (Some (0, 1))) as Ho' by (vm_compute; reflexivity).
      rewrite Ho' in Ho. injection Ho as <- <-.
      exists "A"%char. split; reflexivity.
Qed.

Lemma example_drawn_from : drawn_from Example.searching Example.filled.
Proof.
  intros v w dv [[-> ->]|[-> ->]]%example_lookup Hdv;
    unfold Example.searching in Hdv; cbn [domains] in Hdv.
  - rewrite lookup_insert_eq in Hdv. injection Hdv as <-. set_solver.
  - rewrite lookup_insert_ne, lookup_singleton_eq in Hdv by done.
    injection Hdv as <-. set_solver.
Qed.

Lemma ac3_keeps_solutions_witness :
  let out :=
    returned (ac3 4 None Example.searching) (false, Example.searching) in
  ac3 4 None Example.searching = Ok (out.1, out.2)
  ∧ out.1 = true ∧ drawn_from out.2 Example.filled.
Proof.
  intros out.
  assert (ac3 4 None Example.searching = Ok (out.1, out.2)) as Hrun
    by (vm_compute; reflexivity).
  split; [exact Hrun|].
  exact (ac3_keeps_solutions 4 _ _ _ Example.filled example_well_formed Hrun
           example_solution example_drawn_from).
Defined.

Lemma consistent_spec_witness :
  let out := returned (consistent 1 Example.clashing) (true, Example.clashing) in
  consistent 1 Example.clashing = Ok (false, out.2)
  ∧ out.2 = Example.clashing
  ∧ ∃ d, dicts Example.clashing !! 1%positive = Some d
         ∧ (false = true → consistent_assignment (crossword Example.clashing) d)
         ∧ (false = false →
            (∀ v, is_Some (d !! v) → v ∈ variables (crossword Example.clashing)) →
            ∀ d', d ⊆ d' → ¬ consistent_assignment (crossword Example.clashing) d').
Proof.
  intros out.
  assert (consistent 1 Example.clashing = Ok (false, out.2)) as Hrun
    by (vm_compute; reflexivity).
  split; [exact Hrun|].
  exact (consistent_spec 1 false Example.clashing out.2 Hrun).
Defined.

Lemma solve_None_no_solution_witness :
  let start := CrosswordCreator_init Example.unsolvable in
  let out := returned (solve 4 start) (None, start) in
  solve 4 start = Ok (None, out.2)
  ∧ (∀ v w, v ∈ variables Example.unsolvable → Example.clash !! v = Some w →
       w ∈ Example.short_vocabulary)
  ∧ ¬ solution Example.unsolvable Example.clash.
Proof.
  intros start out.
  assert (solve 4 start = Ok (None, out.2)) as Hrun
    by (vm_compute; reflexivity).
  assert (∀ v w, v ∈ variables Example.unsolvable → Example.clash !! v = Some w →
            w ∈ Example.short_vocabulary) as Hwords.
  { intros v w _ [[-> ->]|[-> ->]]%example_lookup;
      unfold Example.short_vocabulary; set_solver. }
  split; [exact Hrun|]. split; [exact Hwords|].
  exact (solve_None_no_solution Example.contents Example.short_vocabulary
           Example.unsolvable 4 out.2 Example.clash example_unsolvable_built Hrun
           Hwords).
Defined.

(** ** Arc consistency after ac3 *)

Lemma built_mirrored (contents : list string) (vocabulary : gset string)
    (cw : Crossword) :
  Crossword_init contents vocabulary = Ok cw → mirrored cw.
Proof.
  intros (_ & _ & _ & _ & Hvars & Hlook)%Crossword_init_Ok x y p q Hx Hy Hne.
  rewrite !Hlook, !decide_True by done. intros [= Hxy]. f_equal.
  assert (∀ c c', c ∈ Var.cells x → c ∈ Var.cells y →
                  c' ∈ Var.cells x → c' ∈ Var.cells y → c = c') as Huniq.
  { intros c c'. rewrite Hvars in Hx, Hy.
    by apply (scan_shared_cell_unique (structure cw) (height cw) (width cw)
                x y). }
  destruct (overlap_entry_total x y) as [_ Hxy'].
  destruct (overlap_entry_total y x) as [_ Hyx].
  rewrite Hxy in Hxy'. destruct Hxy' as (c & [Hc1 F1] & [Hc2 F2]).
  destruct (overlap y x) as [[q' p']|].
  - destruct Hyx as (c' & [Hc1' F1'] & [Hc2' F2']).
    assert (c = c') as <-.
    { apply Huniq; by eapply list_elem_of_lookup_2. }
    assert (q' = q) as -> by (by apply (first_index_unique (Var.cells y) c)).
    assert (p' = p) as -> by (by apply (first_index_unique (Var.cells x) c)).
    done.
  - exfalso. apply (Hyx c); by eapply list_elem_of_lookup_2.
Qed.

Lemma agree_sym (ix iy : nat) (w w' : string) :
  agree ix iy w w' → agree iy ix w' w.
Proof. intros (c & H1 & H2). by exists c. Qed.

Lemma requeued_valid (cw : Crossword) (arcs : list (Var.t * Var.t))
    (x y : Var.t) (ns : gset Var.t) :
  arcs_valid cw ((x, y) :: arcs) → neighbors cw x = Ok ns →
  arcs_valid cw (arcs ++ ((fun neighbor => (neighbor, x))
                            <$> elements (ns ∖ {[ y ]}))).
Proof.
  intros Hvalid Hns x' y' [Hin|Hin]%elem_of_app.
  - apply Hvalid. by right.
  - apply list_elem_of_fmap in Hin as (z & [= -> ->] & Hz).
    apply elem_of_elements, elem_of_difference in Hz as [Hz _].
    apply neighbors_Ok in Hns as [Hns _].
    apply Hns in Hz as (? & ? & _).
    destruct (Hvalid x y) as (? & _); [left|done].
Qed.

Lemma pending_requeue (s : state) (x y : Var.t) (ix iy : nat)
    (dx dy dx' : gset string) (ns : gset Var.t)
    (arcs : list (Var.t * Var.t)) :
  pairs_total (crossword s) → mirrored (crossword s) →
  x ∈ variables (crossword s) → y ∈ variables (crossword s) → x ≠ y →
  overlaps (crossword s) !! (x, y) = Some (Some (ix, iy)) →
  domains s !! x = Some dx → domains s !! y = Some dy →
  (∀ w, w ∈ dx' ↔ w ∈ dx ∧ supported ix iy dy w) →
  neighbors (crossword s) x = Ok ns →
  pending ((x, y) :: arcs) s →
  pending (arcs ++ ((fun neighbor => (neighbor, x))
                      <$> elements (ns ∖ {[ y ]})))
    (with_domains s (<[x := dx']> (domains s))).
Proof.
  intros Hpairs Hmir Hx Hy Hne Ho Hdx Hdy Hdx' Hns Hpend u v.
  simpl. intros Hu Hv Huv.
  apply neighbors_Ok in Hns as [Hns _].
  destruct (Hpairs u v Hu Hv Huv) as [[[iu iv]|] Huv'].
  2:{ right. intros ? ? ? ?. simpl. congruence. }
  destruct (decide (v = x)) as [->|Hvx].
  - destruct (decide (u = y)) as [->|Huy].
    + destruct (Hpend y x Hu Hv Huv) as [Hin|Hok].
      { left. apply elem_of_app. left.
        apply elem_of_cons in Hin as [[= Heq _]|Hin]; done. }
      right. intros iy' ix' dy' dx''. simpl.
      rewrite lookup_insert_eq, lookup_insert_ne by done.
      intros Ho' Hdy' [= <-] w' Hw'.
      rewrite Hdy in Hdy'. injection Hdy' as <-.
      pose proof (Hmir _ _ _ _ Hu Hv Huv Ho') as Ho''.
      rewrite Ho in Ho''. injection Ho'' as <- <-.
      destruct (Hok iy ix dy dx Ho' Hdy Hdx w' Hw') as (w & Hw & Hag).
      exists w. split; [|done]. apply Hdx'. split; [done|].
      exists w'. split; [done|]. by apply agree_sym.
    + left. apply elem_of_app. right. apply list_elem_of_fmap.
      exists u. split; [done|].
      apply elem_of_elements, elem_of_difference.
      split; [|by rewrite elem_of_singleton].
      apply Hns. eauto.
  - destruct (Hpend u v Hu Hv Huv) as [Hin|Hok].
    + apply elem_of_cons in Hin as [[= -> ->]|Hin].
      * right. intros ix' iy' dx'' dy'. simpl.
        rewrite lookup_insert_eq, lookup_insert_ne by done.
        intros Ho' [= <-] Hdy' w Hw.
        rewrite Hdy in Hdy'. injection Hdy' as <-.
        rewrite Ho in Ho'. injection Ho' as <- <-. by apply Hdx'.
      * left. apply elem_of_app. by left.
    + right. intros iu' iv' du dv. simpl.
      rewrite (lookup_insert_ne _ x v) by done.
      intros Ho' Hdu Hdv w Hw.
      destruct (decide (u = x)) as [->|Hux].
      * rewrite lookup_insert_eq in Hdu. injection Hdu as <-.
        apply Hdx' in Hw as [Hw _]. by eapply Hok.
      * rewrite lookup_insert_ne in Hdu by done. by eapply Hok.
Qed.

Lemma ac3_loop_arc_consistent (fuel : nat) :
  ∀ arcs s s',
    well_formed s → mirrored (crossword s) →
    arcs_valid (crossword s) arcs → pending arcs s →
    ac3_loop fuel arcs s = Ok (true, s') →
    arc_consistent s'.
Proof.
  induction fuel as [|fuel IH]; intros arcs s s' Hwf Hmir Hvalid Hpend Hrun;
    [done|].
  simpl in Hrun. destruct arcs as [|[x y] arcs].
  { injection Hrun as <-. intros u v Hu Hv Hne.
    destruct (Hpend u v Hu Hv Hne) as [[]%elem_of_nil|]; done. }
  destruct (Hvalid x y) as (Hx & Hy & Hne); [left|].
  apply bind_Ok in Hrun as (revised & s1 & Hrev & Hrun).
  pose proof (revise_prunes _ _ _ _ _ Hrev) as Hprunes.
  pose proof (prunes_well_formed _ _ Hwf Hprunes) as Hwf1.
  pose proof Hprunes as (Hcw & _).
  pose proof Hwf as (Hpairs & Hrange & Hdom & Hnode).
  destruct (Hpairs x y Hx Hy Hne) as [o Ho].
  pose proof (revise_run s x y o Ho) as Hspec.
  assert (arc_ok s x y → pending arcs s) as Hdrop.
  { intros Hok u v Hu Hv Huv.
    destruct (Hpend u v Hu Hv Huv) as [Hin|]; [|by right].
    apply elem_of_cons in Hin as [[= -> ->]|Hin]; [by right|by left]. }
  assert (arcs_valid (crossword s) arcs) as Hvalid'.
  { intros x' y' Hin. apply Hvalid. by right. }
  destruct o as [[ix iy]|].
  - pose proof Hx as [dx Hdx]%Hdom. pose proof Hy as [dy Hdy]%Hdom.
    pose proof (Hrange _ _ _ _ Ho) as [Hix Hiy].
    destruct (Hspec dx dy Hne Hdx Hdy) as (dx' & b & Hrun' & Hdx' & Hb).
    { intros w Hw. by rewrite (Hnode x dx w). }
    { intros w Hw. by rewrite (Hnode y dy w). }
    rewrite Hrev in Hrun'. injection Hrun' as <- Hs1.
    destruct revised.
    + apply bind_Ok in Hrun as (dx0 & s2 & [Hdx0 ->]%domain_of_Ok & Hrun).
      destruct (decide (dx0 = ∅)); [done|].
      apply bind_Ok in Hrun as (ns & s2 & [Hns ->]%neighbors_of_Ok & Hrun).
      rewrite Hcw in Hns.
      apply (IH _ _ _ Hwf1) in Hrun; [done|by rewrite Hcw| |].
      * rewrite Hcw. by apply requeued_valid.
      * rewrite Hs1. by eapply pending_requeue.
    + apply revise_Ok in Hrev as [[_ ->]|[? _]]; [|done].
      apply (IH _ _ _ Hwf) in Hrun; [done..|].
      apply Hdrop. intros ix' iy' dx0 dy0 Ho' Hdx0 Hdy0 w Hw.
      rewrite Ho in Ho'. injection Ho' as <- <-.
      rewrite Hdx in Hdx0. injection Hdx0 as <-.
      rewrite Hdy in Hdy0. injection Hdy0 as <-.
      destruct (decide (w ∈ dx')) as [Hin|Hout]; [by apply Hdx'|].
      assert (false = true) as [=]. apply Hb. eauto.
  - rewrite Hrev in Hspec. injection Hspec as -> ->.
    apply (IH _ _ _ Hwf) in Hrun; [done..|].
    apply Hdrop. intros ix' iy' dx0 dy0 Ho'. congruence.
Qed.

(** X15.  When [ac3()] returns [True] every arc is consistent.  On a
    creator whose crossword is built from a structure and whose domains are
    node consistent, after [ac3] has returned [True], for any two distinct
    variables that overlap, every word left in the domain of the one agrees
    at the overlap with some word left in the domain of the other. *)
Theorem ac3_arc_consistent (contents : list string)
    (vocabulary : gset string) (fuel : nat) (s s' : state) :
  Crossword_init contents vocabulary = Ok (crossword s) →
  well_formed s →
  ac3 fuel None s = Ok (true, s') →
  arc_consistent s'.
Proof.
  intros Hbuilt Hwf Hrun. unfold ac3 in Hrun.
  destruct (all_arcs_total s Hwf) as (arcs & Harcs & Hvalid).
  rewrite (bind_run _ _ _ _ _ Harcs) in Hrun.
  pose proof (built_mirrored _ _ _ Hbuilt) as Hmir.
  apply (ac3_loop_arc_consistent _ _ _ _ Hwf Hmir Hvalid) in Hrun; [done|].
  apply all_arcs_Ok in Harcs as (_ & _ & Hin).
  destruct Hwf as (Hpairs & _ & Hdom & _).
  intros x y Hx Hy Hne.
  destruct (Hpairs x y Hx Hy Hne) as [[[ix iy]|] Ho].
  2:{ right. intros ? ? ? ?. congruence. }
  left. apply Hin. split; [by apply Hdom|].
  destruct (neighbors_total _ x Hpairs Hx) as [ns Hns].
  exists ns. split; [done|]. apply neighbors_Ok in Hns as [Hns _].
  apply Hns. split; [done|]. split; [done|]. eauto.
Qed.

Lemma ac3_arc_consistent_witness :
  let out :=
    returned (ac3 4 None Example.searching) (false, Example.searching) in
  ac3 4 None Example.searching = Ok (true, out.2)
  ∧ arc_consistent out.2.
Proof.
  intros out.
  assert (ac3 4 None Example.searching = Ok (true, out.2)) as Hrun
    by (vm_compute; reflexivity).
  split; [exact Hrun|].
  exact (ac3_arc_consistent Example.contents Example.vocabulary 4
           Example.searching out.2 example_puzzle_built example_well_formed
           Hrun).
Defined.

(** ** The search returns *)

Lemma foldM_total {A B : Type} (body : B → A → M B) (l : list A) s :
  (∀ acc x, x ∈ l → ∃ acc', body acc x s = Ok (acc', s)) →
  ∀ acc, ∃ acc', foldM body acc l s = Ok (acc', s).
Proof.
  induction l as [|x l IH]; intros Hbody acc; simpl.
  - by exists acc.
  - destruct (Hbody acc x) as [acc1 H1]; [left|].
    rewrite (bind_run _ _ _ _ _ H1). apply IH.
    intros acc' x' Hx'. apply Hbody. by right.
Qed.

Lemma overlap_of_run (x y : Var.t) (o : option (nat * nat)) s :
  overlaps (crossword s) !! (x, y) = Some o → overlap_of x y s = Ok (o, s).
Proof. intros H. by apply overlap_of_Ok. Qed.

Lemma dict_of_run (a : loc) (d : gmap Var.t string) s :
  dicts s !! a = Some d → dict_of a s = Ok (d, s).
Proof. intros H. by apply dict_of_Ok. Qed.

Lemma count_conflicts_total (var : Var.t) (d : gmap Var.t string)
    (value : string) s :
  well_formed s → mirrored (crossword s) →
  var ∈ variables (crossword s) → String.length value = Var.length var →
  ∃ n, count_conflicts var d value s = Ok (n, s).
Proof.
  intros (Hpairs & Hrange & Hdom & Hnode) Hmir Hvar Hlen.
  unfold count_conflicts.
  destruct (neighbors_of_total var s Hpairs Hvar) as (ns & Hns & Hns').
  run Hns. apply neighbors_Ok in Hns' as [Hns' _].
  apply foldM_total. intros count neighbor Hin%elem_of_elements.
  apply Hns' in Hin as (Hn & Hne & [iy ix] & Ho).
  destruct (decide (d !! neighbor = None)); [|by eexists].
  pose proof (Hmir _ _ _ _ Hn Hvar Hne Ho) as Ho'.
  run (overlap_of_run _ _ _ s Ho').
  pose proof Hn as [dn Hdn]%Hdom. run (domain_of_run _ _ _ Hdn).
  destruct (Hrange _ _ _ _ Ho') as [Hix Hiy].
  match goal with
  | |- context [foldM ?body 0 (elements dn)] =>
      destruct (foldM_total body (elements dn) s) with (acc := 0)
        as [n Hn']
  end.
  - intros n word Hword%elem_of_elements.
    run (eq_refl : subscript1 (Some (ix, iy)) s = Ok (iy, s)).
    destruct (string_get_lt word iy) as [ca Ha].
    { by rewrite (Hnode _ _ _ Hdn Hword). }
    run (str_index_run _ _ _ s Ha).
    run (eq_refl : subscript0 (Some (ix, iy)) s = Ok (ix, s)).
    destruct (string_get_lt value ix) as [cb Hb]; [by rewrite Hlen|].
    run (str_index_run _ _ _ s Hb). by eexists.
  - run Hn'. by eexists.
Qed.

Lemma order_domain_values_total (var : Var.t) (a : loc)
    (d : gmap Var.t string) s :
  well_formed s → mirrored (crossword s) →
  dicts s !! a = Some d → var ∈ variables (crossword s) →
  ∃ values, order_domain_values var a s = Ok (values, s).
Proof.
  intros Hwf Hmir Hd Hvar. pose proof Hwf as (_ & _ & Hdom & Hnode).
  unfold order_domain_values. run (dict_of_run _ _ _ Hd).
  pose proof Hvar as [dv Hdv]%Hdom. run (domain_of_run _ _ _ Hdv).
  match goal with
  | |- context [foldM ?body [] (elements dv)] =>
      destruct (foldM_total body (elements dv) s) with (acc := @nil (nat * string))
        as [keyed Hkeyed]
  end.
  - intros keyed value Hvalue%elem_of_elements.
    destruct (count_conflicts_total var d value s) as [n Hn]; [done..| |].
    { by apply (Hnode _ _ _ Hdv). }
    run Hn. by eexists.
  - run Hkeyed. by eexists.
Qed.

Lemma assignment_complete_total (a : loc) (d : gmap Var.t string) s :
  dicts s !! a = Some d →
  ∃ b, assignment_complete a s = Ok (b, s).
Proof.
  intros Hd. unfold assignment_complete. run (dict_of_run _ _ _ Hd).
  by eexists.
Qed.

Lemma check_neighbors_total (d : gmap Var.t string) (v : Var.t)
    (value : string) (ns : list Var.t) s :
  overlaps_in_range (crossword s) → mirrored (crossword s) →
  v ∈ variables (crossword s) → String.length value = Var.length v →
  lengths_fit d →
  (∀ n, n ∈ ns →
     n ∈ variables (crossword s) ∧ n ≠ v
     ∧ ∃ pq, overlaps (crossword s) !! (n, v) = Some (Some pq)) →
  ∃ b, check_neighbors d v value ns s = Ok (b, s).
Proof.
  intros Hrange Hmir Hv Hlen Hfit.
  induction ns as [|n ns IH]; intros Hns; simpl; [by eexists|].
  assert (∃ b, check_neighbors d v value ns s = Ok (b, s)) as Hrest.
  { apply IH. intros n' Hn'. apply Hns. by right. }
  destruct (d !! n) as [nw|] eqn:Hnw; [|done].
  destruct (Hns n) as (Hn & Hne & [iy ix] & Ho); [left|].
  pose proof (Hmir _ _ _ _ Hn Hv Hne Ho) as Ho'.
  destruct (Hrange _ _ _ _ Ho') as [Hix Hiy].
  run (overlap_of_run _ _ _ s Ho').
  run (eq_refl : subscript0 (Some (ix, iy)) s = Ok (ix, s)).
  destruct (string_get_lt value ix) as [ca Ha]; [by rewrite Hlen|].
  run (str_index_run _ _ _ s Ha).
  run (eq_refl : subscript1 (Some (ix, iy)) s = Ok (iy, s)).
  destruct (string_get_lt nw iy) as [cb Hb]; [by rewrite (Hfit _ _ Hnw)|].
  run (str_index_run _ _ _ s Hb).
  destruct (decide (ca ≠ cb)); [by eexists|done].
Qed.

Lemma check_items_total (d : gmap Var.t string)
    (items : list (Var.t * string)) s :
  well_formed s → mirrored (crossword s) → lengths_fit d →
  (∀ v w, (v, w) ∈ items → v ∈ variables (crossword s)) →
  ∃ b, check_items d items s = Ok (b, s).
Proof.
  intros Hwf Hmir Hfit. pose proof Hwf as (Hpairs & Hrange & _).
  induction items as [|[v w] items IH]; intros Hitems; simpl; [by eexists|].
  destruct (decide (Var.length v ≠ String.length w)) as [|Hlen];
    [by eexists|].
  assert (v ∈ variables (crossword s)) as Hv by (apply (Hitems v w); left).
  destruct (neighbors_of_total v s Hpairs Hv) as (ns & Hns & Hns').
  run Hns. apply neighbors_Ok in Hns' as [Hns' _].
  destruct (check_neighbors_total d v w (elements ns) s) as [ok Hok];
    [done|done|done| |done| |].
  { destruct (decide (String.length w = Var.length v)); [done|lia]. }
  { intros n Hn%elem_of_elements. by apply Hns'. }
  run Hok. destruct ok; [|by eexists].
  apply IH. intros v' w' Hin. apply (Hitems v' w'). by right.
Qed.

Lemma from_domains_fit (s : state) (d : gmap Var.t string) :
  node_consistent s → from_domains s d → lengths_fit d.
Proof.
  intros Hnode Hfrom v w Hvw.
  destruct (Hfrom v w Hvw) as (_ & dv & Hdv & Hw). by eapply Hnode.
Qed.

Lemma consistent_total (a : loc) (d : gmap Var.t string) s :
  well_formed s → mirrored (crossword s) →
  dicts s !! a = Some d → from_domains s d →
  ∃ b, consistent a s = Ok (b, s).
Proof.
  intros Hwf Hmir Hd Hfrom. unfold consistent. run (dict_of_run _ _ _ Hd).
  destruct (decide (size _ < size d)); [by eexists|].
  apply check_items_total; [done..| |].
  - destruct Hwf as (_ & _ & _ & Hnode). by eapply from_domains_fit.
  - intros v w Hvw%elem_of_map_to_list. by destruct (Hfrom v w Hvw).
Qed.

Lemma try_values_total (rec : loc → M (option loc)) (a : loc) (var : Var.t)
    (da : gmap Var.t string) (s0 : state) (values : list string) :
  (∀ a' s r s', rec a' s = Ok (r, s') → frame s s') →
  (∀ l s1 w, frame s0 s1 → w ∈ values →
     dicts s1 !! l = Some (<[var := w]> da) →
     (∃ b, consistent l s1 = Ok (b, s1))
     ∧ ∃ r s2, rec l s1 = Ok (r, s2)) →
  dicts s0 !! a = Some da →
  ∀ s, frame s0 s → ∃ r s', try_values rec a var values s = Ok (r, s').
Proof.
  intros Hframe. induction values as [|value values IH];
    intros Hstep Hda s Hs; simpl; [by eexists _, _|].
  assert (∀ s', frame s0 s' →
            ∃ r s'', try_values rec a var values s' = Ok (r, s'')) as Hrest.
  { apply IH; [|done]. intros l s1 w Hs1 Hw. apply Hstep; [done|by right]. }
  pose proof Hs as (_ & _ & Hdicts).
  assert (dict_copy a s
          = Ok (fresh (dom (dicts s)),
                with_dicts s (<[fresh (dom (dicts s)) := da]> (dicts s))))
    as Hcopy.
  { apply dict_copy_Ok. exists da. auto. }
  run Hcopy.
  set (l := fresh (dom (dicts s))). set (s1 := with_dicts s _).
  assert (dict_set l var value s1
          = Ok (tt, with_dicts s1 (<[l := <[var := value]> da]> (dicts s1))))
    as Hset.
  { apply dict_set_Ok. exists da. split; [|done].
    unfold s1. simpl. by rewrite lookup_insert_eq. }
  run Hset. set (s2 := with_dicts s1 _).
  destruct (extend_copy _ _ _ _ _ _ _ Hcopy Hset)
    as (Hframe2 & _ & d0 & Hd0 & Hl).
  rewrite (Hdicts _ _ Hda) in Hd0. injection Hd0 as <-.
  assert (frame s0 s2) as Hs2 by (by eapply frame_trans).
  destruct (Hstep l s2 value Hs2) as ([ok Hok] & r & s3 & Hrec);
    [left|done|].
  run Hok. destruct ok.
  - run Hrec. destruct r as [r|]; [by eexists _, _|].
    apply Hrest. eapply frame_trans; [exact Hs2|]. by eapply Hframe.
  - by apply Hrest.
Qed.

Lemma from_domains_insert (s : state) (d : gmap Var.t string) (var : Var.t)
    (w : string) (dv : gset string) :
  from_domains s d → var ∈ variables (crossword s) →
  domains s !! var = Some dv → w ∈ dv →
  from_domains s (<[var := w]> d).
Proof.
  intros Hfrom Hvar Hdv Hw v w'. destruct (decide (v = var)) as [->|Hne].
  - rewrite lookup_insert_eq. intros [= <-]. eauto.
  - rewrite lookup_insert_ne by done. apply Hfrom.
Qed.

Lemma frame_well_formed (s s' : state) :
  frame s s' → well_formed s → well_formed s'.
Proof.
  intros (Hcw & Hds & _) (Hpairs & Hrange & Hdom & Hnode).
  unfold well_formed, node_consistent. rewrite Hcw, Hds. done.
Qed.

Lemma backtrack_total (fuel : nat) :
  ∀ a s (da : gmap Var.t string),
    well_formed s → mirrored (crossword s) →
    dicts s !! a = Some da → from_domains s da →
    size (variables (crossword s) ∖ dom da) < fuel →
    ∃ r s', backtrack fuel a s = Ok (r, s').
Proof.
  induction fuel as [|fuel IH]; intros a s da Hwf Hmir Hda Hfrom Hsize; [lia|].
  simpl.
  destruct (enter_backtrack s) as [[[] s0]| |] eqn:Henter; [|done..].
  run Henter. apply enter_backtrack_frame in Henter as Hframe0.
  pose proof Hframe0 as (Hcw0 & Hds0 & Hdicts0).
  pose proof (frame_well_formed _ _ Hframe0 Hwf) as Hwf0.
  pose proof (Hdicts0 _ _ Hda) as Hda0.
  destruct (assignment_complete_total a da s0 Hda0) as [complete Hcomplete].
  run Hcomplete.
  apply assignment_complete_Ok in Hcomplete as (_ & d0 & Hd0 & Hiff).
  rewrite Hda0 in Hd0. injection Hd0 as <-.
  destruct complete; [by eexists _, _|].
  assert (∃ x, x ∈ variables (crossword s0) ∧ da !! x = None) as (x & Hx & Hnone).
  { destruct (decide (set_Forall (fun v => is_Some (da !! v))
                        (variables (crossword s0)))) as [Hall|Hnot].
    - assert (false = true) as [=]. by apply Hiff.
    - apply not_set_Forall_Exists in Hnot as (x & Hx & Hnone); [|apply _].
      exists x. split; [done|]. by apply eq_None_not_Some. }
  destruct (select_unassigned_variable_least a da x s0 Hwf0 Hda0 Hx Hnone)
    as (var & Hsel & Hvar & Hvnone & _).
  run Hsel.
  destruct (order_domain_values_total var a da s0) as [values Hord];
    [done|by rewrite Hcw0|done..|].
  run Hord.
  apply order_domain_values_Ok in Hord as (_ & d0 & dv & _ & Hdv & Hperm & _).
  apply (try_values_total (backtrack fuel) a var da s0 values
           (backtrack_frame fuel)); [|done|apply frame_refl].
  intros l s1 w Hs1 Hw Hl.
  pose proof (frame_well_formed _ _ Hs1 Hwf0) as Hwf1.
  pose proof Hs1 as (Hcw1 & Hds1 & _).
  assert (from_domains s1 (<[var := w]> da)) as Hfrom1.
  { apply (from_domains_insert _ _ _ _ dv).
    - eapply from_domains_frame; [|exact Hfrom]. by eapply frame_trans.
    - by rewrite Hcw1.
    - by rewrite Hds1.
    - rewrite Hperm in Hw. by apply elem_of_elements. }
  split.
  - apply (consistent_total l (<[var := w]> da) s1 Hwf1);
      [by rewrite Hcw1, Hcw0|done..].
  - apply (IH l s1 (<[var := w]> da) Hwf1); [by rewrite Hcw1, Hcw0|done..|].
    rewrite Hcw1, Hcw0, dom_insert_L.
    assert (var ∈ variables (crossword s) ∖ dom da) as Hin.
    { apply elem_of_difference. split; [by rewrite <- Hcw0|].
      by apply not_elem_of_dom. }
    assert (variables (crossword s) ∖ ({[var]} ∪ dom da)
            ⊂ variables (crossword s) ∖ dom da) as Hsub by set_solver.
    apply subset_size in Hsub. lia.
Qed.

Lemma try_values_mono (rec rec' : loc → M (option loc)) (a : loc)
    (var : Var.t) (values : list string) :
  (∀ l s r, rec l s = Ok r → rec' l s = Ok r) →
  ∀ s r, try_values rec a var values s = Ok r →
    try_values rec' a var values s = Ok r.
Proof.
  intros Hrec. induction values as [|value values IH]; intros s r; simpl;
    [done|].
  unfold mbind, M_bind.
  destruct (dict_copy a s) as [[l s1]| |]; [|done..].
  destruct (dict_set l var value s1) as [[[] s2]| |]; [|done..].
  destruct (consistent l s2) as [[[] s3]| |]; [|by apply IH|done..].
  destruct (rec l s3) as [[result s4]| |] eqn:Hresult; [|done..].
  rewrite (Hrec _ _ _ Hresult). destruct result; [done|by apply IH].
Qed.

Lemma backtrack_fuel (fuel : nat) :
  ∀ a s r k, backtrack fuel a s = Ok r → backtrack (fuel + k) a s = Ok r.
Proof.
  induction fuel as [|fuel IH]; intros a s r k; simpl; [done|].
  unfold mbind, M_bind.
  destruct (enter_backtrack s) as [[[] s0]| |]; [|done..].
  destruct (assignment_complete a s0) as [[[] s1]| |]; [done| |done..].
  destruct (select_unassigned_variable a s1) as [[var s2]| |]; [|done..].
  destruct (order_domain_values var a s2) as [[values s3]| |]; [|done..].
  apply try_values_mono. intros l s' r'. apply IH.
Qed.

(** [solve] returns on a built crossword, with one result from some fuel on. *)
Lemma solve_returns (contents : list string) (vocabulary : gset string)
    (cw : Crossword) :
  Crossword_init contents vocabulary = Ok cw →
  ∃ fuel0 r s',
    ∀ fuel, fuel0 ≤ fuel → solve fuel (CrosswordCreator_init cw) = Ok (r, s').
Proof.
  intros Hbuilt.
  destruct (node_consistency_run (CrosswordCreator_init cw))
    as (s1 & Hnode & _).
  destruct (node_consistent_well_formed _ _ _ _ Hbuilt Hnode)
    as (Hwf1 & Hcw1 & Hdicts1 & _).
  destruct (all_arcs_total s1 Hwf1) as (arcs & Harcs & Hvalid).
  destruct (ac3_loop_terminates _ s1 arcs (le_n _) Hwf1 Hvalid)
    as (fuelA & b & s2 & Hloop).
  pose proof (ac3_loop_prunes _ _ _ _ _ Hloop) as Hprunes.
  pose proof (prunes_well_formed _ _ Hwf1 Hprunes) as Hwf2.
  destruct Hprunes as (Hcw2 & Hdicts2 & _).
  set (a := fresh (dom (dicts s2))).
  set (s3 := with_dicts s2 (<[a := ∅]> (dicts s2))).
  assert (dict_new s2 = Ok (a, s3)) as Hnew by (by apply dict_new_Ok).
  destruct (backtrack_total (S (size (variables cw))) a s3 ∅)
    as (r & s' & Hback).
  { exact Hwf2. }
  { simpl. rewrite Hcw2, Hcw1. by eapply built_mirrored. }
  { simpl. by rewrite lookup_insert_eq. }
  { intros v w Hvw. by rewrite lookup_empty in Hvw. }
  { simpl. rewrite Hcw2, Hcw1, dom_empty_L, difference_empty_L. lia. }
  exists (fuelA `max` S (size (variables cw))), r, s'.
  intros fuel Hfuel. unfold solve. run Hnode.
  assert (ac3 fuel None s1 = Ok (b, s2)) as Hac3.
  { unfold ac3. run Harcs.
    replace fuel with (fuelA + (fuel - fuelA)) by lia.
    by apply ac3_loop_fuel. }
  run Hac3. run Hnew.
  replace fuel with (S (size (variables cw)) + (fuel - S (size (variables cw))))
    by lia.
  by apply backtrack_fuel.
Qed.

(** X16.  [solve()] returns on every crossword built from a structure:
    it raises no exception and the search terminates.  From some amount of
    fuel on, the run ends with one and the same result and state. *)
Theorem solve_total (contents : list string) (vocabulary : gset string)
    (cw : Crossword) :
  Crossword_init contents vocabulary = Ok cw →
  ∃ fuel0 r s',
    ∀ fuel, fuel0 ≤ fuel → solve fuel (CrosswordCreator_init cw) = Ok (r, s').
Proof. exact (solve_returns contents vocabulary cw). Qed.

Lemma solve_total_witness :
  ∃ fuel0 r s',
    ∀ fuel, fuel0 ≤ fuel →
      solve fuel (CrosswordCreator_init Example.puzzle) = Ok (r, s').
Proof.
  exact (solve_total Example.contents Example.vocabulary Example.puzzle
           example_puzzle_built).
Defined.

(** ** letter_grid *)

Lemma py_pos_nat (n i : nat) : i < n → py_pos n (Z.of_nat i) = Ok i.
Proof.
  intros Hi. unfold py_pos. rewrite decide_True by lia.
  by rewrite Nat2Z.id.
Qed.

Lemma shows_ext (letters : list (list (option ascii)))
    (W W' : Z * Z → ascii → Prop) :
  (∀ p c, W p c ↔ W' p c) → shows letters W → shows letters W'.
Proof. intros Hext H i j c. rewrite <- Hext. apply H. Qed.

Lemma grid_set_spec (letters : list (list (option ascii))) (h w : nat)
    (W : Z * Z → ascii → Prop) (i j : nat) (c : ascii) :
  grid_shape letters h w → shows letters W → i < h → j < w →
  (∀ c', W (Z.of_nat i, Z.of_nat j) c' → c' = c) →
  ∃ letters',
    grid_set letters (Z.of_nat i) (Z.of_nat j) c = Ok letters'
    ∧ grid_shape letters' h w
    ∧ shows letters'
        (fun p x => W p x ∨ (p = (Z.of_nat i, Z.of_nat j) ∧ x = c)).
Proof.
  intros [Hh Hw] Hshows Hi Hj Hfun.
  destruct (lookup_lt_is_Some_2 letters i) as [row Hrow]; [lia|].
  assert (List.length row = w) as Hlen.
  { apply Hw. by eapply list_elem_of_lookup_2. }
  exists (<[i := <[j := Some c]> row]> letters).
  split; [|split; [split|]].
  - unfold grid_set. rewrite py_pos_nat by lia. simpl.
    unfold nth_item. rewrite Hrow. simpl. rewrite py_pos_nat by lia. done.
  - by rewrite length_insert.
  - intros row' Hin. apply list_elem_of_lookup in Hin as [i' Hi'].
    apply list_lookup_insert_Some in Hi' as [(-> & <- & _)|[_ Hi']].
    + by rewrite length_insert.
    + apply Hw. by eapply list_elem_of_lookup_2.
  - intros i' j' x. unfold grid_cell.
    destruct (decide (i' = i)) as [->|Hne].
    + rewrite list_lookup_insert_eq by lia. simpl.
      destruct (decide (j' = j)) as [->|Hne].
      * rewrite list_lookup_insert_eq by lia. split.
        -- intros [= <-]. by right.
        -- intros [H|[_ ->]]; [|done]. by rewrite (Hfun x H).
      * rewrite list_lookup_insert_ne by done.
        specialize (Hshows i j' x). unfold grid_cell in Hshows.
        rewrite Hrow in Hshows. simpl in Hshows. rewrite Hshows.
        split; [by left|]. intros [H|[[= Heq] _]]; [done|lia].
    + rewrite list_lookup_insert_ne by done.
      specialize (Hshows i' j' x). unfold grid_cell in Hshows.
      rewrite Hshows. split; [by left|]. intros [H|[[= Heq _] _]]; [done|lia].
Qed.

Lemma write_word_loop (v : Var.t) (word : string) (h w : nat)
    (F : Z * Z → ascii → Prop) (n : nat) :
  (∀ p x x', F p x → F p x' → x = x') →
  (∀ k, k < String.length word →
     ∃ r q, cell_at v k = (Z.of_nat r, Z.of_nat q) ∧ r < h ∧ q < w) →
  (∀ k c, String.get k word = Some c → F (cell_at v k) c) →
  ∀ a letters (W : Z * Z → ascii → Prop),
    a + n = String.length word →
    grid_shape letters h w → shows letters W → (∀ p x, W p x → F p x) →
    ∃ letters',
      foldM
        (fun letters k =>
           match String.get k word with
           | Some c =>
               grid_set letters
                 (Var.i v + Var.offset (Var.direction v) Var.DOWN k)%Z
                 (Var.j v + Var.offset (Var.direction v) Var.ACROSS k)%Z c
           | None => Raise IndexError
           end) letters (seq a n) = Ok letters'
      ∧ grid_shape letters' h w
      ∧ shows letters'
          (fun p x => W p x
                      ∨ ∃ k, a ≤ k ∧ cell_at v k = p
                             ∧ String.get k word = Some x).
Proof.
  intros Hfun Hgrid Hword.
  induction n as [|n IH]; intros a letters W Han Hshape Hshows HW; simpl.
  - exists letters. split; [done|]. split; [done|].
    eapply shows_ext; [|exact Hshows]. intros p x. split; [by left|].
    intros [H|(k & Hk & _ & Hget)]; [done|].
    apply string_get_Some in Hget. lia.
  - destruct (string_get_lt word a) as [c Hc]; [lia|]. rewrite Hc.
    destruct (Hgrid a) as (r & q & Hcell & Hr & Hq); [lia|].
    change (Var.i v + Var.offset (Var.direction v) Var.DOWN a,
            Var.j v + Var.offset (Var.direction v) Var.ACROSS a)%Z
      with (cell_at v a) in *.
    assert ((Var.i v + Var.offset (Var.direction v) Var.DOWN a)%Z
            = Z.of_nat r
            ∧ (Var.j v + Var.offset (Var.direction v) Var.ACROSS a)%Z
              = Z.of_nat q) as [-> ->].
    { unfold cell_at in Hcell. by injection Hcell. }
    destruct (grid_set_spec letters h w W r q c Hshape Hshows Hr Hq)
      as (letters1 & Hset & Hshape1 & Hshows1).
    { intros c' Hc'. rewrite <- Hcell in Hc'.
      eapply Hfun; [by apply HW|by apply Hword]. }
    rewrite Hset. simpl.
    destruct (IH (S a) letters1 _ ltac:(lia) Hshape1 Hshows1)
      as (letters' & Hrun & Hshape' & Hshows').
    { intros p x [H|[-> ->]]; [by apply HW|].
      rewrite <- Hcell. by apply Hword. }
    exists letters'. split; [exact Hrun|]. split; [done|].
    eapply shows_ext; [|exact Hshows']. intros p x. split.
    + intros [[H|[-> ->]]|(k & Hk & Hp & Hget)].
      * by left.
      * right. exists a. by rewrite Hcell.
      * right. exists k. split; [lia|done].
    + intros [H|(k & Hk & Hp & Hget)]; [by left; left|].
      destruct (decide (k = a)) as [->|Hne].
      * left. right. rewrite <- Hp, Hcell. split; [done|]. congruence.
      * right. exists k. split; [lia|done].
Qed.

Lemma write_word_spec (v : Var.t) (word : string) (h w : nat)
    (F W : Z * Z → ascii → Prop) (letters : list (list (option ascii))) :
  (∀ p x x', F p x → F p x' → x = x') →
  (∀ k, k < String.length word →
     ∃ r q, cell_at v k = (Z.of_nat r, Z.of_nat q) ∧ r < h ∧ q < w) →
  (∀ k c, String.get k word = Some c → F (cell_at v k) c) →
  grid_shape letters h w → shows letters W → (∀ p x, W p x → F p x) →
  ∃ letters',
    write_word v word letters = Ok letters'
    ∧ grid_shape letters' h w
    ∧ shows letters'
        (fun p x => W p x
                    ∨ ∃ k, cell_at v k = p ∧ String.get k word = Some x).
Proof.
  intros Hfun Hgrid Hword Hshape Hshows HW.
  destruct (write_word_loop v word h w F (String.length word) Hfun Hgrid Hword
              0 letters W) as (letters' & Hrun & Hshape' & Hshows');
    [lia|done..|].
  exists letters'. split; [|split; [done|]].
  - unfold write_word, range. by rewrite Nat.sub_0_r.
  - eapply shows_ext; [|exact Hshows']. intros p x.
    split; (intros [H|(k & H)]; [by left|right; exists k]); [tauto|].
    split; [lia|done].
Qed.

Lemma fill_spec (h w : nat) (F : Z * Z → ascii → Prop)
    (items : list (Var.t * string)) :
  (∀ p x x', F p x → F p x' → x = x') →
  (∀ v word, (v, word) ∈ items →
     (∀ k, k < String.length word →
        ∃ r q, cell_at v k = (Z.of_nat r, Z.of_nat q) ∧ r < h ∧ q < w)
     ∧ ∀ k c, String.get k word = Some c → F (cell_at v k) c) →
  ∀ letters (W : Z * Z → ascii → Prop),
    grid_shape letters h w → shows letters W → (∀ p x, W p x → F p x) →
    ∃ letters',
      foldM (fun letters item => write_word item.1 item.2 letters)
        letters items = Ok letters'
      ∧ grid_shape letters' h w
      ∧ shows letters'
          (fun p x => W p x
                      ∨ ∃ v word k, (v, word) ∈ items ∧ cell_at v k = p
                                    ∧ String.get k word = Some x).
Proof.
  intros Hfun. induction items as [|[v word] items IH];
    intros Hitems letters W Hshape Hshows HW; simpl.
  - exists letters. split; [done|]. split; [done|].
    eapply shows_ext; [|exact Hshows]. intros p x. split; [by left|].
    intros [H|(? & ? & ? & []%elem_of_nil & _)]. done.
  - destruct (Hitems v word) as [Hgrid Hword]; [left|].
    destruct (write_word_spec v word h w F W letters Hfun Hgrid Hword
                Hshape Hshows HW) as (letters1 & Hrun1 & Hshape1 & Hshows1).
    rewrite Hrun1. simpl.
    destruct (IH ltac:(intros v' w' Hin; apply Hitems; by right)
                letters1 _ Hshape1 Hshows1)
      as (letters' & Hrun & Hshape' & Hshows').
    { intros p x [H|(k & <- & Hget)]; [by apply HW|by apply Hword]. }
    exists letters'. split; [exact Hrun|]. split; [done|].
    eapply shows_ext; [|exact Hshows']. intros p x. split.
    + intros [[H|(k & Hp & Hget)]|(v' & w' & k & Hin & Hp & Hget)].
      * by left.
      * right. exists v, word, k. split; [left|done].
      * right. exists v', w', k. split; [by right|done].
    + intros [H|(v' & w' & k & Hin & Hp & Hget)]; [by left; left|].
      apply elem_of_cons in Hin as [[= -> ->]|Hin].
      * left. right. by exists k.
      * right. by exists v', w', k.
Qed.

Lemma built_cells (contents : list string) (vocabulary : gset string)
    (cw : Crossword) (v : Var.t) :
  Crossword_init contents vocabulary = Ok cw → v ∈ variables cw →
  (Var.direction v = Var.DOWN ∨ Var.direction v = Var.ACROSS)
  ∧ ∀ k, k < Var.length v →
      ∃ r q, cell_at v k = (Z.of_nat r, Z.of_nat q)
             ∧ r < height cw ∧ q < width cw
             ∧ cell (structure cw) r q = true.
Proof.
  intros Hbuilt Hv.
  destruct (structure_shape _ _ _ Hbuilt) as (Hh & Hw & _).
  apply Crossword_init_Ok in Hbuilt as (_ & _ & _ & _ & Hvars & _).
  rewrite Hvars in Hv. apply scan_spec in Hv as (i & j & Hi & Hj & [Hd|Ha]).
  - destruct (proj1 (down_at_run _ _ _ i j v Hh Hw)) as (L & _ & -> & Hrun);
      [done|].
    split; [by left|]. simpl. intros k Hk. exists (i + k), j.
    destruct Hrun as (Hfill & _). specialize (Hfill k Hk).
    destruct (cell_true_in_grid _ _ _ _ _ Hh Hw Hfill) as [? ?].
    split; [|done]. unfold cell_at, Var.offset. simpl. f_equal; lia.
  - destruct (proj1 (across_at_run _ _ _ i j v Hh Hw)) as (L & _ & -> & Hrun);
      [done|].
    split; [by right|]. simpl. intros k Hk. exists i, (j + k).
    destruct Hrun as (Hfill & _). specialize (Hfill k Hk).
    destruct (cell_true_in_grid _ _ _ _ _ Hh Hw Hfill) as [? ?].
    split; [|done]. unfold cell_at, Var.offset. simpl. f_equal; lia.
Qed.

Lemma cell_at_inj (v : Var.t) (k k' : nat) :
  Var.direction v = Var.DOWN ∨ Var.direction v = Var.ACROSS →
  cell_at v k = cell_at v k' → k = k'.
Proof.
  unfold cell_at, Var.offset. intros [-> | ->]; simpl; intros [= H]; lia.
Qed.

(** On a built crossword an assignment whose words agree at the overlaps
    puts at most one character on a cell. *)
Lemma letter_unique (contents : list string) (vocabulary : gset string)
    (cw : Crossword) (d : gmap Var.t string) :
  Crossword_init contents vocabulary = Ok cw →
  (∀ v, is_Some (d !! v) → v ∈ variables cw) →
  overlaps_agree cw d →
  ∀ p x x', letter_at d p x → letter_at d p x' → x = x'.
Proof.
  intros Hbuilt Hkeys Hagree p x x'
    (v & w & k & Hw & Hk & Hx) (v' & w' & k' & Hw' & Hk' & Hx').
  assert (v ∈ variables cw) as Hv by (apply Hkeys; eauto).
  assert (v' ∈ variables cw) as Hv' by (apply Hkeys; eauto).
  destruct (built_cells _ _ _ _ Hbuilt Hv) as [Hdir _].
  destruct (built_cells _ _ _ _ Hbuilt Hv') as [Hdir' _].
  apply cells_lookup_Some in Hk as [Hklt Hp].
  apply cells_lookup_Some in Hk' as [Hklt' Hp'].
  destruct (decide (v = v')) as [<-|Hne].
  - assert (k = k') as <-.
    { apply (cell_at_inj v); [done|congruence]. }
    congruence.
  - pose proof (Crossword_init_Ok _ _ _ Hbuilt)
      as (_ & _ & _ & _ & Hvars & Hlook).
    specialize (Hlook v v'). rewrite decide_True in Hlook by done.
    destruct (overlap_entry_total v v') as [_ Hentry].
    assert (p ∈ Var.cells v) as Hin.
    { apply elem_of_cells. eauto. }
    assert (p ∈ Var.cells v') as Hin'.
    { apply elem_of_cells. eauto. }
    destruct (overlap v v') as [[a b]|]; [|by destruct (Hentry p)].
    destruct Hentry as (c0 & [Ha _] & [Hb _]).
    assert (c0 = p) as ->.
    { rewrite Hvars in Hv, Hv'.
      apply (scan_shared_cell_unique (structure cw) (height cw) (width cw)
               v v'); try done; by eapply list_elem_of_lookup_2. }
    apply cells_lookup_Some in Ha as [_ Ha].
    apply cells_lookup_Some in Hb as [_ Hb].
    assert (a = k) as -> by (apply (cell_at_inj v); [done|congruence]).
    assert (b = k') as -> by (apply (cell_at_inj v'); [done|congruence]).
    destruct (Hagree v v' k k' w w' Hv Hv' Hne Hlook Hw Hw')
      as (c & Hc & Hc').
    congruence.
Qed.

Lemma lift_run {A : Type} (r : result A) (a : A) s :
  r = Ok a → lift r s = Ok (a, s).
Proof. by intros ->. Qed.

Lemma letter_grid_run (contents : list string) (vocabulary : gset string)
    (a : loc) (d : gmap Var.t string) s :
  Crossword_init contents vocabulary = Ok (crossword s) →
  dicts s !! a = Some d →
  (∀ v, is_Some (d !! v) → v ∈ variables (crossword s)) →
  lengths_fit d → overlaps_agree (crossword s) d →
  ∃ letters,
    letter_grid a s = Ok (letters, s)
    ∧ grid_shape letters (height (crossword s)) (width (crossword s))
    ∧ shows letters (letter_at d).
Proof.
  intros Hbuilt Hd Hkeys Hfit Hagree.
  pose proof (letter_unique _ _ _ d Hbuilt Hkeys Hagree) as Hfun.
  destruct (fill_spec (height (crossword s)) (width (crossword s))
              (letter_at d) (map_to_list d) Hfun)
    with (letters := replicate (height (crossword s))
                       (replicate (width (crossword s)) (@None ascii)))
         (W := fun (_ : Z * Z) (_ : ascii) => False)
    as (letters & Hrun & Hshape & Hshows).
  - intros v word Hin%elem_of_map_to_list.
    pose proof (Hfit v word Hin) as Hlen.
    assert (v ∈ variables (crossword s)) as Hv by (apply Hkeys; eauto).
    destruct (built_cells _ _ _ _ Hbuilt Hv) as [_ Hcells]. split.
    + intros k Hk. destruct (Hcells k) as (r & q & ? & ? & ? & _); [lia|].
      eauto.
    + intros k c Hc. exists v, word, k. split; [done|]. split; [|done].
      apply cells_lookup. apply string_get_Some in Hc. lia.
  - split; [by rewrite length_replicate|].
    intros row ->%elem_of_replicate_inv. by rewrite length_replicate.
  - intros i j c. unfold grid_cell. split; [|done].
    destruct (replicate _ _ !! i) as [row|] eqn:Hrow; [|done]. simpl.
    apply lookup_replicate in Hrow as [-> _].
    intros [[=] _]%lookup_replicate.
  - done.
  - exists letters. split; [|split; [done|]].
    + unfold letter_grid. rewrite (bind_run _ _ s (crossword s) s eq_refl).
      run (dict_of_run _ _ _ Hd). by apply lift_run.
    + eapply shows_ext; [|exact Hshows]. intros p x. split.
      * intros [[]|(v & word & k & Hin%elem_of_map_to_list & Hp & Hget)].
        exists v, word, k. split; [done|]. split; [|done].
        apply cells_lookup_Some. split; [|done].
        apply string_get_Some in Hget. rewrite <- (Hfit v word Hin). done.
      * intros (v & word & k & Hin & [_ Hp]%cells_lookup_Some & Hget).
        right. exists v, word, k. by rewrite elem_of_map_to_list.
Qed.

(** X17.  [letter_grid] lays an assignment out on the grid.  For a
    crossword built from a structure and an assignment of words to some of
    its variables, each word of its variable's length and the words
    agreeing at the overlaps, [letter_grid] raises nothing and changes no
    state; it returns [height] rows of [width] entries, and entry [(i, j)]
    is the character [c] exactly when [(i, j)] is cell number [k] of an
    assigned variable whose word has [c] at position [k]; every other
    entry is [None]. *)
Theorem letter_grid_spec (contents : list string) (vocabulary : gset string)
    (a : loc) (d : gmap Var.t string) (s : state) :
  Crossword_init contents vocabulary = Ok (crossword s) →
  dicts s !! a = Some d →
  (∀ v, is_Some (d !! v) → v ∈ variables (crossword s)) →
  lengths_fit d → overlaps_agree (crossword s) d →
  ∃ letters,
    letter_grid a s = Ok (letters, s)
    ∧ List.length letters = height (crossword s)
    ∧ (∀ row, row ∈ letters → List.length row = width (crossword s))
    ∧ (∀ i j c, grid_cell letters i j = Some (Some c)
                ↔ letter_at d (Z.of_nat i, Z.of_nat j) c)
    ∧ (∀ i j, i < height (crossword s) → j < width (crossword s) →
         (∀ c, ¬ letter_at d (Z.of_nat i, Z.of_nat j) c) →
         grid_cell letters i j = Some None).
Proof.
  intros Hbuilt Hd Hkeys Hfit Hagree.
  destruct (letter_grid_run _ _ _ _ _ Hbuilt Hd Hkeys Hfit Hagree)
    as (letters & Hrun & [Hh Hw] & Hshows).
  exists letters. split; [done|]. split; [done|]. split; [done|].
  split; [exact Hshows|]. intros i j Hi Hj Hnone.
  destruct (lookup_lt_is_Some_2 letters i) as [row Hrow]; [lia|].
  assert (List.length row = width (crossword s)) as Hlen.
  { apply Hw. by eapply list_elem_of_lookup_2. }
  destruct (lookup_lt_is_Some_2 row j) as [x Hx]; [lia|].
  assert (grid_cell letters i j = Some x) as Hcell.
  { unfold grid_cell. rewrite Hrow. done. }
  rewrite Hcell. destruct x as [c|]; [|done].
  by destruct (Hnone c); apply Hshows.
Qed.

Lemma example_filled_keys (v : Var.t) :
  is_Some (Example.filled !! v) → v ∈ variables Example.puzzle.
Proof.
  intros [w [[-> _]|[-> _]]%example_lookup]; unfold Example.puzzle;
    cbn [variables]; set_solver.
Qed.

Lemma letter_grid_spec_witness :
  letter_grid 1 Example.solved
  = Ok ([[Some "C"%char; Some "A"%char; Some "T"%char];
         [None; Some "B"%char; None]], Example.solved)
  ∧ ∃ letters,
      letter_grid 1 Example.solved = Ok (letters, Example.solved)
      ∧ List.length letters = height (crossword Example.solved)
      ∧ (∀ row, row ∈ letters
                → List.length row = width (crossword Example.solved))
      ∧ (∀ i j c, grid_cell letters i j = Some (Some c)
                  ↔ letter_at Example.filled (Z.of_nat i, Z.of_nat j) c)
      ∧ (∀ i j, i < height (crossword Example.solved) →
           j < width (crossword Example.solved) →
           (∀ c, ¬ letter_at Example.filled (Z.of_nat i, Z.of_nat j) c) →
           grid_cell letters i j = Some None).
Proof.
  split; [vm_compute; reflexivity|].
  destruct example_solution as (_ & _ & Hfit & Hagree).
  exact (letter_grid_spec Example.contents Example.vocabulary 1
           Example.filled Example.solved example_puzzle_built eq_refl
           example_filled_keys Hfit Hagree).
Defined.

(** ** print and main *)

Lemma foldM_append {A B : Type} (f : A → result B) (g : A → B)
    (l : list A) :
  (∀ x, x ∈ l → f x = Ok (g x)) →
  ∀ acc,
    foldM (fun acc x => y ← f x; Ok (acc ++ [y])) acc l
    = Ok (acc ++ (g <$> l)).
Proof.
  induction l as [|x l IH]; intros Hf acc; simpl.
  - by rewrite app_nil_r.
  - rewrite (Hf x) by left. simpl. rewrite IH.
    + by rewrite <- app_assoc.
    + intros x' Hx'. apply Hf. by right.
Qed.

Lemma grid_cell_Some {A : Type} (g : list (list A)) (h w i j : nat) :
  grid_shape g h w → i < h → j < w →
  ∃ row x, g !! i = Some row ∧ row !! j = Some x
           ∧ grid_cell g i j = Some x.
Proof.
  intros [Hh Hw] Hi Hj.
  destruct (lookup_lt_is_Some_2 g i) as [row Hrow]; [lia|].
  assert (List.length row = w) as Hlen.
  { apply Hw. by eapply list_elem_of_lookup_2. }
  destruct (lookup_lt_is_Some_2 row j) as [x Hx]; [lia|].
  exists row, x. unfold grid_cell. by rewrite Hrow.
Qed.

Lemma print_cell_run (cw : Crossword) (letters : list (list (option ascii)))
    (i j : nat) :
  grid_shape (structure cw) (height cw) (width cw) →
  grid_shape letters (height cw) (width cw) →
  i < height cw → j < width cw →
  print_cell cw letters i j = Ok (piece cw letters i j).
Proof.
  intros Hst Hlt Hi Hj.
  destruct (grid_cell_Some _ _ _ i j Hst Hi Hj) as (row & b & Hrow & Hb & Hc).
  destruct (grid_cell_Some _ _ _ i j Hlt Hi Hj)
    as (lrow & x & Hlrow & Hx & Hc').
  unfold print_cell, piece, cell, nth_item.
  unfold grid_cell in Hc. rewrite Hc, Hc', Hrow. simpl. rewrite Hb. simpl.
  destruct b; [|done]. rewrite Hlrow. simpl. rewrite Hx. simpl.
  by destruct x.
Qed.

Lemma print_run (contents : list string) (vocabulary : gset string)
    (a : loc) (d : gmap Var.t string) s :
  Crossword_init contents vocabulary = Ok (crossword s) →
  dicts s !! a = Some d →
  (∀ v, is_Some (d !! v) → v ∈ variables (crossword s)) →
  lengths_fit d → overlaps_agree (crossword s) d →
  ∃ out, print a s = Ok (out, s) ∧ printed (crossword s) d out.
Proof.
  intros Hbuilt Hd Hkeys Hfit Hagree.
  destruct (letter_grid_run _ _ _ _ _ Hbuilt Hd Hkeys Hfit Hagree)
    as (letters & Hrun & Hshape & Hshows).
  destruct (structure_shape _ _ _ Hbuilt) as (Hh & Hw & _).
  set (cw := crossword s) in *.
  assert (grid_shape (structure cw) (height cw) (width cw)) as Hst by done.
  set (line i := (fun j => piece cw letters i j) <$> range 0 (width cw)).
  exists (line <$> range 0 (height cw)). split.
  - unfold print. run Hrun. rewrite (bind_run _ _ s cw s eq_refl).
    apply lift_run.
    rewrite (foldM_append _ line); [done|].
    intros i Hi. unfold range in Hi. apply elem_of_seq in Hi.
    rewrite (foldM_append _ (fun j => piece cw letters i j)); [done|].
    intros j Hj. unfold range in Hj. apply elem_of_seq in Hj.
    apply print_cell_run; [done..|lia|lia].
  - split; [split|].
    + unfold range. by rewrite length_fmap, length_seq, Nat.sub_0_r.
    + intros row (i & -> & _)%list_elem_of_fmap. unfold line, range.
      by rewrite length_fmap, length_seq, Nat.sub_0_r.
    + intros i j Hi Hj. exists (piece cw letters i j). split; [|split].
      * unfold grid_cell, range. rewrite list_lookup_fmap.
        rewrite lookup_seq_lt by lia. simpl. unfold line, range.
        rewrite list_lookup_fmap, lookup_seq_lt by lia. done.
      * unfold piece. by intros ->.
      * unfold piece. intros ->. split.
        -- intros c Hc. apply Hshows in Hc. by rewrite Hc.
        -- intros Hnone.
           destruct (grid_cell letters i j) as [[c|]|] eqn:Hc; [|done..].
           by destruct (Hnone c); apply Hshows.
Qed.

(** X18.  What [print] writes.  For a crossword built from a structure
    and an assignment of words to some of its variables, each word of its
    variable's length and the words agreeing at the overlaps, [print]
    raises nothing and changes no state; it writes [height] lines of
    [width] pieces: a full block where the structure has a blocked cell,
    the letter the assignment puts there on a fillable cell, and a space on
    a fillable cell that no assigned variable covers. *)
Theorem print_spec (contents : list string) (vocabulary : gset string)
    (a : loc) (d : gmap Var.t string) (s : state) :
  Crossword_init contents vocabulary = Ok (crossword s) →
  dicts s !! a = Some d →
  (∀ v, is_Some (d !! v) → v ∈ variables (crossword s)) →
  lengths_fit d → overlaps_agree (crossword s) d →
  ∃ out, print a s = Ok (out, s) ∧ printed (crossword s) d out.
Proof. exact (print_run contents vocabulary a d s). Qed.

Lemma print_spec_witness :
  print 1 Example.solved
  = Ok ([["C"; "A"; "T"]; ["█"; "B"; "█"]], Example.solved)
  ∧ ∃ out, print 1 Example.solved = Ok (out, Example.solved)
           ∧ printed (crossword Example.solved) Example.filled out.
Proof.
  split; [vm_compute; reflexivity|].
  destruct example_solution as (_ & _ & Hfit & Hagree).
  exact (print_spec Example.contents Example.vocabulary 1
           Example.filled Example.solved example_puzzle_built eq_refl
           example_filled_keys Hfit Hagree).
Defined.

Lemma solve_Some (cw : Crossword) (fuel : nat) (l : loc) (s' : state) :
  solve fuel (CrosswordCreator_init cw) = Ok (Some l, s') →
  crossword s' = cw
  ∧ ∃ d, dicts s' !! l = Some d
         ∧ solution cw d
         ∧ (∀ v w, d !! v = Some w → v ∈ variables cw ∧ w ∈ words cw).
Proof.
  unfold solve. intros H.
  apply bind_Ok in H as ([] & s1 & Hnode & H).
  destruct (node_consistency_run (CrosswordCreator_init cw))
    as (s1' & Hnode' & Hcw1 & _ & _ & _ & Hds1).
  rewrite Hnode' in Hnode. injection Hnode as ->. simpl in Hcw1, Hds1.
  apply bind_Ok in H as (b & s2 & Hac3 & H).
  apply ac3_prunes in Hac3 as (Hcw2 & _ & _ & Hds2).
  apply bind_Ok in H as (a & s3 & [-> ->]%dict_new_Ok & H).
  pose proof (backtrack_frame _ _ _ _ _ H) as (Hcw3 & Hds3 & _).
  simpl in Hcw3. split; [by rewrite Hcw3, Hcw2|].
  pose proof H as Hsound. apply backtrack_sound in Hsound.
  2:{ simpl. intros d. rewrite lookup_insert_eq. intros [= <-].
      repeat split; intros ?; intros; by simplify_map_eq. }
  apply backtrack_from_domains in H.
  2:{ simpl. intros d. rewrite lookup_insert_eq. intros [= <-].
      intros v w Hv. by rewrite lookup_empty in Hv. }
  destruct H as (d & Hd & Hfrom).
  destruct Hsound as (d' & Hd' & Hsol).
  rewrite Hd in Hd'. injection Hd' as <-.
  unfold from_domains in Hfrom. simpl in *.
  rewrite Hcw2, Hcw1 in Hfrom, Hsol.
  exists d. split; [done|]. split; [done|].
  intros v w Hv. destruct (Hfrom v w Hv) as (Hvar & dv & Hdv & Hw).
  split; [done|].
  specialize (Hds1 v). specialize (Hds2 v).
  rewrite lookup_gset_to_gmap, option_guard_True in Hds1 by done.
  simpl in Hds1. destruct Hds1 as (d1 & Hd1 & Hin1).
  rewrite Hd1 in Hds2. destruct Hds2 as (d2 & Hd2 & Hsub).
  rewrite Hdv in Hd2. injection Hd2 as <-.
  apply Hsub, Hin1 in Hw. tauto.
Qed.

(** X19.  The whole run of [main] on a structure and a vocabulary from
    which the crossword is built.  It ends without an exception, and what
    it writes does not depend on the fuel once there is enough of it.
    Either it writes the one line [No solution.], and then no assignment
    of vocabulary words to the variables is complete and consistent; or it
    writes the grid of an assignment that is complete and consistent and
    takes every word from the vocabulary. *)
Theorem main_spec (contents : list string) (vocabulary : gset string)
    (cw : Crossword) :
  Crossword_init contents vocabulary = Ok cw →
  ∃ fuel0 out,
    (∀ fuel, fuel0 ≤ fuel → main fuel contents vocabulary = Ok out)
    ∧ ((out = [["No solution."]]
        ∧ ∀ d, (∀ v w, v ∈ variables cw → d !! v = Some w → w ∈ vocabulary) →
               ¬ solution cw d)
       ∨ ∃ d, solution cw d
              ∧ (∀ v w, d !! v = Some w → v ∈ variables cw ∧ w ∈ vocabulary)
              ∧ printed cw d out).
Proof.
  intros Hbuilt.
  destruct (solve_returns _ _ _ Hbuilt) as (fuel0 & r & s' & Hsolve).
  pose proof (Crossword_init_Ok _ _ _ Hbuilt) as (_ & _ & _ & Hvoc & _).
  destruct r as [l|].
  - destruct (solve_Some cw fuel0 l s' (Hsolve fuel0 (le_n _)))
      as (Hcw & d & Hd & Hsol & Hwords).
    destruct (print_run contents vocabulary l d s') as (out & Hprint & Hout).
    { by rewrite Hcw. }
    { done. }
    { rewrite Hcw. intros v [w Hw]. by destruct (Hwords v w Hw). }
    { by destruct Hsol as (_ & _ & ? & _). }
    { rewrite Hcw. by destruct Hsol as (_ & _ & _ & ?). }
    exists fuel0, out. split.
    + intros fuel Hfuel. unfold main. rewrite Hbuilt. simpl.
      rewrite (Hsolve fuel Hfuel). simpl. by rewrite Hprint.
    + right. exists d. rewrite <- Hvoc. rewrite Hcw in Hout. done.
  - exists fuel0, [["No solution."]]. split.
    + intros fuel Hfuel. unfold main. rewrite Hbuilt. simpl.
      by rewrite (Hsolve fuel Hfuel).
    + left. split; [done|]. intros d Hwords.
      exact (solve_complete contents vocabulary cw fuel0 s' d Hbuilt
               (Hsolve fuel0 (le_n _)) Hwords).
Qed.

Lemma main_spec_witness :
  main 4 Example.contents Example.vocabulary
  = Ok [["D"; "O"; "G"]; ["█"; "X"; "█"]]
  ∧ main 4 Example.contents Example.short_vocabulary
    = Ok [["No solution."]]
  ∧ ∃ fuel0 out,
      (∀ fuel, fuel0 ≤ fuel →
         main fuel Example.contents Example.vocabulary = Ok out)
      ∧ ((out = [["No solution."]]
          ∧ ∀ d, (∀ v w, v ∈ variables Example.puzzle → d !! v = Some w →
                         w ∈ Example.vocabulary) →
                 ¬ solution Example.puzzle d)
         ∨ ∃ d, solution Example.puzzle d
                ∧ (∀ v w, d !! v = Some w →
                     v ∈ variables Example.puzzle ∧ w ∈ Example.vocabulary)
                ∧ printed Example.puzzle d out).
Proof.
  split; [vm_compute; reflexivity|]. split; [vm_compute; reflexivity|].
  exact (main_spec Example.contents Example.vocabulary Example.puzzle
           example_puzzle_built).
Defined.

(** ** What order_domain_values counts *)

Lemma count_words_loop (o : option (nat * nat)) (value : string)
    (ws : list string) :
  NoDup ws →
  ∀ n0 k s s',
    foldM
      (fun n word =>
         o1 ← subscript1 o;
         a ← str_index word o1;
         o0 ← subscript0 o;
         b ← str_index value o0;
         mret (if decide (a ≠ b) then n + 1 else n))
      n0 ws s = Ok (k, s') →
    s' = s
    ∧ ∃ bad,
        NoDup bad ∧ k = n0 + List.length bad
        ∧ ∀ w, w ∈ bad
               ↔ w ∈ ws ∧ ∃ ix iy, o = Some (ix, iy) ∧ ¬ agree ix iy value w.
Proof.
  induction ws as [|word ws IH]; intros Hnodup n0 k s s' H; simpl in H.
  - injection H as <- <-. split; [done|]. exists []. split; [constructor|].
    split; [simpl; lia|]. intros w. split; [by intros []%elem_of_nil|].
    by intros [[]%elem_of_nil _].
  - apply NoDup_cons in Hnodup as [Hword Hnodup].
    apply bind_Ok in H as (n1 & s1 & Hbody & H).
    apply bind_Ok in Hbody as (iy & s2 & [[ix ->] ->]%subscript1_Ok & Hbody).
    apply bind_Ok in Hbody as (ca & s2 & [Ha ->]%str_index_Ok & Hbody).
    apply bind_Ok in Hbody as (ix' & s2 & [[iy' Heq] ->]%subscript0_Ok & Hbody).
    injection Heq as <- <-.
    apply bind_Ok in Hbody as (cb & s2 & [Hb ->]%str_index_Ok & Hbody).
    injection Hbody as <- <-.
    destruct (IH Hnodup _ _ _ _ H) as (-> & bad & Hbad & -> & Hin).
    split; [done|].
    assert (agree ix iy value word ↔ ca = cb) as Hagree.
    { split.
      - intros (c & Hc1 & Hc2). congruence.
      - intros ->. by exists cb. }
    destruct (decide (ca ≠ cb)) as [Hne|Heq].
    + exists (word :: bad). split; [|split; [simpl; lia|]].
      * apply NoDup_cons. split; [|done]. rewrite Hin. tauto.
      * intros w. rewrite !elem_of_cons, Hin. split.
        -- intros [->|[Hw Hrest]]; [|tauto]. split; [by left|].
           exists ix, iy. split; [done|]. rewrite Hagree. done.
        -- intros [[->|Hw] Hrest]; [by left|right; done].
    + exists bad. split; [done|]. split; [done|].
      intros w. rewrite elem_of_cons, Hin. split; [tauto|].
      intros [[->|Hw] (ix' & iy' & [= <- <-] & Hnot)]; [|eauto 6].
      destruct Hnot. apply Hagree. by destruct (decide (ca = cb)).
Qed.

Lemma count_neighbors_loop (var : Var.t) (d : gmap Var.t string)
    (value : string) (nsl : list Var.t) :
  NoDup nsl →
  ∀ count0 k s s',
    foldM
      (fun count neighbor =>
         if decide (d !! neighbor = None) then
           overlap ← overlap_of var neighbor;
           dn ← domain_of neighbor;
           n ← foldM
                 (fun n word =>
                    o1 ← subscript1 overlap;
                    a ← str_index word o1;
                    o0 ← subscript0 overlap;
                    b ← str_index value o0;
                    mret (if decide (a ≠ b) then n + 1 else n))
                 0 (elements dn);
           mret (count + n)
         else mret count)
      count0 nsl s = Ok (k, s') →
    s' = s
    ∧ ∃ R : gset (Var.t * string),
        k = count0 + size R
        ∧ ∀ n w, (n, w) ∈ R
                 ↔ n ∈ nsl ∧ ruled_out s var d value n w.
Proof.
  induction nsl as [|n nsl IH]; intros Hnodup count0 k s s' H; simpl in H.
  - injection H as <- <-. split; [done|]. exists ∅.
    split; [by rewrite size_empty, Nat.add_0_r|].
    intros n w. split; [by intros []%elem_of_empty|].
    by intros [[]%elem_of_nil _].
  - apply NoDup_cons in Hnodup as [Hn Hnodup].
    apply bind_Ok in H as (count1 & s1 & Hbody & H).
    destruct (decide (d !! n = None)) as [Hnone|Hsome].
    + apply bind_Ok in Hbody as (o & s2 & [Ho ->]%overlap_of_Ok & Hbody).
      apply bind_Ok in Hbody as (dn & s2 & [Hdn ->]%domain_of_Ok & Hbody).
      apply bind_Ok in Hbody as (kin & s2 & Hin & Hbody).
      injection Hbody as <- <-.
      apply count_words_loop in Hin as (-> & bad & Hbad & -> & Hinbad);
        [|apply NoDup_elements].
      destruct (IH Hnodup _ _ _ _ H) as (-> & R & -> & HR).
      split; [done|].
      exists (list_to_set ((fun w => (n, w)) <$> bad) ∪ R). split.
      * rewrite size_union.
        -- rewrite size_list_to_set, length_fmap; [simpl; lia|].
           apply NoDup_fmap_2; [|done]. by intros w1 w2 [= ->].
        -- intros [n' w'] Hl%elem_of_list_to_set Hr%HR.
           apply list_elem_of_fmap in Hl as (w0 & [= -> ->] & _).
           by destruct Hr.
      * intros n' w. rewrite elem_of_union, elem_of_list_to_set, HR.
        rewrite list_elem_of_fmap, elem_of_cons. split.
        -- intros [(w0 & [= -> ->] & Hw0)|[Hn' Hrest]]; [|tauto].
           apply Hinbad in Hw0 as (Hw & ix & iy & -> & Hnot).
           split; [by left|]. split; [done|].
           apply elem_of_elements in Hw. by exists dn, ix, iy.
        -- intros [[->|Hn'] Hrest]; [|tauto]. left. exists w.
           split; [done|]. apply Hinbad.
           destruct Hrest as (_ & dn' & ix & iy & Hdn' & Hw & Ho' & Hnot).
           rewrite Hdn in Hdn'. injection Hdn' as <-.
           rewrite Ho in Ho'. injection Ho' as ->.
           split; [by apply elem_of_elements|eauto].
    + injection Hbody as <- <-.
      destruct (IH Hnodup _ _ _ _ H) as (-> & R & -> & HR).
      split; [done|]. exists R. split; [done|].
      intros n' w. rewrite HR, elem_of_cons. split; [tauto|].
      intros [[->|Hn'] Hrest]; [|done]. by destruct Hrest as [? _].
Qed.

(** X20.  The count [order_domain_values] sorts by.  For a value of
    [var], [count_conflicts] changes no state and returns the number of
    pairs of an unassigned neighbor of [var] and a word of that neighbor's
    domain whose character at the overlap differs from the value's: the
    number of choices the value rules out. *)
Theorem count_conflicts_spec (var : Var.t) (d : gmap Var.t string)
    (value : string) (k : nat) (s s' : state) :
  count_conflicts var d value s = Ok (k, s') →
  s' = s
  ∧ ∃ (ns : gset Var.t) (R : gset (Var.t * string)),
      neighbors (crossword s) var = Ok ns
      ∧ size R = k
      ∧ ∀ n w, (n, w) ∈ R ↔ n ∈ ns ∧ ruled_out s var d value n w.
Proof.
  unfold count_conflicts. intros H.
  apply bind_Ok in H as (ns & s1 & [Hns ->]%neighbors_of_Ok & H).
  apply count_neighbors_loop in H as (-> & R & -> & HR);
    [|apply NoDup_elements].
  split; [done|]. exists ns, R. split; [done|]. split; [done|].
  intros n w. rewrite HR, elem_of_elements. done.
Qed.

Lemma count_conflicts_spec_witness :
  count_conflicts Example.across ∅ "CAT" Example.searching
  = Ok (1, Example.searching)
  ∧ ∃ (ns : gset Var.t) (R : gset (Var.t * string)),
      neighbors (crossword Example.searching) Example.across = Ok ns
      ∧ size R = 1
      ∧ ∀ n w, (n, w) ∈ R
               ↔ n ∈ ns
                 ∧ ruled_out Example.searching Example.across ∅ "CAT" n w.
Proof.
  assert (count_conflicts Example.across ∅ "CAT" Example.searching
          = Ok (1, Example.searching)) as Hrun by (vm_compute; reflexivity).
  split; [exact Hrun|].
  destruct (count_conflicts_spec _ _ _ _ _ _ Hrun) as [_ H]. exact H.
Defined.

(** ** revise outside the crossword *)

(** X21.  On a creator whose crossword is built from a structure,
    [revise(x, y)] raises [KeyError] when [x] and [y] are not two distinct
    variables of the crossword: the overlap table has no such key. *)
Theorem revise_KeyError (contents : list string) (vocabulary : gset string)
    (s : state) (x y : Var.t) :
  Crossword_init contents vocabulary = Ok (crossword s) →
  x ∉ variables (crossword s) ∨ y ∉ variables (crossword s) ∨ x = y →
  revise x y s = Raise KeyError.
Proof.
  intros (_ & _ & _ & _ & _ & Hlook)%Crossword_init_Ok Hout.
  unfold revise, overlap_of, gets, mbind, M_bind.
  rewrite Hlook, decide_False; [done|].
  intros (? & ? & ?). tauto.
Qed.

Lemma revise_KeyError_witness :
  revise Example.across Example.across Example.searching = Raise KeyError.
Proof.
  apply (revise_KeyError Example.contents Example.vocabulary).
  - exact example_puzzle_built.
  - right. right. reflexivity.
Defined.

(** ** revise, whenever it returns *)

Lemma any_match_Ok (x_word : string) (ix iy : nat) (ys : list string)
    (b : bool) s s' :
  any_match x_word ix iy ys s = Ok (b, s') →
  s' = s
  ∧ (b = true ↔ ∃ w', w' ∈ ys ∧ agree ix iy x_word w')
  ∧ ∀ s2, any_match x_word ix iy ys s2 = Ok (b, s2).
Proof.
  induction ys as [|w' ys IH]; simpl.
  - intros [= <- <-]. split; [done|]. split; [|done].
    split; [done|]. intros (w' & Hw' & _). by apply elem_of_nil in Hw'.
  - intros H.
    apply bind_Ok in H as (a & s1 & [Ha ->]%str_index_Ok & H).
    apply bind_Ok in H as (c & s1 & [Hc ->]%str_index_Ok & H).
    destruct (decide (a = c)) as [->|Hne].
    + injection H as <- <-. split; [done|]. split.
      * split; [|done]. intros _. exists w'. split; [left|]. by exists c.
      * intros s2. run (str_index_run _ _ _ s2 Ha).
        run (str_index_run _ _ _ s2 Hc). by rewrite decide_True.
    + destruct (IH H) as (-> & Hb & Hany). split; [done|]. split.
      * rewrite Hb. split.
        -- intros (w'' & Hw'' & Hag). exists w''. split; [by right|done].
        -- intros (w'' & Hw'' & Hag).
           apply elem_of_cons in Hw'' as [->|Hw'']; [|by eauto].
           destruct Hag as (ch & Hc1 & Hc2). congruence.
      * intros s2. run (str_index_run _ _ _ s2 Ha).
        run (str_index_run _ _ _ s2 Hc). rewrite decide_False by done.
        apply Hany.
Qed.

(** The loop of [revise] on the words [ws] still to visit, read off a run
    that returned. *)
Lemma revise_words_Ok (x y : Var.t) (ix iy : nat) (dy : gset string)
    (ws : list string) :
  ∀ s (d : gset string) (revised b : bool) s',
    x ≠ y → NoDup ws →
    domains s !! x = Some d → domains s !! y = Some dy →
    (∀ w, w ∈ ws → w ∈ d) →
    foldM (fun revised x_word =>
             dy ← domain_of y;
             found ← any_match x_word ix iy (elements dy);
             if negb found then domain_remove x x_word;; mret true
             else mret revised) revised ws s = Ok (b, s') →
    ∃ d' : gset string,
      s' = with_domains s (<[x := d']> (domains s))
      ∧ (∀ w, w ∈ d' ↔ w ∈ d ∧ (w ∈ ws → supported ix iy dy w))
      ∧ (b = true
         ↔ revised = true ∨ ∃ w, w ∈ ws ∧ ¬ supported ix iy dy w)
      ∧ (∀ w, w ∈ ws → w ∈ d' →
           ∀ s2, any_match w ix iy (elements dy) s2 = Ok (true, s2)).
Proof.
  induction ws as [|w0 ws IH]; intros s d revised b s' Hxy Hnd Hx Hy Hws H;
    simpl in H.
  - injection H as <- <-. exists d. split; [|split; [|split]].
    + rewrite insert_id by done. by destruct s.
    + intros w. rewrite elem_of_nil. naive_solver.
    + split; [by left|]. intros [?|(w & Hw & _)]; [done|].
      by apply elem_of_nil in Hw.
    + intros w Hw. by apply elem_of_nil in Hw.
  - apply NoDup_cons in Hnd as [Hw0 Hnd].
    apply bind_Ok in H as (revised1 & s1 & Hbody & H).
    apply bind_Ok in Hbody as (dy0 & s2 & [Hdy0 ->]%domain_of_Ok & Hbody).
    rewrite Hy in Hdy0. injection Hdy0 as <-.
    apply bind_Ok in Hbody as (found & s2 & Hfound & Hbody).
    apply any_match_Ok in Hfound as (-> & Hfound & Hany).
    assert (found = true ↔ supported ix iy dy w0) as Hsup.
    { rewrite Hfound. unfold supported.
      by setoid_rewrite elem_of_elements. }
    destruct found; simpl in Hbody.
    + injection Hbody as <- <-.
      destruct (IH s d revised b s' Hxy Hnd Hx Hy) as (d' & -> & Hd' & Hb & Hk);
        [|done|].
      { intros w Hw. apply Hws. by right. }
      exists d'. split; [done|]. split; [|split].
      * intros w. rewrite Hd', elem_of_cons. split; [|naive_solver].
        intros [Hwd Himp]. split; [done|]. intros [->|Hw]; [|auto].
        by apply Hsup.
      * rewrite Hb. split; [naive_solver by (right)|].
        intros [?|(w & Hw & Hns)]; [by left|].
        apply elem_of_cons in Hw as [->|Hw]; [|by eauto].
        exfalso. apply Hns. by apply Hsup.
      * intros w [->|Hw]%elem_of_cons Hwd'; [done|by apply Hk].
    + assert (¬ supported ix iy dy w0) as Hns.
      { intros Hs. by apply Hsup in Hs. }
      apply bind_Ok in Hbody as ([] & s3 & Hrem & Hbody).
      injection Hbody as <- <-.
      apply domain_remove_Ok in Hrem as (d0 & Hd0 & Hw0d & ->).
      rewrite Hx in Hd0. injection Hd0 as <-.
      destruct (IH (with_domains s (<[x := d ∖ {[ w0 ]}]> (domains s)))
                  (d ∖ {[ w0 ]}) true b s' Hxy Hnd)
        as (d' & -> & Hd' & Hb & Hk); [| | |done|].
      { simpl. by rewrite lookup_insert_eq. }
      { simpl. by rewrite lookup_insert_ne. }
      { intros w Hw. apply elem_of_difference. split; [apply Hws; by right|].
        rewrite elem_of_singleton. by intros ->. }
      exists d'. split; [|split; [|split]].
      * unfold with_domains. simpl. by rewrite insert_insert_eq.
      * intros w. rewrite Hd', elem_of_difference, elem_of_singleton,
          elem_of_cons. split.
        -- intros [[Hwd Hne] Himp]. split; [done|].
           intros [->|Hw]; [done|auto].
        -- intros [Hwd Himp]. split; [split; [done|]|].
           ++ intros ->. apply Hns, Himp. by left.
           ++ intros Hw. apply Himp. by right.
      * rewrite Hb. split; [|intros _; by left]. intros _. right.
        exists w0. split; [left|done].
      * intros w [->|Hw]%elem_of_cons Hwd'; [|by apply Hk].
        apply Hd' in Hwd' as [[_ Hne]%elem_of_difference _].
        by destruct Hne; apply elem_of_singleton.
Qed.

(** What a [revise] that returned has done. *)
Lemma revise_returned (s s' : state) (x y : Var.t) (ix iy : nat)
    (dx dy : gset string) (b : bool) :
  x ≠ y →
  overlaps (crossword s) !! (x, y) = Some (Some (ix, iy)) →
  domains s !! x = Some dx → domains s !! y = Some dy →
  revise x y s = Ok (b, s') →
  ∃ dx' : gset string,
    s' = with_domains s (<[x := dx']> (domains s))
    ∧ (∀ w, w ∈ dx' ↔ w ∈ dx ∧ supported ix iy dy w)
    ∧ (b = true ↔ ∃ w, w ∈ dx ∧ w ∉ dx')
    ∧ (∀ w, w ∈ dx' →
         ∀ s2, any_match w ix iy (elements dy) s2 = Ok (true, s2)).
Proof.
  intros Hne Ho Hx Hy H. unfold revise in H.
  apply bind_Ok in H as (o & s1 & [Ho' ->]%overlap_of_Ok & H).
  rewrite Ho in Ho'. injection Ho' as <-.
  apply bind_Ok in H as (dx0 & s1 & [Hdx0 ->]%domain_of_Ok & H).
  rewrite Hx in Hdx0. injection Hdx0 as <-.
  apply (revise_words_Ok x y ix iy dy (elements dx) s dx false b s' Hne)
    in H as (dx' & -> & Hdx' & Hb & Hk);
    [|apply NoDup_elements|done|done|].
  2:{ intros w. by rewrite elem_of_elements. }
  exists dx'. split; [done|]. split; [|split].
  - intros w. rewrite Hdx', elem_of_elements. clear. tauto.
  - rewrite Hb. split.
    + intros [?|(w & Hw & Hns)]; [done|].
      exists w. split; [by apply elem_of_elements|].
      intros [_ Himp]%Hdx'. by apply Hns, Himp.
    + intros (w & Hw & Hnot). right. exists w.
      rewrite elem_of_elements. split; [done|].
      intros Hs. apply Hnot, Hdx'. by split.
  - intros w Hw. apply Hk; [|done].
    apply elem_of_elements. by apply Hdx' in Hw as [? _].
Qed.

Lemma revise_words_keep (x y : Var.t) (ix iy : nat) (dy : gset string)
    (ws : list string) s :
  domains s !! y = Some dy →
  (∀ w, w ∈ ws → any_match w ix iy (elements dy) s = Ok (true, s)) →
  ∀ revised : bool,
    foldM (fun revised x_word =>
             dy ← domain_of y;
             found ← any_match x_word ix iy (elements dy);
             if negb found then domain_remove x x_word;; mret true
             else mret revised) revised ws s = Ok (revised, s).
Proof.
  intros Hy. induction ws as [|w ws IH]; intros Hws revised; simpl; [done|].
  run (domain_of_run y dy s Hy). run (Hws w ltac:(left)). simpl.
  rewrite ret_bind. apply IH. intros w' Hw'. apply Hws. by right.
Qed.

(** A second [revise(x, y)] after one that returned. *)
Lemma revise_again (s s1 : state) (x y : Var.t) (b : bool) :
  x ≠ y → revise x y s = Ok (b, s1) → revise x y s1 = Ok (false, s1).
Proof.
  intros Hne H. pose proof H as Hrun. unfold revise in H.
  apply bind_Ok in H as (o & s0 & [Ho ->]%overlap_of_Ok & H).
  destruct o as [[ix iy]|].
  2:{ injection H as <- <-. exact Hrun. }
  apply bind_Ok in H as (dx & s0 & [Hx ->]%domain_of_Ok & H).
  destruct (domains s !! y) as [dy|] eqn:Hy.
  - destruct (revise_returned s s1 x y ix iy dx dy b Hne Ho Hx Hy Hrun)
      as (dx' & -> & Hdx' & _ & Hk).
    unfold revise.
    run (overlap_of_run x y _ (with_domains s (<[x := dx']> (domains s))) Ho).
    assert (domains (with_domains s (<[x := dx']> (domains s))) !! x
            = Some dx') as Hx' by (simpl; apply lookup_insert_eq).
    run (domain_of_run x dx' _ Hx').
    apply (revise_words_keep x y ix iy dy).
    + simpl. by rewrite lookup_insert_ne.
    + intros w Hw%elem_of_elements. by apply Hk.
  - destruct (elements dx) as [|w ws] eqn:Hws.
    + simpl in H. injection H as <- <-. exact Hrun.
    + simpl in H. unfold mbind at 1, M_bind, domain_of, gets in H.
      unfold mbind, M_bind in H. simpl in H. by rewrite Hy in H.
Qed.

Lemma built_entry_distinct (contents : list string)
    (vocabulary : gset string) (cw : Crossword) (x y : Var.t)
    (o : option (nat * nat)) :
  Crossword_init contents vocabulary = Ok cw →
  overlaps cw !! (x, y) = Some o →
  x ∈ variables cw ∧ y ∈ variables cw ∧ x ≠ y.
Proof.
  intros (_ & _ & _ & _ & _ & Hlook)%Crossword_init_Ok Ho.
  rewrite Hlook in Ho. by destruct (decide _).
Qed.

(** C4 (as the code has it).  On a creator of a crossword built from a
    structure, with [o] the entry [overlaps[x, y]].  When [o] is [None],
    [revise(x, y)] returns false and changes nothing.  When [o] is
    [(ix, iy)]: whenever [revise(x, y)] returns, only the domain of [x]
    has changed; it has become the set of its words [w] for which some
    word of the domain of [y] has at [iy] the character that [w] has at
    [ix], and the value returned is true exactly when some word was
    removed.  It returns when every word of the domain of [x] has a
    position [ix] and every word of the domain of [y] a position [iy], and
    so when the domains are node consistent. *)
Theorem revise_spec (contents : list string) (vocabulary : gset string)
    (s : state) (x y : Var.t) (o : option (nat * nat)) :
  Crossword_init contents vocabulary = Ok (crossword s) →
  overlaps (crossword s) !! (x, y) = Some o →
  match o with
  | None => revise x y s = Ok (false, s)
  | Some (ix, iy) =>
      ∀ dx dy : gset string,
        domains s !! x = Some dx →
        domains s !! y = Some dy →
        (∀ b s', revise x y s = Ok (b, s') →
           ∃ dx' : gset string,
             s' = with_domains s (<[x := dx']> (domains s))
             ∧ (∀ w, w ∈ dx' ↔ w ∈ dx ∧ supported ix iy dy w)
             ∧ (b = true ↔ ∃ w, w ∈ dx ∧ w ∉ dx'))
        ∧ ((∀ w, w ∈ dx → ix < String.length w) →
           (∀ w, w ∈ dy → iy < String.length w) →
           ∃ b s', revise x y s = Ok (b, s'))
        ∧ (node_consistent s → ∃ b s', revise x y s = Ok (b, s'))
  end.
Proof.
  intros Hbuilt Ho.
  destruct (built_entry_distinct _ _ _ _ _ _ Hbuilt Ho) as (_ & _ & Hne).
  pose proof (revise_run s x y o Ho) as Hrun.
  destruct o as [[ix iy]|]; [|done].
  intros dx dy Hx Hy.
  assert ((∀ w, w ∈ dx → ix < String.length w) →
          (∀ w, w ∈ dy → iy < String.length w) →
          ∃ b s', revise x y s = Ok (b, s')) as Hreach.
  { intros Hdx Hdy.
    destruct (Hrun dx dy Hne Hx Hy Hdx Hdy) as (dx' & b & H & _). eauto. }
  split; [|split; [done|]].
  - intros b s' H.
    destruct (revise_returned s s' x y ix iy dx dy b Hne Ho Hx Hy H)
      as (dx' & Hs' & Hdx' & Hb & _).
    by exists dx'.
  - intros Hnode.
    destruct (built_overlaps_in_range _ _ _ Hbuilt _ _ _ _ Ho) as [Hix Hiy].
    apply Hreach; intros w Hw.
    + by rewrite (Hnode x dx w).
    + by rewrite (Hnode y dy w).
Qed.

Lemma revise_spec_witness :
  let out :=
    returned (revise Example.across Example.down Example.pruned)
      (false, Example.pruned) in
  revise Example.across Example.down Example.pruned = Ok (true, out.2)
  ∧ ∃ dx' : gset string,
      out.2 = with_domains Example.pruned
                (<[Example.across := dx']> (domains Example.pruned))
      ∧ (∀ w, w ∈ dx'
              ↔ w ∈ ({[ "CAT"; "DOG"; "EMU" ]} : gset string)
                ∧ supported 1 0 {[ "AB"; "OX" ]} w)
      ∧ (true = true
         ↔ ∃ w, w ∈ ({[ "CAT"; "DOG"; "EMU" ]} : gset string) ∧ w ∉ dx').
Proof.
  intros out.
  assert (revise Example.across Example.down Example.pruned
          = Ok (true, out.2)) as Hrun by (vm_compute; reflexivity).
  assert (overlaps (crossword Example.pruned)
            !! (Example.across, Example.down) = Some (Some (1, 0))) as Ho
    by (vm_compute; reflexivity).
  assert (domains Example.pruned !! Example.across
          = Some {[ "CAT"; "DOG"; "EMU" ]}) as Hx
    by (vm_compute; reflexivity).
  assert (domains Example.pruned !! Example.down = Some {[ "AB"; "OX" ]})
    as Hy by (vm_compute; reflexivity).
  destruct (revise_spec Example.contents Example.vocabulary Example.pruned
              Example.across Example.down (Some (1, 0)) example_puzzle_built
              Ho _ _ Hx Hy) as [Hret _].
  exact (conj Hrun (Hret true out.2 Hrun)).
Defined.

Lemma example_mixed_built :
  Crossword_init Example.contents Example.mixed_vocabulary = Ok Example.mixed.
Proof. vm_compute. reflexivity. Qed.

(** On a creator fresh from [__init__] the domains hold the whole
    vocabulary; a word too short for the overlap position makes [revise]
    raise. *)
Lemma revise_raises_on_fresh_creator :
  Crossword_init Example.contents Example.mixed_vocabulary = Ok Example.mixed
  ∧ overlaps Example.mixed !! (Example.across, Example.down) = Some (Some (1, 0))
  ∧ revise Example.across Example.down (CrosswordCreator_init Example.mixed)
    = Raise IndexError.
Proof. repeat split; vm_compute; reflexivity. Qed.

(** X7.  On a creator of a crossword built from a structure, whenever
    [revise(x, y)] returns, a second [revise(x, y)] right after it finds
    nothing to remove: it returns false and leaves the state as the first
    call left it. *)
Theorem revise_twice (contents : list string) (vocabulary : gset string)
    (s s1 : state) (x y : Var.t) (b : bool) :
  Crossword_init contents vocabulary = Ok (crossword s) →
  revise x y s = Ok (b, s1) →
  revise x y s1 = Ok (false, s1).
Proof.
  intros Hbuilt H. apply (revise_again s s1 x y b); [|done].
  unfold revise in H.
  apply bind_Ok in H as (o & s0 & [Ho _]%overlap_of_Ok & _).
  by destruct (built_entry_distinct _ _ _ _ _ _ Hbuilt Ho) as (_ & _ & ?).
Qed.

Lemma revise_twice_witness :
  let out :=
    returned (revise Example.across Example.down Example.pruned)
      (false, Example.pruned) in
  revise Example.across Example.down Example.pruned = Ok (true, out.2)
  ∧ revise Example.across Example.down out.2 = Ok (false, out.2).
Proof.
  intros out.
  assert (revise Example.across Example.down Example.pruned
          = Ok (true, out.2)) as Hrun by (vm_compute; reflexivity).
  split; [exact Hrun|].
  exact (revise_twice Example.contents Example.vocabulary Example.pruned
           out.2 Example.across Example.down true example_puzzle_built Hrun).
Defined.

(** ** One shared cell *)

(** X22.  In a crossword built from a structure two distinct variables
    share at most one cell.  The entry of the overlap table for them is
    [None] exactly when they share none; otherwise it gives the positions,
    in the two cell sequences, of the one cell they share, so that it does
    not depend on which element [set.pop] returns. *)
Theorem overlaps_unique_shared_cell (contents : list string)
    (vocabulary : gset string) (cw : Crossword) (v1 v2 : Var.t) :
  Crossword_init contents vocabulary = Ok cw →
  v1 ∈ variables cw → v2 ∈ variables cw → v1 ≠ v2 →
  (∀ c c', c ∈ Var.cells v1 → c ∈ Var.cells v2 →
           c' ∈ Var.cells v1 → c' ∈ Var.cells v2 → c = c')
  ∧ match overlaps cw !! (v1, v2) with
    | None => False
    | Some None => ∀ c, c ∈ Var.cells v1 → c ∉ Var.cells v2
    | Some (Some (a, b)) =>
        ∃ c, Var.cells v1 !! a = Some c ∧ Var.cells v2 !! b = Some c
             ∧ ∀ c', c' ∈ Var.cells v1 → c' ∈ Var.cells v2 → c' = c
    end.
Proof.
  intros Hbuilt H1 H2 Hne.
  pose proof (Crossword_init_Ok _ _ _ Hbuilt)
    as (_ & _ & _ & _ & Hvars & Hlook).
  assert (∀ c c', c ∈ Var.cells v1 → c ∈ Var.cells v2 →
                  c' ∈ Var.cells v1 → c' ∈ Var.cells v2 → c = c') as Huniq.
  { intros c c'. rewrite Hvars in H1, H2.
    by apply (scan_shared_cell_unique (structure cw) (height cw) (width cw)
                v1 v2). }
  split; [exact Huniq|].
  rewrite Hlook, decide_True by done.
  destruct (overlap_entry_total v1 v2) as [_ Hentry].
  destruct (overlap v1 v2) as [[a b]|]; [|done].
  destruct Hentry as (c & [Ha _] & [Hb _]).
  exists c. split; [done|]. split; [done|].
  intros c' Hc1 Hc2. apply Huniq; try done; by eapply list_elem_of_lookup_2.
Qed.

Lemma overlaps_unique_shared_cell_witness :
  (∀ c c', c ∈ Var.cells Example.across → c ∈ Var.cells Example.down →
           c' ∈ Var.cells Example.across → c' ∈ Var.cells Example.down →
           c = c')
  ∧ match overlaps Example.puzzle !! (Example.across, Example.down) with
    | None => False
    | Some None =>
        ∀ c, c ∈ Var.cells Example.across → c ∉ Var.cells Example.down
    | Some (Some (a, b)) =>
        ∃ c, Var.cells Example.across !! a = Some c
             ∧ Var.cells Example.down !! b = Some c
             ∧ ∀ c', c' ∈ Var.cells Example.across →
                     c' ∈ Var.cells Example.down → c' = c
    end.
Proof.
  apply (overlaps_unique_shared_cell Example.contents Example.vocabulary
           Example.puzzle Example.across Example.down example_puzzle_built).
  - vm_compute. reflexivity.
  - vm_compute. reflexivity.
  - discriminate.
Defined.
